(** * full.js routing, middleware and cache core: a shallow embedding

    The development follows the TypeScript sources of [packages/core]:

    - [routing/parser.ts]     (segment parser: [parseRoute], [parseSegment])
    - [routing/matcher.ts]    ([matchRoute], [matchSegments], [validateMatch])
    - [routing/router.ts]     ([Router.addRoute], the built-in chain)
    - [routing/middleware.ts] ([MiddlewareChain], built-in middlewares)
    - [data/cache.ts]         ([MemoryCache], [createCacheEntry])
    - [errors]                ([createError], [ErrorCodes])

    Conventions.  JavaScript strings are modelled by [string] (the patterns
    and paths of interest are ASCII).  A JavaScript [Map] is an association
    list in insertion order with unique keys ([JsMap]); the [params] object
    of a match is a [gmap string string]; the revalidation queue (a [Set])
    is a [gset string].  Exceptions are explicit: a function that can throw
    returns a [Result].  Clock readings ([Date.now()]) are whole numbers of
    milliseconds ([Z]) passed as an argument, and the arithmetic on them is
    that of doubles ([Js.toDouble]).  Cache entries are objects held by
    reference in a heap, and the route context is one object whose fields
    the middlewares read and assign. *)

From Stdlib Require Import String Ascii ZArith QArith List Bool Lia.
From stdpp Require Import gmap strings list fin_maps.

Open Scope string_scope.
Open Scope Z_scope.

(* ===================================================================== *)
(** ** JavaScript helpers *)
(* ===================================================================== *)

Module Js.

(** [s.split(sep)] for a one-character separator. *)
Fixpoint split (sep : ascii) (s : string) : list string :=
  match s with
  | EmptyString => [EmptyString]
  | String c s' =>
      if Ascii.eqb c sep then EmptyString :: split sep s'
      else match split sep s' with
           | [] => [String c EmptyString]
           | w :: ws => String c w :: ws
           end
  end.

(** [Boolean(s)] on a string: the empty string is falsy. *)
Definition truthy (s : string) : bool :=
  match s with EmptyString => false | _ => true end.

(** [xs.filter(Boolean)]. *)
Definition filterBoolean (xs : list string) : list string :=
  List.filter truthy xs.

(** [xs.join(sep)]. *)
Fixpoint join (sep : string) (xs : list string) : string :=
  match xs with
  | [] => EmptyString
  | [x] => x
  | x :: rest => x ++ sep ++ join sep rest
  end.

(** *** A small backtracking matcher for the anchored patterns of the parser

    The three patterns of [parser.ts] are anchored ([^ ... $]) sequences of
    single-character atoms, each with a quantifier (none, [?] or [+], all
    greedy) and with exactly one capture group made of one atom. *)

Inductive CharClass : Type :=
| Chr (c : ascii)       (* a literal character, e.g. [\[] *)
| NotChr (c : ascii).   (* a negated class of one character, e.g. [[^\]]] *)

Inductive Quant : Type := One | Opt | Plus.

Record Atom : Type := mkAtom { cls : CharClass; quant : Quant; captured : bool }.

Definition accepts (k : CharClass) (c : ascii) : bool :=
  match k with
  | Chr d => Ascii.eqb c d
  | NotChr d => negb (Ascii.eqb c d)
  end.

Definition keep (a : Atom) (c : ascii) (r : option string) : option string :=
  if captured a then option_map (String c) r else r.

(** [exec re s] is [Some g] when the whole of [s] matches [re], [g] being
    the text of the capture group; greedy quantifiers try the longer
    alternative first and backtrack. *)
Fixpoint exec (re : list Atom) : string -> option string :=
  match re with
  | [] => fun s => match s with EmptyString => Some EmptyString | _ => None end
  | a :: re' =>
      let k := exec re' in
      match quant a with
      | One => fun s =>
          match s with
          | String c s' => if accepts (cls a) c then keep a c (k s') else None
          | EmptyString => None
          end
      | Opt => fun s =>
          match s with
          | String c s' =>
              if accepts (cls a) c then
                match keep a c (k s') with
                | Some r => Some r
                | None => k s
                end
              else k s
          | EmptyString => k s
          end
      | Plus =>
          fix plus (s : string) : option string :=
            match s with
            | String c s' =>
                if accepts (cls a) c then
                  match plus s' with
                  | Some r => keep a c (Some r)
                  | None => keep a c (k s')
                  end
                else None
            | EmptyString => None
            end
      end
  end.

(** The character class [[a-zA-Z0-9_]]. *)
Definition isWordChar (c : ascii) : bool :=
  let n := nat_of_ascii c in
  ((97 <=? n)%nat && (n <=? 122)%nat)
  || ((65 <=? n)%nat && (n <=? 90)%nat)
  || ((48 <=? n)%nat && (n <=? 57)%nat)
  || Ascii.eqb c "_"%char.

(** [/[^a-zA-Z0-9_]/.test(s)]: some character of [s] is outside the class. *)
Fixpoint testNonWord (s : string) : bool :=
  match s with
  | EmptyString => false
  | String c s' => negb (isWordChar c) || testNonWord s'
  end.

(** *** Numbers

    A JavaScript number is a double.  The numbers the cache computes with
    are whole numbers of milliseconds, kept here as integers; an
    arithmetic result is the double nearest to the exact result, the one
    with the even significand when two are equally near.  A double has 53
    significant bits: below [2^53] in magnitude every whole number is one,
    from there on the doubles are the multiples of the unit in the last
    place, [2^(e - 52)] in the binade [[2^e, 2^(e+1))].  Magnitudes from
    [2^1024] on, where a double is [Infinity], are kept as they are: the
    results are only compared with finite doubles, and such a comparison
    comes out the same. *)

(** The multiple of [ulp] nearest to [a], the even multiple when [a] is
    half-way between two. *)
Definition roundNearestEven (a ulp : Z) : Z :=
  let q := a / ulp in
  let r := a mod ulp in
  if 2 * r <? ulp then q * ulp
  else if ulp <? 2 * r then (q + 1) * ulp
  else if Z.even q then q * ulp else (q + 1) * ulp.

(** The double nearest to the whole number [n]. *)
Definition toDouble (n : Z) : Z :=
  let a := Z.abs n in
  if a <? 2 ^ 53 then n
  else Z.sgn n * roundNearestEven a (2 ^ (Z.log2 a - 52)).

(** [a - b] *)
Definition sub (a b : Z) : Z := toDouble (a - b).

(** [x * 0.75].  The factor is [3/4] exactly, so the product is the double
    nearest to [3x/4]; dividing by 4 only changes the exponent, so it is a
    quarter of the double nearest to [3x]. *)
Definition timesThreeQuarters (x : Z) : Q := toDouble (3 * x) # 4.

End Js.

(** A JavaScript [Map] with string keys: association list in insertion
    order.  [set] on a present key replaces the value in place, on an absent
    key appends; an in-place change of a node of the route tree, which
    holds its nodes itself, is written the same way. *)
Module JsMap.

Section Ops.
Context {V : Type}.

Fixpoint get (k : string) (m : list (string * V)) : option V :=
  match m with
  | [] => None
  | (k', v) :: rest => if String.eqb k' k then Some v else get k rest
  end.

Fixpoint set (k : string) (v : V) (m : list (string * V)) : list (string * V) :=
  match m with
  | [] => [(k, v)]
  | (k', v') :: rest =>
      if String.eqb k' k then (k', v) :: rest else (k', v') :: set k v rest
  end.

Fixpoint delete (k : string) (m : list (string * V)) : list (string * V) :=
  match m with
  | [] => []
  | (k', v') :: rest =>
      if String.eqb k' k then rest else (k', v') :: delete k rest
  end.

Definition keys (m : list (string * V)) : list string := List.map fst m.
End Ops.

End JsMap.

(* ===================================================================== *)
(** ** errors: [createError], [ErrorCodes], [isFullError] *)
(* ===================================================================== *)

Module Errors.

(** The members of the [ErrorCodes] object. *)
Inductive ErrorCode : Type :=
| INVALID_CONFIG
| DATA_FETCH_FAILED
| VALIDATION_FAILED
| AUTH_REQUIRED
| OPTIMIZATION_FAILED.

(** [ErrorCodes.member], a property read on the [ErrorCodes] object.  The
    object has the five keys above; a name that is not one of them reads
    as [undefined].  The routing, cache and data code read several such
    names ([MIDDLEWARE_ERROR], [ROUTE_NOT_FOUND], [ROUTE_EXECUTION_FAILED],
    [CACHE_REVALIDATION_FAILED], [FETCHER_NOT_FOUND],
    [DATA_VALIDATION_FAILED]). *)
Definition ErrorCodes (member : string) : option ErrorCode :=
  if String.eqb member "INVALID_CONFIG" then Some INVALID_CONFIG
  else if String.eqb member "DATA_FETCH_FAILED" then Some DATA_FETCH_FAILED
  else if String.eqb member "VALIDATION_FAILED" then Some VALIDATION_FAILED
  else if String.eqb member "AUTH_REQUIRED" then Some AUTH_REQUIRED
  else if String.eqb member "OPTIMIZATION_FAILED" then Some OPTIMIZATION_FAILED
  else None.

(** An [Error] object: [message], and the [code], [details] and
    [solution] fields that [createError] assigns.  [code] is [None] on a
    plain [Error], which has no such field, and on an error created with
    an [undefined] code. *)
Record FullError : Type := mkError {
  code : option ErrorCode;
  message : string;
  details : option string;
  solution : option string
}.

(** [createError({ code, message, details, solution })]: the fields are
    assigned as given. *)
Definition createError (c : option ErrorCode) (msg : string)
    (det : option string) (sol : option string) : FullError :=
  {| code := c; message := msg; details := det; solution := sol |}.

(** A thrown JavaScript value: an [Error] object, or anything else. *)
Inductive Thrown : Type :=
| ErrorObject (e : FullError)
| NonError (v : string).

(** [error instanceof Error ? error.message : 'Unknown error']. *)
Definition errorDetails (t : Thrown) : string :=
  match t with
  | ErrorObject e => message e
  | NonError _ => "Unknown error"
  end.

(** [isFullError(error)]: an [Error] whose [code] is a string. *)
Definition isFullError (t : Thrown) : bool :=
  match t with
  | ErrorObject e => match code e with Some _ => true | None => false end
  | NonError _ => false
  end.

(** Result of a call that may throw. *)
Inductive Result (A : Type) : Type :=
| Ok (a : A)
| Throw (e : FullError).
Arguments Ok {A} a.
Arguments Throw {A} e.

Definition bind {A B} (r : Result A) (f : A -> Result B) : Result B :=
  match r with
  | Ok a => f a
  | Throw e => Throw e
  end.

(** [xs.map(f)] where [f] may throw: the first failure aborts the map. *)
Fixpoint mapM {A B} (f : A -> Result B) (xs : list A) : Result (list B) :=
  match xs with
  | [] => Ok []
  | x :: rest =>
      bind (f x) (fun y => bind (mapM f rest) (fun ys => Ok (y :: ys)))
  end.

End Errors.

Import Errors.

(* ===================================================================== *)
(** ** routing/types.ts and routing/parser.ts *)
(* ===================================================================== *)

Module Parser.

Inductive RouteSegment : Type :=
| StaticSegment (value : string)
| DynamicSegment (name : string) (pattern : option string)
| CatchAllSegment (name : string)
| OptionalSegment (name : string) (pattern : option string).

(** The [type] field of a segment. *)
Definition type (s : RouteSegment) : string :=
  match s with
  | StaticSegment _ => "static"
  | DynamicSegment _ _ => "dynamic"
  | CatchAllSegment _ => "catchAll"
  | OptionalSegment _ _ => "optional"
  end.

Import Js.

Definition lbr : ascii := "["%char.
Definition rbr : ascii := "]"%char.

(** [/^\[([^\]]+)\]$/] *)
Definition DYNAMIC_SEGMENT_REGEX : list Atom :=
  [ mkAtom (Chr lbr) One false;
    mkAtom (NotChr rbr) Plus true;
    mkAtom (Chr rbr) One false ].

(** [/^\[\[([^\]]+)\]\]$/] *)
Definition CATCH_ALL_SEGMENT_REGEX : list Atom :=
  [ mkAtom (Chr lbr) One false;
    mkAtom (Chr lbr) One false;
    mkAtom (NotChr rbr) Plus true;
    mkAtom (Chr rbr) One false;
    mkAtom (Chr rbr) One false ].

(** [/^\[\[?([^\]]+)\]?\]$/] *)
Definition OPTIONAL_SEGMENT_REGEX : list Atom :=
  [ mkAtom (Chr lbr) One false;
    mkAtom (Chr lbr) Opt false;
    mkAtom (NotChr rbr) Plus true;
    mkAtom (Chr rbr) Opt false;
    mkAtom (Chr rbr) One false ].

Definition invalidName (name : string) : FullError :=
  createError (ErrorCodes "INVALID_CONFIG")
    ("Invalid route parameter name: " ++ name)
    (Some "Route parameters must contain only alphanumeric characters and underscores")
    (Some "Use only letters, numbers, and underscores in route parameter names").

(** [if (!name || /[^a-zA-Z0-9_]/.test(name)) throw ...] *)
Definition validateSegmentName (name : string) : Result unit :=
  if negb (truthy name) || testNonWord name then Throw (invalidName name)
  else Ok tt.

Definition createStaticSegment (value : string) : RouteSegment :=
  StaticSegment value.

Definition createDynamicSegment (name : string) : Result RouteSegment :=
  bind (validateSegmentName name) (fun _ => Ok (DynamicSegment name None)).

Definition createCatchAllSegment (name : string) : Result RouteSegment :=
  bind (validateSegmentName name) (fun _ => Ok (CatchAllSegment name)).

Definition createOptionalSegment (name : string) : Result RouteSegment :=
  bind (validateSegmentName name) (fun _ => Ok (OptionalSegment name None)).

(** The three tests are made in the order of the source: dynamic,
    catch-all, optional, and a segment that matches none is static. *)
Definition parseSegment (segment : string) : Result RouteSegment :=
  match exec DYNAMIC_SEGMENT_REGEX segment with
  | Some name => createDynamicSegment name
  | None =>
      match exec CATCH_ALL_SEGMENT_REGEX segment with
      | Some name => createCatchAllSegment name
      | None =>
          match exec OPTIONAL_SEGMENT_REGEX segment with
          | Some name => createOptionalSegment name
          | None => Ok (createStaticSegment segment)
          end
      end
  end.

Definition parseRoute (path : string) : Result (list RouteSegment) :=
  let segments := filterBoolean (split "/"%char path) in
  mapM parseSegment segments.

End Parser.

Import Parser.

Module Types.

(** [RouteParams]: the [params] object of a match. *)
Abbreviation RouteParams := (gmap string string).

(** [RouteContext]; [query] (a [URLSearchParams]) is kept as its source
    string, [data] is the optional field.  A context is an object: the
    router creates one per call of [execute] and every middleware of the
    chain is handed that same object. *)
Record RouteContext : Type := mkContext {
  ctx_params : RouteParams;
  ctx_query : string;
  ctx_pathname : string;
  ctx_data : option string
}.

(** What an asynchronous handler does, as far as the chain can observe:
    it returns, it throws, it writes to the console, it reads the fields
    of the context object or assigns to them, it awaits a promise that
    never settles, or it awaits the [next] continuation it was given,
    going on with [k] when [next] resolves and with [handle e] when [next]
    rejects with [e] (a handler with no [try] around the call has
    [handle := Raise]).

    These are the handlers that await each call they make to [next].  A
    handler that calls [next] and leaves the promise unawaited lets the
    rest of the chain run interleaved with its own continuation; what is
    observed then depends on the order of the job queue, which is not
    described here, and such handlers are outside this type. *)
Inductive Handler : Type :=
| Return
| Raise (e : Thrown)
| Console (line : string) (k : Handler)
| Read (k : RouteContext -> Handler)
| Write (context : RouteContext) (k : Handler)
| AwaitNext (k : Handler) (handle : Thrown -> Handler)
| Never.

(** The body of a handler, given the fields of the context object as they
    are when the handler is called; later reads go through [Read]. *)
Definition MiddlewareHandler : Type := RouteContext -> Handler.

Inductive Phase : Type := before | after.

Record Middleware : Type := mkMiddleware {
  mw_name : string;
  handler : MiddlewareHandler;
  phase : option Phase
}.

(** [PageConfig] is opaque to the routing core. *)
Inductive PageConfig : Type := Page (id : string).

Record RouteGroup : Type := mkGroup {
  group_middleware : option (list Middleware)
}.

(** [RouteConfig]; the [layout] fields and the nested [children] configs
    are not read by the code modelled here. *)
Record RouteConfig : Type := mkConfig {
  path : string;
  page : option PageConfig;
  middleware : option (list Middleware);
  group : option RouteGroup
}.

Record RouteMatch : Type := mkMatch {
  route : RouteConfig;
  params : RouteParams;
  score : Z
}.

#[warnings="-register-all"]
Inductive RouteNode : Type :=
| mkNode (segment : RouteSegment) (config : option RouteConfig)
         (children : list (string * RouteNode))
         (middleware : list Middleware).

Definition segment (n : RouteNode) : RouteSegment :=
  match n with mkNode s _ _ _ => s end.
Definition config (n : RouteNode) : option RouteConfig :=
  match n with mkNode _ c _ _ => c end.
Definition children (n : RouteNode) : list (string * RouteNode) :=
  match n with mkNode _ _ ch _ => ch end.
Definition node_middleware (n : RouteNode) : list Middleware :=
  match n with mkNode _ _ _ mw => mw end.

End Types.

Import Types.

(* ===================================================================== *)
(** ** routing/router.ts: the route tree and [addRoute] *)
(* ===================================================================== *)

Module Router.

(** The root created by the constructor:
    [{ segment: { type: 'static', value: '' }, children: new Map(), middleware: [] }]. *)
Definition emptyTree : RouteNode := mkNode (StaticSegment "") None [] [].

(** [segment.type === 'static' ? segment.value : segment.type] *)
Definition key (segment : RouteSegment) : string :=
  match segment with
  | StaticSegment value => value
  | _ => type segment
  end.

(** The node created for a missing child. *)
Definition newChild (segment : RouteSegment) : RouteNode :=
  mkNode segment None [] [].

(** [config.middleware] then [config.group?.middleware], each pushed when
    present. *)
Definition routeMiddleware (cfg : RouteConfig) : list Middleware :=
  match middleware cfg with Some ms => ms | None => [] end
  ++ match group cfg with
     | Some g => match group_middleware g with Some ms => ms | None => [] end
     | None => []
     end.

(** The statements after the loop, on the node the walk ended at. *)
Definition attach (cfg : RouteConfig) (current : RouteNode) : RouteNode :=
  mkNode (segment current) (Some cfg) (children current)
         (node_middleware current ++ routeMiddleware cfg).

(** The loop over the parsed segments, from node [current]: the child
    under the segment's key is looked up, created when missing (and then
    stored under that key), and the walk goes on from it. *)
Fixpoint walk (segments : list RouteSegment) (cfg : RouteConfig)
    (current : RouteNode) : RouteNode :=
  match segments with
  | [] => attach cfg current
  | seg :: rest =>
      let child :=
        match JsMap.get (key seg) (children current) with
        | Some child => child
        | None => newChild seg
        end in
      mkNode (segment current) (config current)
             (JsMap.set (key seg) (walk rest cfg child) (children current))
             (node_middleware current)
  end.

(** [addRoute(config)] on the route tree held by the router.  The call
    returns normally or throws, and in both cases leaves a tree behind:
    [parseRoute] runs first, and when it throws no node has been touched. *)
Definition addRoute (cfg : RouteConfig) (routeTree : RouteNode)
    : Result unit * RouteNode :=
  match parseRoute (path cfg) with
  | Throw e => (Throw e, routeTree)
  | Ok segments => (Ok tt, walk segments cfg routeTree)
  end.

(** Registering routes one after the other; a call that throws is
    skipped over by a caller that catches, the tree being what that call
    left. *)
Definition addRoutes (cfgs : list RouteConfig) (routeTree : RouteNode) : RouteNode :=
  fold_left (fun t cfg => snd (addRoute cfg t)) cfgs routeTree.

End Router.

(* ===================================================================== *)
(** ** routing/matcher.ts *)
(* ===================================================================== *)

Module Matcher.

(** [matchSegments(segments, node, params, score, matches)]; the array
    [matches] is threaded through and returned.  The three loops run over
    [node.children.entries()] in insertion order. *)
Fixpoint matchSegments (node : RouteNode) (segments : list string)
    (params : RouteParams) (score : Z) (matches : list RouteMatch)
    {struct node} : list RouteMatch :=
  match segments with
  | [] =>
      match config node with
      | Some cfg => matches ++ [mkMatch cfg params score]
      | None => matches
      end
  | seg :: remainingSegments =>
      let matches1 :=
        fold_left (fun acc (entry : string * RouteNode) =>
          let child := snd entry in
          match segment child with
          | StaticSegment value =>
              if String.eqb value seg
              then matchSegments child remainingSegments params (score + 100) acc
              else acc
          | _ => acc
          end) (children node) matches in
      let matches2 :=
        fold_left (fun acc (entry : string * RouteNode) =>
          let child := snd entry in
          match segment child with
          | DynamicSegment name _ =>
              matchSegments child remainingSegments
                (<[name := seg]> params) (score + 50) acc
          | _ => acc
          end) (children node) matches1 in
      fold_left (fun acc (entry : string * RouteNode) =>
        let child := snd entry in
        match segment child with
        | CatchAllSegment name =>
            matchSegments child []
              (<[name := Js.join "/" segments]> params) (score + 10) acc
        | _ => acc
        end) (children node) matches2
  end.

(** [matches.sort((a, b) => b.score - a.score)]: a stable sort by
    decreasing score, here by insertion. *)
Fixpoint insertByScore (m : RouteMatch) (sorted : list RouteMatch) : list RouteMatch :=
  match sorted with
  | [] => [m]
  | x :: rest =>
      if score x - score m <=? 0 then m :: sorted
      else x :: insertByScore m rest
  end.

Definition sortByScore (matches : list RouteMatch) : list RouteMatch :=
  fold_right insertByScore [] matches.

Definition matchRoute (pathname : string) (routeTree : RouteNode) : option RouteMatch :=
  let segments := Js.filterBoolean (Js.split "/"%char pathname) in
  let matches := matchSegments routeTree segments ∅ 0 [] in
  match matches with
  | [] => None
  | _ => head (sortByScore matches)
  end.

(** [validateMatch]: a matched route without a page is a configuration
    error. *)
Definition validateMatch (m : RouteMatch) : Result unit :=
  match page (route m) with
  | Some _ => Ok tt
  | None =>
      Throw (createError (ErrorCodes "INVALID_CONFIG")
               "Route matched but no page component found"
               (Some ("Route: " ++ path (route m)))
               (Some "Ensure the route has a page component configured"))
  end.

End Matcher.

(* ===================================================================== *)
(** ** routing/middleware.ts *)
(* ===================================================================== *)

Module MiddlewareChain.

(** What an observer sees of a run: which middleware was invoked (the
    moment [next] calls its handler) and what was written to the console. *)
Inductive Event : Type :=
| Invoked (name : string)
| Logged (line : string).

(** The mutable state of one [executeChain] call: the closure variable
    [index] and the fields of the context object, together with the
    observations made so far. *)
Record ChainState : Type := mkState {
  index : nat;
  ctx : RouteContext;
  trace : list Event
}.

(** How the promise of a call ends: it resolves, it rejects, or it never
    settles.  [OutOfFuel] is not an outcome of the program: it marks a
    call cut short by the bound on the nesting depth of [next]. *)
Inductive Outcome : Type :=
| Resolved
| Rejected (e : Thrown)
| Pending
| OutOfFuel.

(** Running a handler body against a given [next] continuation. *)
Fixpoint run (h : Handler) (next : ChainState -> Outcome * ChainState)
    (st : ChainState) : Outcome * ChainState :=
  match h with
  | Return => (Resolved, st)
  | Raise e => (Rejected e, st)
  | Console line k =>
      run k next (mkState (index st) (ctx st) (trace st ++ [Logged line]))
  | Read k => run (k (ctx st)) next st
  | Write context k => run k next (mkState (index st) context (trace st))
  | AwaitNext k handle =>
      match next st with
      | (Resolved, st') => run k next st'
      | (Rejected e, st') => run (handle e) next st'
      | (Pending, st') => (Pending, st')
      | (OutOfFuel, st') => (OutOfFuel, st')
      end
  | Never => (Pending, st)
  end.

(** The error thrown by the [catch] block of [next]. *)
Definition middlewareError (name : string) (error : Thrown) : Thrown :=
  ErrorObject
    (createError (ErrorCodes "MIDDLEWARE_ERROR")
       ("Middleware '" ++ name ++ "' failed")
       (Some (errorDetails error))
       (Some "Check middleware implementation and error handling")).

(** The closure [next] of [executeChain].  Each call that reaches a
    handler increments [index] first, so nested calls are at most
    [middlewares.length] deep: [fuel] bounds that depth. *)
Fixpoint next (fuel : nat) (middlewares : list Middleware)
    (st : ChainState) : Outcome * ChainState :=
  match nth_error middlewares (index st) with
  | None => (Resolved, st)                (* index >= middlewares.length *)
  | Some mw =>
      match fuel with
      | O => (OutOfFuel, st)
      | S fuel' =>
          let st1 := mkState (S (index st)) (ctx st)
                             (trace st ++ [Invoked (mw_name mw)]) in
          match run (handler mw (ctx st)) (next fuel' middlewares) st1 with
          | (Rejected error, st2) => (Rejected (middlewareError (mw_name mw) error), st2)
          | (out, st2) => (out, st2)
          end
      end
  end.

(** [executeChain(middlewares, context)]: [index] starts at 0.  The
    result gives the fields of the context object after the call. *)
Definition executeChain (middlewares : list Middleware) (context : RouteContext)
    (tr : list Event) : Outcome * RouteContext * list Event :=
  let '(out, st) := next (length middlewares) middlewares (mkState 0 context tr) in
  (out, ctx st, trace st).

Definition isAfter (m : Middleware) : bool :=
  match phase m with Some after => true | _ => false end.

(** [execute(context)]: the handlers whose phase is not ['after'], then
    those whose phase is ['after'], as two separate chains on the same
    context object. *)
Definition execute (middlewares : list Middleware) (context : RouteContext)
    (tr : list Event) : Outcome * RouteContext * list Event :=
  let beforeMiddlewares := List.filter (fun m => negb (isAfter m)) middlewares in
  let afterMiddlewares := List.filter isAfter middlewares in
  match executeChain beforeMiddlewares context tr with
  | (Resolved, context1, tr1) => executeChain afterMiddlewares context1 tr1
  | (out, context1, tr1) => (out, context1, tr1)
  end.

Definition add (m : Middleware) (middlewares : list Middleware) : list Middleware :=
  middlewares ++ [m].

Definition addBefore (m : Middleware) (middlewares : list Middleware) : list Middleware :=
  mkMiddleware (mw_name m) (handler m) (Some before) :: middlewares.

Definition addAfter (m : Middleware) (middlewares : list Middleware) : list Middleware :=
  middlewares ++ [mkMiddleware (mw_name m) (handler m) (Some after)].

(** The names of the middlewares invoked, in order. *)
Definition invoked (tr : list Event) : list string :=
  flat_map (fun ev => match ev with Invoked n => [n] | Logged _ => [] end) tr.

(** *** Built-in middlewares *)

(** The second line reads [context.pathname] after [next] has resolved. *)
Definition createLoggerMiddleware : Middleware :=
  mkMiddleware "logger"
    (fun context =>
       Console ("[Route] " ++ ctx_pathname context)
         (AwaitNext
            (Read (fun context' =>
               Console ("[Route] Complete: " ++ ctx_pathname context') Return))
            Raise))
    None.

(** [duration] stands for the text of the measured duration. *)
Definition createTimingMiddleware (duration : string) : Middleware :=
  mkMiddleware "timing"
    (fun context =>
       AwaitNext (Console ("[Route] Duration: " ++ duration ++ "ms") Return) Raise)
    None.

Definition createErrorBoundaryMiddleware : Middleware :=
  mkMiddleware "errorBoundary"
    (fun context =>
       AwaitNext Return
         (fun error => Console "[Route] Error:" (Raise error)))
    None.

(** The chain the [Router] constructor builds:
    [errorBoundary], [timing], [logger]. *)
Definition routerChain (duration : string) : list Middleware :=
  add createLoggerMiddleware
    (add (createTimingMiddleware duration)
       (add createErrorBoundaryMiddleware [])).

End MiddlewareChain.

(* ===================================================================== *)
(** ** data/types.ts and data/cache.ts *)
(* ===================================================================== *)

Module DataTypes.

(** The numbers that reach [ttl]: a whole number of milliseconds, or the
    [Infinity] of the ['force-cache'] strategy.  Timestamps are readings of
    [Date.now()], whole numbers as well. *)
Inductive Ttl : Type :=
| Finite (ms : Z)
| Infinity.

Inductive CacheStrategy : Type :=
| Named (strategy : string)
| Millis (ttl : Ttl).

Record CacheConfig : Type := mkCacheConfig {
  strategy : CacheStrategy;
  config_tags : option (list string)
}.

(** [CacheEntry<T>]; the payload is opaque to the cache. *)
Record CacheEntry : Type := mkEntry {
  data : string;
  timestamp : Z;
  ttl : Ttl;
  tags : list string;
  isStale : bool
}.

(** Entries are objects.  The map of the cache holds references to them,
    [set] stores the reference it is given, [get] hands out the reference
    it holds, and an assignment to a field is seen through every
    reference to the object.  The heap lists the entry objects created so
    far; a reference is the position of its object in the heap. *)
Abbreviation Ref := nat.

Abbreviation Heap := (list CacheEntry).

(** An object literal [{ data, timestamp, ttl, tags, isStale }] creates a
    new object. *)
Definition alloc (entry : CacheEntry) (h : Heap) : Ref * Heap :=
  (length h, (h ++ [entry])%list).

End DataTypes.

Module MemoryCache.

Import DataTypes.

(** The fields of a [MemoryCache], and the number of debounce timers
    armed by [queueRevalidation] that have not fired yet. *)
Record State : Type := mkCache {
  cache : list (string * Ref);
  revalidationQueue : gset string;
  isRevalidating : bool;
  timers : nat
}.

Definition empty : State := mkCache [] ∅ false 0.

(** [if (entry.ttl === 0) return false;
     return Date.now() - entry.timestamp > entry.ttl;] *)
Definition isExpired (now : Z) (entry : CacheEntry) : bool :=
  match ttl entry with
  | Finite 0 => false
  | Finite t => t <? Js.sub now (timestamp entry)
  | Infinity => false
  end.

(** [entry.ttl * 0.75] *)
Definition staleTime (t : Z) : Q := Js.timesThreeQuarters t.

(** [if (!entry.ttl) return false;
     return Date.now() - entry.timestamp > entry.ttl * 0.75;] *)
Definition isStale (now : Z) (entry : CacheEntry) : bool :=
  match ttl entry with
  | Finite 0 => false
  | Finite t =>
      negb (Qle_bool (inject_Z (Js.sub now (timestamp entry))) (staleTime t))
  | Infinity => false
  end.

(** [set(key, entry)]: the map keeps the reference. *)
Definition set (key : string) (entry : Ref) (st : State) : State :=
  mkCache (JsMap.set key entry (cache st)) (revalidationQueue st)
          (isRevalidating st) (timers st).

Definition delete (key : string) (st : State) : State :=
  mkCache (JsMap.delete key (cache st)) (revalidationQueue st)
          (isRevalidating st) (timers st).

Definition clear (st : State) : State :=
  mkCache [] (revalidationQueue st) (isRevalidating st) (timers st).

(** A key already queued is left alone; otherwise it is added and one
    more 100ms timer is armed. *)
Definition queueRevalidation (key : string) (st : State) : State :=
  if decide (key ∈ revalidationQueue st) then st
  else mkCache (cache st) ({[key]} ∪ revalidationQueue st)
               (isRevalidating st) (S (timers st)).

(** The object after [entry.isStale = true]. *)
Definition markStale (entry : CacheEntry) : CacheEntry :=
  mkEntry (data entry) (timestamp entry) (ttl entry) (tags entry) true.

(** [get(key)].  [isExpired] and [isStale] each read the clock: [now] is
    the reading of the first, [now'] the reading of the second.  The
    result is the reference held by the map; [entry.isStale = true]
    assigns to the object in the heap.  A reference always has its object:
    the case of a position outside the heap is there to make the function
    total, and reads as no entry. *)
Definition get (key : string) (now now' : Z) (h : Heap) (st : State)
    : option Ref * Heap * State :=
  match JsMap.get key (cache st) with
  | None => (None, h, st)
  | Some r =>
      match h !! r with
      | None => (None, h, st)
      | Some entry =>
          if isExpired now entry then (None, h, delete key st)
          else if isStale now' entry then
            (Some r, <[r := markStale entry]> h, queueRevalidation key st)
          else (Some r, h, st)
      end
  end.

(** [tags.some(tag => entry.tags.includes(tag))] *)
Definition hasSomeTag (ts : list string) (entry : CacheEntry) : bool :=
  existsb (fun tag => existsb (String.eqb tag) (tags entry)) ts.

(** The entries a pass goes over: all of them, or those whose object
    carries one of the given tags. *)
Definition toRevalidate (ts : option (list string)) (h : Heap)
    (entries : list (string * Ref)) : list (string * Ref) :=
  match ts with
  | Some ts =>
      List.filter
        (fun e => match h !! snd e with
                  | Some entry => hasSomeTag ts entry
                  | None => false
                  end) entries
  | None => entries
  end.

(** The per-entry callback; its refetch is a placeholder in the source
    and its only effect is [this.revalidationQueue.delete(key)]. *)
Definition revalidateEntry (q : gset string) (e : string * Ref) : gset string :=
  q ∖ {[fst e]}.

(** [revalidate(tags)] up to its [await]: with the flag set the call
    returns at once; otherwise the flag is set and the callback runs for
    every selected entry.  The result lists the keys the callback ran
    for, and tells whether the call is now suspended at the [await].  No
    entry object is assigned to. *)
Definition revalidate (ts : option (list string)) (h : Heap) (st : State)
    : State * list string * bool :=
  if isRevalidating st then (st, [], false)
  else
    let entries := cache st in
    let selected := toRevalidate ts h entries in
    (mkCache (cache st)
             (fold_left revalidateEntry selected (revalidationQueue st))
             true (timers st),
     List.map fst selected, true).

(** The rest of a suspended call: [finally { this.isRevalidating = false }]. *)
Definition revalidateSettle (st : State) : State :=
  mkCache (cache st) (revalidationQueue st) false (timers st).

(** A debounce timer fires:
    [if (this.revalidationQueue.size > 0) this.revalidate()]. *)
Definition timerFires (h : Heap) (st : State) : State * list string * bool :=
  let st' := mkCache (cache st) (revalidationQueue st) (isRevalidating st)
                     (Nat.pred (timers st)) in
  if decide (revalidationQueue st = ∅) then (st', [], false)
  else revalidate None h st'.

Definition getTTLFromStrategy (strategy : string) : Ttl :=
  if String.eqb strategy "no-cache" then Finite 0
  else if String.eqb strategy "force-cache" then Infinity
  else if String.eqb strategy "stale-while-revalidate" then Finite (60 * 1000)
  else if String.eqb strategy "revalidate-on-mount" then Finite 0
  else Finite (300 * 1000).

(** The fields of the object [createCacheEntry(data, config)] returns, at
    clock reading [now]. *)
Definition newEntry (d : string) (config : CacheConfig) (now : Z) : CacheEntry :=
  mkEntry d now
    (match strategy config with
     | Millis t => t
     | Named s => getTTLFromStrategy s
     end)
    (match config_tags config with Some ts => ts | None => [] end)
    false.

(** [createCacheEntry(data, config)]: a new object with these fields. *)
Definition createCacheEntry (d : string) (config : CacheConfig) (now : Z)
    (h : Heap) : Ref * Heap :=
  alloc (newEntry d config now) h.

End MemoryCache.

(* ===================================================================== *)
(** ** routing/router.ts: the router object *)
(* ===================================================================== *)

Module RouterRun.

(** The two fields of a [Router]. *)
Record RouterState : Type := mkRouter {
  routeTree : RouteNode;
  middlewareChain : list Middleware
}.

(** The constructor: the empty tree, and a chain holding the three
    built-in middlewares. *)
Definition new (duration : string) : RouterState :=
  mkRouter Router.emptyTree (MiddlewareChain.routerChain duration).

(** [use(middleware)] *)
Definition use (m : Middleware) (r : RouterState) : RouterState :=
  mkRouter (routeTree r) (MiddlewareChain.add m (middlewareChain r)).

(** [addRoute(config)] on the router. *)
Definition addRoute (cfg : RouteConfig) (r : RouterState) : Result unit * RouterState :=
  let '(res, t) := Router.addRoute cfg (routeTree r) in
  (res, mkRouter t (middlewareChain r)).

(** How a call to [execute] ends: it returns the context object, it
    throws an error made by [createError], it throws the [ReferenceError]
    of a read of [window] where no such global is defined, or its promise
    never settles.  [Stuck] is not an outcome of the program (see
    [MiddlewareChain.OutOfFuel]). *)
Inductive Completion : Type :=
| Returned (context : RouteContext)
| Threw (e : FullError)
| ThrewReferenceError
| NeverSettles
| Stuck.

Definition routeNotFound (pathname : string) : FullError :=
  createError (ErrorCodes "ROUTE_NOT_FOUND") ("No route found for path: " ++ pathname)
    None (Some "Check the route configuration and URL").

Definition routeExecutionFailed (error : Thrown) : FullError :=
  createError (ErrorCodes "ROUTE_EXECUTION_FAILED") "Route execution failed"
    (Some (errorDetails error))
    (Some "Check route configuration and middleware chain").

(** [execute(pathname)].  [window] is [window.location.search], [None]
    where the global [window] is not defined; the read is outside the
    [try] block.  The chain that runs is the router's own
    [middlewareChain], and what is returned is the context object as the
    chain has left it. *)
Definition execute (pathname : string) (window : option string) (r : RouterState)
    (tr : list MiddlewareChain.Event) : Completion * list MiddlewareChain.Event :=
  match Matcher.matchRoute pathname (routeTree r) with
  | None => (Threw (routeNotFound pathname), tr)
  | Some m =>
      match Matcher.validateMatch m with
      | Throw e => (Threw e, tr)
      | Ok _ =>
          match window with
          | None => (ThrewReferenceError, tr)
          | Some search =>
              let context := mkContext (params m) search pathname None in
              match MiddlewareChain.execute (middlewareChain r) context tr with
              | (MiddlewareChain.Resolved, context', tr') => (Returned context', tr')
              | (MiddlewareChain.Rejected error, _, tr') =>
                  (Threw (routeExecutionFailed error), tr')
              | (MiddlewareChain.Pending, _, tr') => (NeverSettles, tr')
              | (MiddlewareChain.OutOfFuel, _, tr') => (Stuck, tr')
              end
          end
      end
  end.

(** [group(options, routes)]: every route gets [group: options] and
    [middleware: [...(options?.middleware || []), ...(route.middleware || [])]]. *)
Definition group (options : option RouteGroup) (routes : list RouteConfig)
    : list RouteConfig :=
  List.map (fun route =>
    mkConfig (path route) (page route)
      (Some ((match options with
              | Some o => match group_middleware o with Some ms => ms | None => [] end
              | None => []
              end)
             ++ (match middleware route with Some ms => ms | None => [] end))%list)
      options) routes.

End RouterRun.

(* ===================================================================== *)
(** ** data/manager.ts: [DataManager.fetch] and [DataManager.mutate] *)
(* ===================================================================== *)

Module DataManager.
Import DataTypes.

(** What one call of [fetcher.fetch()] does: it resolves with data or it
    rejects. *)
Inductive FetchOutcome : Type :=
| Fetched (d : string)
| FetchFailed (e : Thrown).

Record DataFetcher : Type := mkFetcher {
  fetch_outcome : FetchOutcome;
  validate : option (string -> bool)
}.

(** [RealtimeConfig], as far as [fetch] reads it. *)
Record RealtimeConfig : Type := mkRealtime {
  rt_enabled : bool;
  rt_channel : option string
}.

(** [DataOptions]; of [state] only its presence matters to [fetch]. *)
Record DataOptions : Type := mkOptions {
  opt_cache : option CacheConfig;
  opt_realtime : option RealtimeConfig;
  opt_state : bool
}.

(** The collaborators [fetch] calls into, the realtime manager and the
    state manager, are outside the cache: of each call only whether it
    returns or throws is of interest here. *)
Record Collaborators : Type := mkCollaborators {
  subscribe_throws : string -> option Thrown;
  stateSet_throws : string -> string -> option Thrown
}.

(** What the manager is seen doing to the outside. *)
Inductive Effect : Type :=
| CalledFetcher (key : string)
| Subscribed (channel : string)
| StateSet (key : string) (d : string)
| CalledMutation (current : option string)
| CalledOnSuccess (result : string)
| CalledOnError (details : string).

(** The manager: its cache, its fetcher registry, and whether
    [initializeRealtime] has created a realtime manager. *)
Record Manager : Type := mkManager {
  cache : MemoryCache.State;
  fetchers : list (string * DataFetcher);
  realtime : bool
}.

Definition withCache (dm : Manager) (c : MemoryCache.State) : Manager :=
  mkManager c (fetchers dm) (realtime dm).

(** [registerFetcher(fetcher)], the fetcher's key given apart. *)
Definition registerFetcher (key : string) (f : DataFetcher) (dm : Manager) : Manager :=
  mkManager (cache dm) (JsMap.set key f (fetchers dm)) (realtime dm).

Inductive Completion (A : Type) : Type :=
| Returned (a : A)
| ThrewError (e : FullError)
| ThrewValue (e : Thrown).
Arguments Returned {A} a.
Arguments ThrewError {A} e.
Arguments ThrewValue {A} e.

Definition fetcherNotFound (key : string) : FullError :=
  createError (ErrorCodes "FETCHER_NOT_FOUND")
    ("No fetcher registered for key: " ++ key)
    None (Some "Register a fetcher before attempting to fetch data").

Definition validationMessage (key : string) : string :=
  "Data validation failed for key: " ++ key.

(** The error thrown inside the [try] block when [validate] refuses the
    data; the [catch] block of [fetch] turns it into [fetchFailed]. *)
Definition validationFailed (key : string) : FullError :=
  createError (ErrorCodes "DATA_VALIDATION_FAILED") (validationMessage key)
    None (Some "Check the data structure and validation rules").

(** The error thrown by the [catch] block of [fetch]; [details] is the
    message of what was caught. *)
Definition fetchFailed (key : string) (details : string) : FullError :=
  createError (ErrorCodes "DATA_FETCH_FAILED")
    ("Failed to fetch data for key: " ++ key)
    (Some details) (Some "Check network connectivity and server status").

(** [typeof strategy === 'number' ? strategy : 300000] *)
Definition fetchTtl (config : CacheConfig) : Ttl :=
  match strategy config with
  | Millis t => t
  | Named _ => Finite 300000
  end.

(** The fields of the object [fetch] stores. *)
Definition fetchedEntry (d : string) (config : CacheConfig) (now : Z) : CacheEntry :=
  mkEntry d now (fetchTtl config)
    (match config_tags config with Some ts => ts | None => [] end) false.

(** [config.channel || key] *)
Definition channelOf (key : string) (config : RealtimeConfig) : string :=
  match rt_channel config with
  | Some c => if Js.truthy c then c else key
  | None => key
  end.

(** [const cached = this.cache.get(key); cached && !cached.isStale]:
    the data of the entry when the read returns one whose flag is clear
    after the read. *)
Definition freshData (cached : option Ref) (h : Heap) : option string :=
  match cached with
  | Some r =>
      match h !! r with
      | Some entry => if isStale entry then None else Some (data entry)
      | None => None
      end
  | None => None
  end.

(** [fetch(key, options)].  [now] and [now'] are the two clock readings of
    the read of the cache and [later] is the clock when the fetched data
    is stored.  The result of [createResult(data)] is represented by
    [data]. *)
Definition fetch (key : string) (options : DataOptions) (now now' later : Z)
    (env : Collaborators) (h : Heap) (dm : Manager)
    : Completion string * Heap * Manager * list Effect :=
  match JsMap.get key (fetchers dm) with
  | None => (ThrewError (fetcherNotFound key), h, dm, [])
  | Some fetcher =>
      let '(hit, h1, c1) :=
        match opt_cache options with
        | Some _ =>
            let '(cached, h1, c1) := MemoryCache.get key now now' h (cache dm) in
            (freshData cached h1, h1, c1)
        | None => (None, h, cache dm)
        end in
      match hit with
      | Some d => (Returned d, h1, withCache dm c1, [])
      | None =>
          match fetch_outcome fetcher with
          | FetchFailed e =>
              (ThrewError (fetchFailed key (errorDetails e)), h1, withCache dm c1,
               [CalledFetcher key])
          | Fetched d =>
              let valid :=
                match validate fetcher with
                | Some check => check d
                | None => true
                end in
              if negb valid then
                (ThrewError
                   (fetchFailed key (errorDetails (ErrorObject (validationFailed key)))),
                 h1, withCache dm c1, [CalledFetcher key])
              else
                let '(h2, c2) :=
                  match opt_cache options with
                  | Some config =>
                      let '(r, h2) := alloc (fetchedEntry d config later) h1 in
                      (h2, MemoryCache.set key r c1)
                  | None => (h1, c1)
                  end in
                let subscription :=
                  match opt_realtime options with
                  | Some config =>
                      if realtime dm && rt_enabled config
                      then Some (channelOf key config)
                      else None
                  | None => None
                  end in
                let afterSubscribe :=
                  match subscription with
                  | Some channel =>
                      (subscribe_throws env channel, [CalledFetcher key; Subscribed channel])
                  | None => (None, [CalledFetcher key])
                  end in
                match afterSubscribe with
                | (Some e, effects) =>
                    (ThrewError (fetchFailed key (errorDetails e)), h2, withCache dm c2,
                     effects)
                | (None, effects) =>
                    if opt_state options then
                      match stateSet_throws env key d with
                      | Some e =>
                          (ThrewError (fetchFailed key (errorDetails e)), h2,
                           withCache dm c2, (effects ++ [StateSet key d])%list)
                      | None =>
                          (Returned d, h2, withCache dm c2,
                           (effects ++ [StateSet key d])%list)
                      end
                    else (Returned d, h2, withCache dm c2, effects)
                end
          end
      end
  end.

(** What [mutationFn] and the two optional callbacks do when called. *)
Inductive MutationOutcome : Type :=
| Mutated (result : string)
| MutationFailed (e : Thrown).

(** [MutationOptions]; [optimisticUpdate] is a function on the data, the
    callbacks are given by whether they return or throw. *)
Record MutationOptions : Type := mkMutation {
  optimisticUpdate : option (string -> string);
  rollbackOnError : bool;
  onSuccess : option (string -> option Thrown);
  onError : option (string -> option Thrown);
  revalidate : bool
}.

(** The fields of the object written by the optimistic update and by the
    rollback: [{ data, timestamp: Date.now(), ttl: 0, tags: [], isStale: true }]. *)
Definition provisionalEntry (d : string) (now : Z) : CacheEntry :=
  mkEntry d now (Finite 0) [] true.

(** [this.cache.set(key, { ... })] with a new object. *)
Definition storeNew (key : string) (entry : CacheEntry) (h : Heap)
    (c : MemoryCache.State) : Heap * MemoryCache.State :=
  let '(r, h') := alloc entry h in (h', MemoryCache.set key r c).

(** [await this.cache.revalidate([key])], nothing else running meanwhile:
    the pass, if one starts, settles before [mutate] goes on. *)
Definition awaitRevalidate (key : string) (h : Heap) (c : MemoryCache.State)
    : MemoryCache.State :=
  let '(c1, _, suspended) := MemoryCache.revalidate (Some [key]) h c in
  if suspended then MemoryCache.revalidateSettle c1 else c1.

(** The [catch] block of [mutate]: rollback, [onError], and the error is
    thrown again. *)
Definition mutateCatch (key : string) (options : MutationOptions)
    (currentData : option string) (rollbackTime : Z) (error : Thrown)
    (h : Heap) (c : MemoryCache.State) (effects : list Effect)
    : Completion string * Heap * MemoryCache.State * list Effect :=
  let '(h', c') :=
    match currentData with
    | Some d =>
        if rollbackOnError options && Js.truthy d
        then storeNew key (provisionalEntry d rollbackTime) h c
        else (h, c)
    | None => (h, c)
    end in
  match onError options with
  | Some callback =>
      match callback (errorDetails error) with
      | Some thrown =>
          (ThrewValue thrown, h', c', (effects ++ [CalledOnError (errorDetails error)])%list)
      | None =>
          (ThrewValue error, h', c', (effects ++ [CalledOnError (errorDetails error)])%list)
      end
  | None => (ThrewValue error, h', c', effects)
  end.

(** [this.cache.get(key)?.data] *)
Definition dataOf (cached : option Ref) (h : Heap) : option string :=
  match cached with
  | Some r => option_map data (h !! r)
  | None => None
  end.

(** [mutate(key, mutationFn, options)].  [now] and [now'] are the two
    clock readings of the read of the cache, [updateTime] is the clock when
    the optimistic entry is written and [rollbackTime] when the rollback
    entry is. *)
Definition mutate (key : string) (mutationFn : option string -> MutationOutcome)
    (options : MutationOptions) (now now' updateTime rollbackTime : Z)
    (h : Heap) (dm : Manager)
    : Completion string * Heap * Manager * list Effect :=
  let '(cached, h0, c0) := MemoryCache.get key now now' h (cache dm) in
  let currentData := dataOf cached h0 in
  let '(h1, c1) :=
    match optimisticUpdate options, currentData with
    | Some update, Some d =>
        if Js.truthy d
        then storeNew key (provisionalEntry (update d) updateTime) h0 c0
        else (h0, c0)
    | _, _ => (h0, c0)
    end in
  let finish (r : Completion string * Heap * MemoryCache.State * list Effect) :=
    let '(res, h', c, effects) := r in (res, h', withCache dm c, effects) in
  match mutationFn currentData with
  | MutationFailed e =>
      finish (mutateCatch key options currentData rollbackTime e h1 c1
                [CalledMutation currentData])
  | Mutated result =>
      let afterSuccess :=
        match onSuccess options with
        | Some callback => (callback result, [CalledMutation currentData; CalledOnSuccess result])
        | None => (None, [CalledMutation currentData])
        end in
      match afterSuccess with
      | (Some e, effects) =>
          finish (mutateCatch key options currentData rollbackTime e h1 c1 effects)
      | (None, effects) =>
          let c2 := if revalidate options then awaitRevalidate key h1 c1 else c1 in
          (Returned result, h1, withCache dm c2, effects)
      end
  end.

End DataManager.

(* ===================================================================== *)
(** ** Vocabulary of the statements *)
(* ===================================================================== *)

Module Spec.
Import MiddlewareChain.

(** A continuation is safe from index [i] on when, called with an index
    of at least [i], it returns without exhausting its fuel and never
    moves the index backwards. *)
Definition safeFrom (i : nat) (nxt : ChainState -> Outcome * ChainState) : Prop :=
  forall st, (i <= index st)%nat ->
    fst (nxt st) <> OutOfFuel /\ (index st <= index (snd (nxt st)))%nat.

(** [async (context, next) => { await next(); }] *)
Definition passThrough : MiddlewareHandler := fun _ => AwaitNext Return Raise.

(** [async (context, next) => { }]: returns without calling [next]. *)
Definition halting : MiddlewareHandler := fun _ => Return.

(** [async (context, next) => { throw e; }] *)
Definition throwing (e : Thrown) : MiddlewareHandler := fun _ => Raise e.

(** A handler body that never awaits [next]. *)
Fixpoint withoutNext (h : Handler) : Prop :=
  match h with
  | Return => True
  | Raise _ => True
  | Console _ k => withoutNext k
  | Read k => forall context, withoutNext (k context)
  | Write _ k => withoutNext k
  | AwaitNext _ _ => False
  | Never => True
  end.

(** A handler body that awaits nothing but [next]: left to itself it
    settles. *)
Fixpoint settles (h : Handler) : Prop :=
  match h with
  | Return => True
  | Raise _ => True
  | Console _ k => settles k
  | Read k => forall context, settles (k context)
  | Write _ k => settles k
  | AwaitNext k handle => settles k /\ forall e, settles (handle e)
  | Never => False
  end.

(** A handler body that never assigns to the context object. *)
Fixpoint readOnly (h : Handler) : Prop :=
  match h with
  | Return => True
  | Raise _ => True
  | Console _ k => readOnly k
  | Read k => forall context, readOnly (k context)
  | Write _ _ => False
  | AwaitNext k handle => readOnly k /\ forall e, readOnly (handle e)
  | Never => True
  end.

(** The error [e] wrapped once per name, outermost name first. *)
Definition wrapped (names : list string) (e : Thrown) : Thrown :=
  fold_right middlewareError e names.

(** No closing bracket among the characters of [s]. *)
Fixpoint bracketFree (s : string) : bool :=
  match s with
  | EmptyString => true
  | String c s' => negb (Ascii.eqb c rbr) && bracketFree s'
  end.

(** A context for the examples. *)
Definition someContext : RouteContext := mkContext ∅ "" "/" None.

(** [new Error(msg)] *)
Definition plainError (msg : string) : Thrown :=
  ErrorObject (mkError None msg None None).

End Spec.

Import Spec.

Module TreeSpec.
Import Router.

(** [inTree n t]: [n] is [t] or one of its descendants. *)
Inductive inTree (n : RouteNode) : RouteNode -> Prop :=
| inTree_here : inTree n n
| inTree_child (t : RouteNode) (k : string) (c : RouteNode) :
    In (k, c) (children t) -> inTree n c -> inTree n t.

(** The shape [addRoute] maintains: in every node the children have
    distinct keys, and each child sits under the key of its own segment. *)
#[warnings="-register-all"]
Inductive keyed : RouteNode -> Prop :=
| keyed_node (s : RouteSegment) (c : option RouteConfig)
    (ch : list (string * RouteNode)) (mw : list Middleware) :
    NoDup (JsMap.keys ch) ->
    Forall (fun kc => key (segment (snd kc)) = fst kc) ch ->
    Forall (fun kc => keyed (snd kc)) ch ->
    keyed (mkNode s c ch mw).

(** The children of [n] whose segment has the type tag [ty]. *)
Definition childrenOfType (ty : string) (n : RouteNode) : list (string * RouteNode) :=
  List.filter (fun kc => String.eqb (type (segment (snd kc))) ty) (children n).

(** The node reached from [t] along a path of keys. *)
Fixpoint nodeAt (ks : list string) (t : RouteNode) : option RouteNode :=
  match ks with
  | [] => Some t
  | k :: ks' =>
      match JsMap.get k (children t) with
      | Some c => nodeAt ks' c
      | None => None
      end
  end.

(** The configuration attached at the end of a path of keys, if any. *)
Definition configAt (ks : list string) (t : RouteNode) : option RouteConfig :=
  match nodeAt ks t with
  | Some n => config n
  | None => None
  end.

(** The node on which the loop of [addRoute] ends, before the
    configuration is attached: existing children are followed, missing
    ones are the fresh nodes the loop creates. *)
Fixpoint landing (segs : list RouteSegment) (current : RouteNode) : RouteNode :=
  match segs with
  | [] => current
  | seg :: rest =>
      landing rest
        (match JsMap.get (key seg) (children current) with
         | Some child => child
         | None => newChild seg
         end)
  end.


(** The candidates of the matcher, as a relation: [candidate node segments
    params score m] when a branch from [node] consumes [segments] and ends
    on a configured node, producing the match [m]. *)
Inductive candidate : RouteNode -> list string -> RouteParams -> Z -> RouteMatch -> Prop :=
| candidate_end (node : RouteNode) (params : RouteParams) (score : Z) (cfg : RouteConfig) :
    config node = Some cfg ->
    candidate node [] params score (mkMatch cfg params score)
| candidate_static (node : RouteNode) (seg : string) (rest : list string)
    (params : RouteParams) (score : Z) (k : string) (child : RouteNode) (m : RouteMatch) :
    In (k, child) (children node) ->
    segment child = StaticSegment seg ->
    candidate child rest params (score + 100) m ->
    candidate node (seg :: rest) params score m
| candidate_dynamic (node : RouteNode) (seg : string) (rest : list string)
    (params : RouteParams) (score : Z) (k : string) (child : RouteNode)
    (name : string) (pat : option string) (m : RouteMatch) :
    In (k, child) (children node) ->
    segment child = DynamicSegment name pat ->
    candidate child rest (<[name := seg]> params) (score + 50) m ->
    candidate node (seg :: rest) params score m
| candidate_catchAll (node : RouteNode) (seg : string) (rest : list string)
    (params : RouteParams) (score : Z) (k : string) (child : RouteNode)
    (name : string) (m : RouteMatch) :
    In (k, child) (children node) ->
    segment child = CatchAllSegment name ->
    candidate child [] (<[name := Js.join "/" (seg :: rest)]> params) (score + 10) m ->
    candidate node (seg :: rest) params score m.

(** The node reached from [t] along static children with the given
    values. *)
Fixpoint staticAt (vs : list string) (t : RouteNode) : option RouteNode :=
  match vs with
  | [] => Some t
  | v :: vs' =>
      match JsMap.get v (children t) with
      | Some c =>
          match segment c with
          | StaticSegment _ => staticAt vs' c
          | _ => None
          end
      | None => None
      end
  end.

(** The three bodies of the loops of [matchSegments], for one child and an
    empty accumulator. *)
Definition staticStep (seg : string) (rest : list string) (params : RouteParams)
    (score : Z) (entry : string * RouteNode) : list RouteMatch :=
  match segment (snd entry) with
  | StaticSegment value =>
      if String.eqb value seg
      then Matcher.matchSegments (snd entry) rest params (score + 100) []
      else []
  | _ => []
  end.

Definition dynamicStep (seg : string) (rest : list string) (params : RouteParams)
    (score : Z) (entry : string * RouteNode) : list RouteMatch :=
  match segment (snd entry) with
  | DynamicSegment name _ =>
      Matcher.matchSegments (snd entry) rest (<[name := seg]> params) (score + 50) []
  | _ => []
  end.

Definition catchAllStep (segments : list string) (params : RouteParams)
    (score : Z) (entry : string * RouteNode) : list RouteMatch :=
  match segment (snd entry) with
  | CatchAllSegment name =>
      Matcher.matchSegments (snd entry) []
        (<[name := Js.join "/" segments]> params) (score + 10) []
  | _ => []
  end.

(** The type tags under which non-static children are stored. *)
Definition typeTags : list string := ["dynamic"; "optional"; "catchAll"].

End TreeSpec.

Import TreeSpec.

(** The cache together with the calls to [revalidate] that are suspended
    at their [await], and the events that can happen to it. *)
Module CacheSystem.
Import DataTypes.

Record System : Type := mkSystem {
  heap : Heap;
  mem : MemoryCache.State;
  inFlight : nat
}.

(** What can happen: the calls of the cache, a timer firing, a suspended
    pass settling, and what the callers do with entry objects, which is
    to create one and to assign to one they hold. *)
Inductive Op : Type :=
| OpGet (key : string) (now now' : Z)
| OpCreate (entry : CacheEntry)
| OpAssign (r : Ref) (entry : CacheEntry)
| OpSet (key : string) (r : Ref)
| OpDelete (key : string)
| OpClear
| OpRevalidate (ts : option (list string))
| OpSettle
| OpTimer.

Definition started (h : Heap) (r : MemoryCache.State * list string * bool) (n : nat)
    : System :=
  let '(st, _, suspended) := r in
  mkSystem h st (if suspended then S n else n).

(** One event.  A suspended call can settle only if there is one. *)
Definition perform (sys : System) (op : Op) : System :=
  match op with
  | OpGet key now now' =>
      let '(_, h, st) := MemoryCache.get key now now' (heap sys) (mem sys) in
      mkSystem h st (inFlight sys)
  | OpCreate entry => mkSystem (snd (alloc entry (heap sys))) (mem sys) (inFlight sys)
  | OpAssign r entry => mkSystem (<[r := entry]> (heap sys)) (mem sys) (inFlight sys)
  | OpSet key r => mkSystem (heap sys) (MemoryCache.set key r (mem sys)) (inFlight sys)
  | OpDelete key => mkSystem (heap sys) (MemoryCache.delete key (mem sys)) (inFlight sys)
  | OpClear => mkSystem (heap sys) (MemoryCache.clear (mem sys)) (inFlight sys)
  | OpRevalidate ts =>
      started (heap sys) (MemoryCache.revalidate ts (heap sys) (mem sys)) (inFlight sys)
  | OpSettle =>
      match inFlight sys with
      | O => sys
      | S n => mkSystem (heap sys) (MemoryCache.revalidateSettle (mem sys)) n
      end
  | OpTimer =>
      started (heap sys) (MemoryCache.timerFires (heap sys) (mem sys)) (inFlight sys)
  end.

Definition initial : System := mkSystem [] MemoryCache.empty 0.

(** The states of a cache that starts empty. *)
Definition reachable (sys : System) : Prop :=
  exists ops, sys = fold_left perform ops initial.

(** The flag is set exactly while one call is suspended. *)
Definition flagCounts (sys : System) : Prop :=
  (inFlight sys <= 1)%nat
  /\ (MemoryCache.isRevalidating (mem sys) = true <-> inFlight sys = 1%nat).

End CacheSystem.

(** Vocabulary for the parser and for single routes. *)
Module RouteSpec.

(** The components [parseRoute] and [matchRoute] work on. *)
Definition segments (p : string) : list string :=
  Js.filterBoolean (Js.split "/"%char p).

(** A name [validateSegmentName] accepts. *)
Definition validName (name : string) : bool :=
  Js.truthy name && negb (Js.testNonWord name).

(** Whether the first character of [s], if any, differs from [c]. *)
Definition notStartingWith (c : ascii) (s : string) : bool :=
  match s with
  | EmptyString => true
  | String d _ => negb (Ascii.eqb d c)
  end.

(** What a parsed segment must look like, given the component it came
    from. *)
Definition parsedFrom (component : string) (seg : RouteSegment) : Prop :=
  match seg with
  | StaticSegment v => v = component
  | DynamicSegment n pat => validName n = true /\ pat = None
  | CatchAllSegment n => validName n = true
  | OptionalSegment n pat => validName n = true /\ pat = None
  end.

(** Matching a path against one pattern, segment by segment: the
    parameters bound and the score, if the path conforms. *)
Fixpoint bindRoute (segs : list RouteSegment) (pathSegments : list string)
    (params : RouteParams) (score : Z) : option (RouteParams * Z) :=
  match segs with
  | [] =>
      match pathSegments with
      | [] => Some (params, score)
      | _ :: _ => None
      end
  | seg :: rest =>
      match pathSegments with
      | [] => None
      | x :: remaining =>
          match seg with
          | StaticSegment v =>
              if String.eqb v x then bindRoute rest remaining params (score + 100)
              else None
          | DynamicSegment n _ =>
              bindRoute rest remaining (<[n := x]> params) (score + 50)
          | CatchAllSegment n =>
              match rest with
              | [] => Some (<[n := Js.join "/" pathSegments]> params, score + 10)
              | _ :: _ => None
              end
          | OptionalSegment _ _ => None
          end
      end
  end.

End RouteSpec.

Import RouteSpec.

(** Vocabulary for runs of a chain. *)
Module ChainSpec.
Import MiddlewareChain.

(** Relative to the names [base] invoked before the chain started: the
    middlewares invoked so far are the first [index] ones of the chain, in
    order. *)
Definition inOrder (middlewares : list Middleware) (base : list string)
    (st : ChainState) : Prop :=
  (index st <= length middlewares)%nat
  /\ invoked (trace st) = (base ++ List.map mw_name (firstn (index st) middlewares))%list.

(** The trace of [st'] continues the trace of [st]. *)
Definition extends (st st' : ChainState) : Prop :=
  exists more, trace st' = (trace st ++ more)%list.

(** The handlers of the phase that is not ['after'], and of the phase
    ['after']. *)
Definition beforePhase (middlewares : list Middleware) : list Middleware :=
  List.filter (fun m => negb (isAfter m)) middlewares.

Definition afterPhase (middlewares : list Middleware) : list Middleware :=
  List.filter isAfter middlewares.

End ChainSpec.

Import ChainSpec.

(* ===================================================================== *)
(** * Properties *)
(* ===================================================================== *)

(** ** The middleware chain always returns *)

Section ChainTermination.
Import MiddlewareChain.

Variable middlewares : list Middleware.

Lemma nth_error_Some_lt {A} (l : list A) (n : nat) (x : A) :
  nth_error l n = Some x -> (n < length l)%nat.
Proof. intros H. apply nth_error_Some. congruence. Qed.

Lemma run_safe (i : nat) (nxt : ChainState -> Outcome * ChainState) :
  safeFrom i nxt -> forall h, safeFrom i (run h nxt).
Proof.
  intros Hn h.
  induction h as [| e | line k IH | k IH | c k IH | k IHk handle IHh |];
    intros st Hi; simpl.
  - split; [discriminate | lia].
  - split; [discriminate | lia].
  - destruct (IH (mkState (index st) (ctx st) (trace st ++ [Logged line])) Hi) as [H1 H2].
    split; [exact H1 | exact H2].
  - apply (IH (ctx st) st Hi).
  - destruct (IH (mkState (index st) c (trace st)) Hi) as [H1 H2].
    split; [exact H1 | exact H2].
  - destruct (Hn st Hi) as [H1 H2].
    destruct (nxt st) as [[| e | |] st'] eqn:E; simpl in *.
    + destruct (IHk st') as [H3 H4]; [lia |]. split; [exact H3 | lia].
    + destruct (IHh e st') as [H3 H4]; [lia |]. split; [exact H3 | lia].
    + split; [discriminate | lia].
    + congruence.
  - split; [discriminate | lia].
Qed.

Lemma next_safe (fuel : nat) :
  forall i, (length middlewares - i <= fuel)%nat ->
    safeFrom i (next fuel middlewares).
Proof.
  induction fuel as [| fuel IH]; intros i Hfuel st Hi.
  - simpl. destruct (nth_error middlewares (index st)) eqn:E.
    + apply nth_error_Some_lt in E. lia.
    + split; [discriminate | simpl; lia].
  - simpl. destruct (nth_error middlewares (index st)) as [mw |] eqn:E.
    + assert (Hs : safeFrom (S (index st)) (next fuel middlewares)).
      { apply IH. apply nth_error_Some_lt in E. lia. }
      pose proof (run_safe _ _ Hs (handler mw (ctx st))
                    (mkState (S (index st)) (ctx st)
                       (trace st ++ [Invoked (mw_name mw)]))) as Hr.
      simpl in Hr. specialize (Hr (le_n _)).
      destruct (run _ _ _) as [[| e | |] st2]; simpl in *;
        (split; [try discriminate; tauto | lia]).
    + split; [discriminate | simpl; lia].
Qed.

(** A chain of handlers that settle, run against a continuation that
    settles, settles. *)
Lemma run_settles (nxt : ChainState -> Outcome * ChainState) :
  (forall st, fst (nxt st) <> Pending) ->
  forall h, settles h -> forall st, fst (run h nxt st) <> Pending.
Proof.
  intros Hn h.
  induction h as [| e | line k IH | k IH | c k IH | k IHk handle IHh |];
    intros Hs st; simpl in *.
  - discriminate.
  - discriminate.
  - apply IH. exact Hs.
  - apply IH. apply Hs.
  - apply IH. exact Hs.
  - destruct Hs as [Hk Hh]. specialize (Hn st).
    destruct (nxt st) as [[| e | |] st']; simpl in *.
    + apply IHk. exact Hk.
    + apply IHh. apply Hh.
    + congruence.
    + discriminate.
  - destruct Hs.
Qed.

Lemma next_settles (fuel : nat) :
  (forall m context, In m middlewares -> settles (handler m context)) ->
  forall st, fst (next fuel middlewares st) <> Pending.
Proof.
  intros Hall. induction fuel as [| fuel IH]; intros st; simpl.
  - destruct (nth_error middlewares (index st)); discriminate.
  - destruct (nth_error middlewares (index st)) as [mw |] eqn:E; [| discriminate].
    pose proof (run_settles _ IH (handler mw (ctx st))
                  (Hall mw (ctx st) (nth_error_In _ _ E))
                  (mkState (S (index st)) (ctx st)
                     (trace st ++ [Invoked (mw_name mw)]))) as Hr.
    destruct (run _ _ _) as [[| e | |] st2]; simpl in *; congruence.
Qed.

End ChainTermination.

(** [executeChain] and [execute] never run out of fuel: every handler body
    is finite and each nested [next] advances [index]. *)
Lemma executeChain_returns middlewares context tr :
  fst (fst (MiddlewareChain.executeChain middlewares context tr))
  <> MiddlewareChain.OutOfFuel.
Proof.
  unfold MiddlewareChain.executeChain.
  pose proof (next_safe middlewares (length middlewares) 0%nat
                ltac:(lia) (MiddlewareChain.mkState 0 context tr)) as H.
  simpl in H. specialize (H (le_n _)).
  destruct (MiddlewareChain.next _ _ _) as [out st]. simpl in *. tauto.
Qed.

Lemma execute_returns middlewares context tr :
  fst (fst (MiddlewareChain.execute middlewares context tr))
  <> MiddlewareChain.OutOfFuel.
Proof.
  unfold MiddlewareChain.execute.
  pose proof (executeChain_returns
                (List.filter (fun m => negb (MiddlewareChain.isAfter m)) middlewares)
                context tr) as H1.
  destruct (MiddlewareChain.executeChain _ context tr) as [[[| e | |] context1] tr1];
    simpl in *.
  - apply executeChain_returns.
  - discriminate.
  - discriminate.
  - congruence.
Qed.

Lemma executeChain_settles middlewares context tr :
  (forall m c, In m middlewares -> settles (handler m c)) ->
  fst (fst (MiddlewareChain.executeChain middlewares context tr))
  <> MiddlewareChain.Pending.
Proof.
  intros Hall. unfold MiddlewareChain.executeChain.
  pose proof (next_settles middlewares (length middlewares) Hall
                (MiddlewareChain.mkState 0 context tr)) as H.
  destruct (MiddlewareChain.next _ _ _) as [out st]. exact H.
Qed.

Lemma execute_settles middlewares context tr :
  (forall m c, In m middlewares -> settles (handler m c)) ->
  fst (fst (MiddlewareChain.execute middlewares context tr))
  <> MiddlewareChain.Pending.
Proof.
  intros Hall. unfold MiddlewareChain.execute.
  assert (Hsub : forall f m c, In m (List.filter f middlewares) -> settles (handler m c)).
  { intros f m c Hin. apply Hall. apply filter_In in Hin. tauto. }
  pose proof (executeChain_settles _ context tr
                (Hsub (fun m => negb (MiddlewareChain.isAfter m)))) as H1.
  destruct (MiddlewareChain.executeChain _ context tr) as [[[| e | |] context1] tr1];
    simpl in *.
  - apply executeChain_settles. apply Hsub.
  - discriminate.
  - congruence.
  - discriminate.
Qed.

(* ===================================================================== *)
(** ** Catch-all patterns *)
(* ===================================================================== *)

Section CatchAll.
Import Router Matcher.

(** The pattern [[[...rest]]] is taken by the catch-all expression with
    the three dots inside the captured name, which the name check then
    refuses. *)
Lemma parseSegment_dots :
  parseSegment "[[...rest]]" = Throw (invalidName "...rest").
Proof. reflexivity. Qed.

(** Without the dots the same brackets give a catch-all segment, and the
    matcher binds it to the rest of the path. *)
Lemma catchAll_without_dots page mw grp :
  let cfg := mkConfig "/files/[[rest]]" page mw grp in
  parseRoute (path cfg) = Ok [StaticSegment "files"; CatchAllSegment "rest"]
  /\ matchRoute "/files/a/b/c" (snd (addRoute cfg emptyTree))
     = Some (mkMatch cfg {[ "rest" := "a/b/c" ]} 110).
Proof. split; reflexivity. Qed.

End CatchAll.

(** C1: registering the pattern [/files/[[...rest]]] does not succeed:
    whatever the tree and the rest of the configuration, [addRoute] throws
    the invalid-name error for the name [...rest] and leaves the tree as it
    was, so that on the router's initial tree [/files/a/b/c] still has no
    match. *)
Theorem C1_catch_all_dots_rejected :
  forall page mw grp routeTree,
    Router.addRoute (mkConfig "/files/[[...rest]]" page mw grp) routeTree
    = (Throw (invalidName "...rest"), routeTree)
    /\ Matcher.matchRoute "/files/a/b/c"
         (snd (Router.addRoute (mkConfig "/files/[[...rest]]" page mw grp)
                 Router.emptyTree)) = None.
Proof. intros. split; reflexivity. Qed.

(* ===================================================================== *)
(** ** Order of the chain, halting and failing handlers *)
(* ===================================================================== *)

Section ChainOrder.
Import MiddlewareChain.

(** A prefix of handlers that all await [next], followed by one that
    throws: every handler of the prefix is invoked, then the thrower, and
    the error is wrapped once by each of them on the way out. *)
Lemma next_prefix_then_throw (context : RouteContext) (x : Middleware) (e : Thrown)
    (rest : list Middleware) :
  handler x context = Raise e ->
  forall (pre seen : list Middleware) (fuel : nat) (tr : list Event),
    Forall (fun m => handler m context = AwaitNext Return Raise) pre ->
    (length pre < fuel)%nat ->
    next fuel (seen ++ pre ++ x :: rest) (mkState (length seen) context tr)
    = (Rejected (wrapped (List.map mw_name pre) (middlewareError (mw_name x) e)),
       mkState (length seen + length pre + 1) context
               (tr ++ List.map Invoked (List.map mw_name pre ++ [mw_name x]))).
Proof.
  intros Hx pre. induction pre as [| m pre IH]; intros seen fuel tr Hpre Hfuel.
  - destruct fuel as [| fuel]; [simpl in Hfuel; lia |].
    simpl. rewrite nth_error_app2 by lia. rewrite Nat.sub_diag. simpl.
    rewrite Hx. simpl. do 2 f_equal. lia.
  - destruct fuel as [| fuel]; [simpl in Hfuel; lia |].
    inversion Hpre as [| ? ? Hm Hpre']; subst.
    cbn [next]. cbn [index ctx trace].
    rewrite nth_error_app2 by lia. rewrite Nat.sub_diag. cbn [app nth_error].
    rewrite Hm. cbn [run].
    specialize (IH (seen ++ [m])%list fuel (tr ++ [Invoked (mw_name m)])%list Hpre').
    rewrite length_app in IH. simpl in IH.
    rewrite <- app_assoc in IH. simpl in IH.
    replace (S (length seen)) with (length seen + 1)%nat by lia.
    rewrite IH by (simpl in Hfuel; lia).
    cbn [run]. simpl. f_equal.
    f_equal; [lia | rewrite <- app_assoc; reflexivity].
Qed.

(** At the level of [executeChain]: the handlers of the prefix and the
    thrower are invoked, nothing after them, and the rejection carries the
    name of the first handler of the chain outermost. *)
Lemma executeChain_prefix_then_throw (context : RouteContext) (pre : list Middleware)
    (x : Middleware) (e : Thrown) (rest : list Middleware) (tr : list Event) :
  Forall (fun m => handler m context = AwaitNext Return Raise) pre ->
  handler x context = Raise e ->
  executeChain (pre ++ x :: rest) context tr
  = (Rejected (wrapped (List.map mw_name pre) (middlewareError (mw_name x) e)),
     context,
     (tr ++ List.map Invoked (List.map mw_name pre ++ [mw_name x]))%list).
Proof.
  intros Hpre Hx. unfold executeChain.
  pose proof (next_prefix_then_throw context x e rest Hx pre [] 
                (length (pre ++ x :: rest)) tr Hpre) as H.
  cbn [app length] in H. rewrite H; [reflexivity |].
  rewrite length_app. simpl. lia.
Qed.

(** A handler body that never awaits [next] runs the same whatever the
    continuation, and invokes no middleware. *)
Lemma run_without_next (h : Handler) (nxt : ChainState -> Outcome * ChainState)
    (st : ChainState) :
  withoutNext h ->
  invoked (trace (snd (run h nxt st))) = invoked (trace st)
  /\ index (snd (run h nxt st)) = index st.
Proof.
  revert st.
  induction h as [| e | line k IH | k IH | c k IH | k IHk handle IHh |];
    intros st Hn; simpl in *.
  - split; reflexivity.
  - split; reflexivity.
  - destruct (IH (mkState (index st) (ctx st) (trace st ++ [Logged line])) Hn) as [H1 H2].
    rewrite H1, H2. simpl. split; [| reflexivity].
    unfold invoked. rewrite flat_map_app. simpl. rewrite app_nil_r. reflexivity.
  - apply IH. apply Hn.
  - destruct (IH (mkState (index st) c (trace st)) Hn) as [H1 H2].
    rewrite H1, H2. split; reflexivity.
  - destruct Hn.
  - split; reflexivity.
Qed.

(** Omitting the call to [next] halts the chain: of a chain whose first
    handler never awaits [next], only that handler is invoked. *)
Lemma executeChain_halts_at_first (context : RouteContext) (m : Middleware)
    (rest : list Middleware) (tr : list Event) :
  withoutNext (handler m context) ->
  invoked (snd (executeChain (m :: rest) context tr)) = (invoked tr ++ [mw_name m])%list.
Proof.
  intros Hn. unfold executeChain. cbn [length next nth_error index ctx trace].
  pose proof (run_without_next (handler m context)
                (next (length rest) (m :: rest))
                (mkState 1 context (tr ++ [Invoked (mw_name m)])) Hn) as [Htr _].
  destruct (run _ _ _) as [[| e | |] st2]; cbn [snd trace] in *; rewrite Htr;
    unfold invoked; rewrite flat_map_app; reflexivity.
Qed.

End ChainOrder.

(** With the chain the router is built with, a failing route middleware is
    reported under the name of the outermost built-in. *)
Lemma router_chain_blames_errorBoundary duration :
  fst (fst (MiddlewareChain.execute
              (MiddlewareChain.add
                 (mkMiddleware "auth" (throwing (plainError "token expired")) None)
                 (MiddlewareChain.routerChain duration))
              someContext []))
  = MiddlewareChain.Rejected
      (ErrorObject
         (createError (ErrorCodes "MIDDLEWARE_ERROR") "Middleware 'errorBoundary' failed"
            (Some "Middleware 'timing' failed")
            (Some "Check middleware implementation and error handling"))).
Proof. reflexivity. Qed.

(** C2 (as the code has it): with [A] and [B] in the [before] phase and [C]
    in the [after] phase, handlers that all await [next] are invoked in the
    order [A], [B], [C]; when [A] returns without calling [next], [B] is not
    invoked, [execute] completes without error, and [C] is still invoked,
    the [after] phase being a chain of its own. *)
Theorem C2_order_and_halt :
  forall (a b c : string) (hB : MiddlewareHandler) (context : RouteContext)
         (tr : list MiddlewareChain.Event),
    MiddlewareChain.execute
      [ mkMiddleware a passThrough (Some before);
        mkMiddleware b passThrough (Some before);
        mkMiddleware c passThrough (Some after) ] context tr
    = (MiddlewareChain.Resolved, context,
       (tr ++ [MiddlewareChain.Invoked a; MiddlewareChain.Invoked b;
               MiddlewareChain.Invoked c])%list)
    /\ MiddlewareChain.execute
         [ mkMiddleware a halting (Some before);
           mkMiddleware b hB (Some before);
           mkMiddleware c passThrough (Some after) ] context tr
       = (MiddlewareChain.Resolved, context,
          (tr ++ [MiddlewareChain.Invoked a; MiddlewareChain.Invoked c])%list).
Proof.
  intros. split; cbv -[app String.append]; rewrite <- ?app_assoc; reflexivity.
Qed.

(** C2, the claim as stated fails: [A] returns without calling [next], yet
    [C] runs. *)
Lemma C2_after_handler_runs_anyway :
  MiddlewareChain.invoked
    (snd (MiddlewareChain.execute
            [ mkMiddleware "A" halting (Some before);
              mkMiddleware "B" passThrough (Some before);
              mkMiddleware "C" passThrough (Some after) ] someContext []))
  = ["A"; "C"].
Proof. reflexivity. Qed.

(** C3, at two handlers: [A] awaits [next], [B] throws [e].  The error that
    leaves [execute] is attributed to [A], the first handler of the phase,
    and its [details] is the message of the error attributed to [B]; the
    cause [e] survives only inside that inner wrapping. *)
Theorem C3_error_attributed_to_first_handler :
  forall (a b : string) (e : Thrown) (context : RouteContext)
         (tr : list MiddlewareChain.Event),
    MiddlewareChain.execute
      [ mkMiddleware a passThrough (Some before);
        mkMiddleware b (throwing e) (Some before) ] context tr
    = (MiddlewareChain.Rejected
         (ErrorObject
            (createError (ErrorCodes "MIDDLEWARE_ERROR")
               ("Middleware '" ++ a ++ "' failed")
               (Some ("Middleware '" ++ b ++ "' failed"))
               (Some "Check middleware implementation and error handling"))),
       context,
       (tr ++ [MiddlewareChain.Invoked a; MiddlewareChain.Invoked b])%list).
Proof.
  intros. cbv -[app String.append]. rewrite <- ?app_assoc. reflexivity.
Qed.

(* ===================================================================== *)
(** ** JavaScript maps: lookups after updates *)
(* ===================================================================== *)

Section JsMapFacts.
Context {V : Type}.
Implicit Types (m : list (string * V)) (k : string) (v : V).

Lemma jsmap_get_set_eq m k v : JsMap.get k (JsMap.set k v m) = Some v.
Proof.
  induction m as [| [k' v'] m IH]; simpl.
  - rewrite String.eqb_refl. reflexivity.
  - destruct (String.eqb k' k) eqn:E; simpl; rewrite E; [reflexivity | exact IH].
Qed.

Lemma jsmap_get_set_ne m k k' v :
  k <> k' -> JsMap.get k' (JsMap.set k v m) = JsMap.get k' m.
Proof.
  intros Hne. induction m as [| [k0 v0] m IH]; simpl.
  - destruct (String.eqb k k') eqn:E; [apply String.eqb_eq in E; contradiction | reflexivity].
  - destruct (String.eqb k0 k) eqn:E; simpl.
    + apply String.eqb_eq in E. subst k0.
      destruct (String.eqb k k') eqn:E'; [apply String.eqb_eq in E'; contradiction | reflexivity].
    + destruct (String.eqb k0 k'); [reflexivity | exact IH].
Qed.

Lemma jsmap_get_None_not_key m k :
  JsMap.get k m = None <-> ~ In k (JsMap.keys m).
Proof.
  induction m as [| [k' v'] m IH]; simpl.
  - tauto.
  - destruct (String.eqb k' k) eqn:E.
    + apply String.eqb_eq in E. split; [discriminate | intros H; exfalso; apply H; left; exact E].
    + apply String.eqb_neq in E. rewrite IH. tauto.
Qed.

Lemma jsmap_keys_set_present m k v :
  In k (JsMap.keys m) -> JsMap.keys (JsMap.set k v m) = JsMap.keys m.
Proof.
  induction m as [| [k' v'] m IH]; simpl; [tauto |].
  intros Hin. destruct (String.eqb k' k) eqn:E; simpl; [reflexivity |].
  apply String.eqb_neq in E. f_equal. apply IH. tauto.
Qed.

Lemma jsmap_keys_set_absent m k v :
  ~ In k (JsMap.keys m) -> JsMap.keys (JsMap.set k v m) = (JsMap.keys m ++ [k])%list.
Proof.
  induction m as [| [k' v'] m IH]; simpl; [reflexivity |].
  intros Hin. destruct (String.eqb k' k) eqn:E; simpl.
  - apply String.eqb_eq in E. tauto.
  - f_equal. apply IH. tauto.
Qed.

Lemma jsmap_NoDup_set m k v :
  NoDup (JsMap.keys m) -> NoDup (JsMap.keys (JsMap.set k v m)).
Proof.
  intros Hnd. destruct (in_dec String.string_dec k (JsMap.keys m)) as [Hin | Hin].
  - rewrite jsmap_keys_set_present by exact Hin. exact Hnd.
  - rewrite jsmap_keys_set_absent by exact Hin.
    apply NoDup_app. split; [exact Hnd |]. split.
    + intros x Hx Hx'. apply list_elem_of_In in Hx, Hx'.
      destruct Hx' as [<- | []]. contradiction.
    + apply NoDup_singleton.
Qed.

Lemma jsmap_keys_delete_incl m k x :
  In x (JsMap.keys (JsMap.delete k m)) -> In x (JsMap.keys m).
Proof.
  induction m as [| [k' v'] m IH]; simpl; [tauto |].
  destruct (String.eqb k' k); simpl; tauto.
Qed.

Lemma jsmap_NoDup_delete m k :
  NoDup (JsMap.keys m) -> NoDup (JsMap.keys (JsMap.delete k m)).
Proof.
  induction m as [| [k' v'] m IH]; simpl; intros Hnd; [exact Hnd |].
  apply NoDup_cons in Hnd. destruct Hnd as [Hk Hnd].
  destruct (String.eqb k' k); simpl; [exact Hnd |].
  apply NoDup_cons. split; [| apply IH; exact Hnd].
  intros Hin. apply Hk. apply list_elem_of_In in Hin. apply list_elem_of_In.
  eapply jsmap_keys_delete_incl. exact Hin.
Qed.

Lemma jsmap_get_delete_eq m k :
  NoDup (JsMap.keys m) -> JsMap.get k (JsMap.delete k m) = None.
Proof.
  induction m as [| [k' v'] m IH]; simpl; intros Hnd; [reflexivity |].
  apply NoDup_cons in Hnd. destruct Hnd as [Hk Hnd].
  destruct (String.eqb k' k) eqn:E; simpl.
  - apply String.eqb_eq in E. subst k'. apply jsmap_get_None_not_key.
    intros Hin. apply Hk. apply list_elem_of_In. exact Hin.
  - rewrite E. apply IH. exact Hnd.
Qed.

Lemma jsmap_get_delete_ne m k k' :
  k <> k' -> JsMap.get k' (JsMap.delete k m) = JsMap.get k' m.
Proof.
  intros Hne. induction m as [| [k0 v0] m IH]; simpl; [reflexivity |].
  destruct (String.eqb k0 k) eqn:E; simpl.
  - apply String.eqb_eq in E. subst k0.
    destruct (String.eqb k k') eqn:E'; [apply String.eqb_eq in E'; contradiction | reflexivity].
  - destruct (String.eqb k0 k'); [reflexivity | exact IH].
Qed.

End JsMapFacts.

(* ===================================================================== *)
(** ** Numbers: rounding to the nearest double *)
(* ===================================================================== *)

Section Rounding.
Import Js.

Lemma rne_bounds a u :
  0 < u -> 0 <= a ->
  (a / u) * u <= roundNearestEven a u <= (a / u + 1) * u
  /\ 2 * Z.abs (roundNearestEven a u - a) <= u.
Proof.
  intros Hu Ha. unfold roundNearestEven.
  pose proof (Z.div_mod a u ltac:(lia)) as Hdm.
  pose proof (Z.mod_pos_bound a u Hu) as Hr.
  destruct (Z.ltb_spec (2 * (a mod u)) u); [split; nia |].
  destruct (Z.ltb_spec u (2 * (a mod u))); [split; nia |].
  destruct (Z.even (a / u)); split; nia.
Qed.

Lemma rne_mono a b u :
  0 < u -> 0 <= a -> a <= b -> roundNearestEven a u <= roundNearestEven b u.
Proof.
  intros Hu Ha Hab.
  assert (Hq : a / u <= b / u) by (apply Z.div_le_mono; lia).
  destruct (Z.eq_dec (a / u) (b / u)) as [Heq | Hne].
  - unfold roundNearestEven. rewrite <- Heq.
    pose proof (Z.div_mod a u ltac:(lia)) as Hda.
    pose proof (Z.div_mod b u ltac:(lia)) as Hdb. rewrite <- Heq in Hdb.
    assert (Hr : a mod u <= b mod u) by nia.
    destruct (Z.ltb_spec (2 * (a mod u)) u); destruct (Z.ltb_spec (2 * (b mod u)) u);
      try lia;
      destruct (Z.ltb_spec u (2 * (a mod u))); destruct (Z.ltb_spec u (2 * (b mod u)));
      try lia; destruct (Z.even (a / u)); nia.
  - pose proof (rne_bounds a u Hu Ha) as [[_ H1] _].
    pose proof (rne_bounds b u Hu ltac:(lia)) as [[H2 _] _]. nia.
Qed.

Lemma rne_exact a u k : 0 < u -> a = k * u -> roundNearestEven a u = a.
Proof.
  intros Hu ->. unfold roundNearestEven.
  rewrite Z.mod_mul by lia. rewrite Z.div_mul by lia.
  destruct (Z.ltb_spec (2 * 0) u); lia.
Qed.


(** For [a >= 2^53]: the unit in the last place and the binade of [a]. *)
Lemma ulp_facts a :
  2 ^ 53 <= a ->
  let u := 2 ^ (Z.log2 a - 52) in
  2 <= u /\ 2 ^ 52 * u <= a < 2 ^ 53 * u /\ 2 ^ 52 * u = 2 ^ Z.log2 a.
Proof.
  intros Ha u.
  assert (Hpos : 0 < a) by lia.
  pose proof (Z.log2_spec a Hpos) as [Hlo Hhi].
  assert (HL : 53 <= Z.log2 a).
  { apply Z.log2_le_pow2; lia. }
  assert (Hu : 2 ^ 52 * u = 2 ^ Z.log2 a).
  { unfold u. rewrite <- Z.pow_add_r by lia. f_equal. lia. }
  assert (Hu2 : 2 ^ 53 * u = 2 ^ Z.succ (Z.log2 a)).
  { unfold u. rewrite <- Z.pow_add_r by lia. f_equal. lia. }
  split; [| split; [lia | exact Hu]].
  unfold u. change 2 with (2 ^ 1) at 1. apply Z.pow_le_mono_r; lia.
Qed.

Lemma toDouble_small n : Z.abs n < 2 ^ 53 -> toDouble n = n.
Proof.
  intros H. unfold toDouble. destruct (Z.ltb_spec (Z.abs n) (2 ^ 53)); [reflexivity | lia].
Qed.

Lemma toDouble_big a :
  2 ^ 53 <= a -> toDouble a = roundNearestEven a (2 ^ (Z.log2 a - 52)).
Proof.
  intros H. unfold toDouble. rewrite Z.abs_eq by lia.
  destruct (Z.ltb_spec a (2 ^ 53)); [lia |].
  rewrite Z.sgn_pos by lia. lia.
Qed.

Lemma toDouble_big_bounds a :
  2 ^ 53 <= a ->
  2 ^ Z.log2 a <= toDouble a <= 2 ^ (Z.log2 a + 1)
  /\ 2 * Z.abs (toDouble a - a) <= 2 ^ (Z.log2 a - 52).
Proof.
  intros Ha. rewrite (toDouble_big a Ha).
  pose proof (ulp_facts a Ha) as (Hu & [Hlo Hhi] & Heq). cbv zeta in *.
  set (u := 2 ^ (Z.log2 a - 52)) in *.
  pose proof (rne_bounds a u ltac:(lia) ltac:(lia)) as [[H1 H2] H3].
  assert (Hq : 2 ^ 52 <= a / u < 2 ^ 53).
  { split; [apply Z.div_le_lower_bound; lia | apply Z.div_lt_upper_bound; lia]. }
  assert (Hp : 2 ^ (Z.log2 a + 1) = 2 ^ 53 * u).
  { rewrite Z.pow_add_r by (try lia; apply Z.log2_nonneg). rewrite <- Heq. lia. }
  split; [| exact H3]. rewrite Hp, <- Heq. split; nia.
Qed.

Lemma toDouble_nonneg n : 0 <= n -> 0 <= toDouble n.
Proof.
  intros H. destruct (Z_lt_le_dec n (2 ^ 53)) as [Hs | Hb].
  - rewrite toDouble_small by lia. exact H.
  - pose proof (toDouble_big_bounds n Hb) as [[Hlo _] _].
    pose proof (Z.pow_pos_nonneg 2 (Z.log2 n) ltac:(lia) (Z.log2_nonneg n)). lia.
Qed.

Lemma toDouble_mono_nonneg a b : 0 <= a -> a <= b -> toDouble a <= toDouble b.
Proof.
  intros Ha Hab.
  destruct (Z_lt_le_dec b (2 ^ 53)) as [Hb | Hb].
  - rewrite !toDouble_small by lia. exact Hab.
  - destruct (Z_lt_le_dec a (2 ^ 53)) as [Has | Hal].
    + rewrite (toDouble_small a) by lia.
      pose proof (toDouble_big_bounds b Hb) as [[Hlo _] _].
      assert (2 ^ 53 <= 2 ^ Z.log2 b).
      { apply Z.pow_le_mono_r; [lia |]. apply Z.log2_le_pow2; lia. }
      lia.
    + assert (HL : Z.log2 a <= Z.log2 b) by (apply Z.log2_le_mono; exact Hab).
      destruct (Z.eq_dec (Z.log2 a) (Z.log2 b)) as [Heq | Hne].
      * rewrite (toDouble_big a Hal), (toDouble_big b Hb), Heq.
        pose proof (ulp_facts b Hb) as (Hu & _). cbv zeta in Hu.
        apply rne_mono; lia.
      * pose proof (toDouble_big_bounds a Hal) as [[_ Hhi] _].
        pose proof (toDouble_big_bounds b Hb) as [[Hlo _] _].
        assert (2 ^ (Z.log2 a + 1) <= 2 ^ Z.log2 b).
        { apply Z.pow_le_mono_r; lia. }
        lia.
Qed.

Lemma toDouble_opp n : toDouble (- n) = - toDouble n.
Proof.
  unfold toDouble. rewrite Z.abs_opp, Z.sgn_opp.
  destruct (Z.abs n <? 2 ^ 53); lia.
Qed.

(** Rounding to the nearest double is monotone. *)
Lemma toDouble_mono a b : a <= b -> toDouble a <= toDouble b.
Proof.
  intros Hab. destruct (Z_lt_le_dec a 0) as [Ha | Ha]; destruct (Z_lt_le_dec b 0) as [Hb | Hb].
  - pose proof (toDouble_mono_nonneg (- b) (- a) ltac:(lia) ltac:(lia)) as H.
    rewrite !toDouble_opp in H. lia.
  - pose proof (toDouble_nonneg (- a) ltac:(lia)) as H1. rewrite toDouble_opp in H1.
    pose proof (toDouble_nonneg b Hb). lia.
  - lia.
  - apply toDouble_mono_nonneg; assumption.
Qed.

(** Multiplying by 4 only moves the exponent. *)
Lemma toDouble_times4_nonneg n : 0 <= n -> toDouble (4 * n) = 4 * toDouble n.
Proof.
  intros Hn. destruct (Z_lt_le_dec (4 * n) (2 ^ 53)) as [Hs | Hb].
  - rewrite !toDouble_small by lia. reflexivity.
  - assert (Hpos : 0 < n) by lia.
    assert (HL : Z.log2 (4 * n) = Z.log2 n + 2).
    { change 4 with (2 ^ 2). rewrite Z.mul_comm, Z.log2_mul_pow2 by lia. lia. }
    rewrite (toDouble_big (4 * n) Hb), HL.
    destruct (Z_lt_le_dec n (2 ^ 53)) as [Hns | Hnb].
    + rewrite (toDouble_small n) by lia.
      assert (H51 : 51 <= Z.log2 n) by (apply Z.log2_le_pow2; lia).
      assert (H52 : Z.log2 n < 53) by (apply Z.log2_lt_pow2; lia).
      assert (Hcase : Z.log2 n = 51 \/ Z.log2 n = 52) by lia.
      destruct Hcase as [-> | ->].
      * apply (rne_exact _ _ (2 * n)); [reflexivity | change (2 ^ (51 + 2 - 52)) with 2; lia].
      * apply (rne_exact _ _ n); [reflexivity | change (2 ^ (52 + 2 - 52)) with 4; lia].
    + rewrite (toDouble_big n Hnb).
      pose proof (ulp_facts n Hnb) as (Hu & _). cbv zeta in Hu.
      set (u := 2 ^ (Z.log2 n - 52)) in *.
      assert (Hu4 : 2 ^ (Z.log2 n + 2 - 52) = 4 * u).
      { unfold u. replace (Z.log2 n + 2 - 52) with (2 + (Z.log2 n - 52)) by lia.
        rewrite Z.pow_add_r; [reflexivity | lia |].
        assert (53 <= Z.log2 n) by (apply Z.log2_le_pow2; lia). lia. }
      rewrite Hu4. unfold roundNearestEven.
      rewrite Z.div_mul_cancel_l by lia.
      rewrite Zmult_mod_distr_l.
      destruct (Z.ltb_spec (2 * (4 * (n mod u))) (4 * u));
        destruct (Z.ltb_spec (2 * (n mod u)) u); try lia.
      destruct (Z.ltb_spec (4 * u) (2 * (4 * (n mod u))));
        destruct (Z.ltb_spec u (2 * (n mod u))); try lia.
      destruct (Z.even (n / u)); lia.
Qed.

Lemma toDouble_times4 n : toDouble (4 * n) = 4 * toDouble n.
Proof.
  destruct (Z_lt_le_dec n 0) as [Hn | Hn].
  - pose proof (toDouble_times4_nonneg (- n) ltac:(lia)) as H.
    replace (4 * - n) with (- (4 * n)) in H by lia. rewrite !toDouble_opp in H. lia.
  - apply toDouble_times4_nonneg. exact Hn.
Qed.

(** Three quarters of a positive [t], rounded, never exceeds [t]. *)
Lemma toDouble_three_le_four t : 0 < t -> toDouble (3 * t) <= 4 * t.
Proof.
  intros Ht. destruct (Z_lt_le_dec (3 * t) (2 ^ 53)) as [Hs | Hb].
  - rewrite toDouble_small by lia. lia.
  - pose proof (toDouble_big_bounds (3 * t) Hb) as [_ Herr].
    pose proof (ulp_facts (3 * t) Hb) as (Hu & [Hlo _] & _). cbv zeta in *.
    set (u := 2 ^ (Z.log2 (3 * t) - 52)) in *.
    assert (2 ^ 52 = 4503599627370496) by reflexivity. lia.
Qed.

End Rounding.

(** The example of a product that is not exact: three quarters of
    [4000000000000001] is [3000000000000000.75], half-way between two
    doubles, and the product is the upper one. *)
Lemma timesThreeQuarters_rounds_up :
  Js.timesThreeQuarters 4000000000000001 = 12000000000000004 # 4.
Proof. reflexivity. Qed.

Lemma sub_exact a b : Z.abs (a - b) < 2 ^ 53 -> Js.sub a b = a - b.
Proof. intros H. unfold Js.sub. apply toDouble_small. exact H. Qed.

Lemma timesThreeQuarters_exact t :
  Z.abs (3 * t) < 2 ^ 53 -> (Js.timesThreeQuarters t == inject_Z t * (3 # 4))%Q.
Proof.
  intros H. unfold Js.timesThreeQuarters. rewrite toDouble_small by exact H.
  unfold Qeq, inject_Z, Qmult. cbn [Qnum Qden]. lia.
Qed.

(* ===================================================================== *)
(** ** The cache: expiry, staleness, reads *)
(* ===================================================================== *)

Section CacheReads.
Import DataTypes MemoryCache.

(** The comparison against [ttl * 0.75], in integers. *)
Lemma beyond_staleTime (d t : Z) :
  negb (Qle_bool (inject_Z d) (staleTime t)) = (Js.toDouble (3 * t) <? 4 * d).
Proof.
  unfold Qle_bool, staleTime, Js.timesThreeQuarters.
  change (negb (d * 4 <=? Js.toDouble (3 * t) * 1) = (Js.toDouble (3 * t) <? 4 * d)).
  destruct (Z.leb_spec (d * 4) (Js.toDouble (3 * t) * 1));
    destruct (Z.ltb_spec (Js.toDouble (3 * t)) (4 * d));
    simpl; try reflexivity; lia.
Qed.

Lemma staleTime_lt_iff (d t : Z) :
  (staleTime t < inject_Z d)%Q <-> Js.toDouble (3 * t) < 4 * d.
Proof.
  unfold Qlt, staleTime, Js.timesThreeQuarters, inject_Z. cbn [Qnum Qden]. lia.
Qed.

Lemma staleTime_ge_iff (d t : Z) :
  (inject_Z d <= staleTime t)%Q <-> 4 * d <= Js.toDouble (3 * t).
Proof.
  unfold Qle, staleTime, Js.timesThreeQuarters, inject_Z. cbn [Qnum Qden]. lia.
Qed.

Lemma isExpired_true_iff now entry :
  isExpired now entry = true
  <-> exists t, ttl entry = Finite t /\ t <> 0 /\ Js.sub now (timestamp entry) > t.
Proof.
  unfold isExpired. destruct (ttl entry) as [t |].
  - destruct t as [| p | p].
    + split; [discriminate | intros (t & Ht & Hne & _); inversion Ht; congruence].
    + rewrite Z.ltb_lt. split.
      * intros H. exists (Z.pos p). repeat split; [discriminate | lia].
      * intros (t & Ht & _ & H). inversion Ht; subst. lia.
    + rewrite Z.ltb_lt. split.
      * intros H. exists (Z.neg p). repeat split; [discriminate | lia].
      * intros (t & Ht & _ & H). inversion Ht; subst. lia.
  - split; [discriminate | intros (t & Ht & _); discriminate].
Qed.

Lemma isStale_true_iff now entry :
  isStale now entry = true
  <-> exists t, ttl entry = Finite t /\ t <> 0
                /\ Js.toDouble (3 * t) < 4 * Js.sub now (timestamp entry).
Proof.
  unfold isStale. destruct (ttl entry) as [t |].
  - destruct t as [| p | p].
    + split; [discriminate | intros (t & Ht & Hne & _); inversion Ht; congruence].
    + rewrite beyond_staleTime, Z.ltb_lt. split.
      * intros H. exists (Z.pos p). repeat split; [discriminate | lia].
      * intros (t & Ht & _ & H). inversion Ht; subst. lia.
    + rewrite beyond_staleTime, Z.ltb_lt. split.
      * intros H. exists (Z.neg p). repeat split; [discriminate | lia].
      * intros (t & Ht & _ & H). inversion Ht; subst. lia.
  - split; [discriminate | intros (t & Ht & _); discriminate].
Qed.

(** With a time to live of 0 or [Infinity] an entry is neither expired
    nor stale, at any clock reading. *)
Lemma ttl_zero_never_expired_nor_stale now entry :
  ttl entry = Finite 0 -> isExpired now entry = false /\ isStale now entry = false.
Proof. intros H. unfold isExpired, isStale. rewrite H. split; reflexivity. Qed.

Lemma ttl_infinite_never_expired_nor_stale now entry :
  ttl entry = Infinity -> isExpired now entry = false /\ isStale now entry = false.
Proof. intros H. unfold isExpired, isStale. rewrite H. split; reflexivity. Qed.

(** Within three quarters of a positive time to live, as the code
    computes them, an entry is neither expired nor stale. *)
Lemma within_staleTime_fresh now entry t :
  ttl entry = Finite t -> t > 0 ->
  4 * Js.sub now (timestamp entry) <= Js.toDouble (3 * t) ->
  isExpired now entry = false /\ isStale now entry = false.
Proof.
  intros Httl Hpos Hle. split.
  - destruct (isExpired now entry) eqn:E; [| reflexivity].
    apply isExpired_true_iff in E. destruct E as (t' & Ht' & _ & Hgt).
    rewrite Httl in Ht'. inversion Ht'; subst t'.
    pose proof (toDouble_three_le_four t ltac:(lia)). lia.
  - destruct (isStale now entry) eqn:E; [| reflexivity].
    apply isStale_true_iff in E. destruct E as (t' & Ht' & _ & Hgt).
    rewrite Httl in Ht'. inversion Ht'; subst t'. lia.
Qed.

Lemma not_expired_within_ttl now entry t :
  ttl entry = Finite t -> Js.sub now (timestamp entry) <= t -> isExpired now entry = false.
Proof.
  intros Httl Hle. destruct (isExpired now entry) eqn:E; [| reflexivity].
  apply isExpired_true_iff in E. destruct E as (t' & Ht' & _ & Hgt).
  rewrite Httl in Ht'. inversion Ht'; subst t'. lia.
Qed.

(** The outcomes of [get]. *)
Lemma get_absent key now now' h st :
  JsMap.get key (cache st) = None -> get key now now' h st = (None, h, st).
Proof. intros Hs. unfold get. rewrite Hs. reflexivity. Qed.

Lemma get_expired key now now' h st r entry :
  JsMap.get key (cache st) = Some r -> h !! r = Some entry ->
  isExpired now entry = true ->
  get key now now' h st = (None, h, delete key st).
Proof. intros Hs Hr He. unfold get. rewrite Hs, Hr, He. reflexivity. Qed.

Lemma get_stale key now now' h st r entry :
  JsMap.get key (cache st) = Some r -> h !! r = Some entry ->
  isExpired now entry = false -> isStale now' entry = true ->
  get key now now' h st
  = (Some r, <[r := markStale entry]> h, queueRevalidation key st).
Proof. intros Hs Hr He Hst. unfold get. rewrite Hs, Hr, He, Hst. reflexivity. Qed.

Lemma get_fresh key now now' h st r entry :
  JsMap.get key (cache st) = Some r -> h !! r = Some entry ->
  isExpired now entry = false -> isStale now' entry = false ->
  get key now now' h st = (Some r, h, st).
Proof. intros Hs Hr He Hst. unfold get. rewrite Hs, Hr, He, Hst. reflexivity. Qed.

Lemma queueRevalidation_queued key st :
  key ∈ revalidationQueue (queueRevalidation key st).
Proof.
  unfold queueRevalidation. destruct (decide (key ∈ revalidationQueue st)); simpl.
  - assumption.
  - set_solver.
Qed.

Lemma queueRevalidation_cache key st :
  cache (queueRevalidation key st) = cache st.
Proof.
  unfold queueRevalidation. destruct (decide (key ∈ revalidationQueue st)); reflexivity.
Qed.

(** Assigning to an object of the heap: the object read back, and the
    other objects. *)
Lemma heap_assign_same (h : Heap) r entry entry' :
  h !! r = Some entry -> (<[r := entry']> h) !! r = Some entry'.
Proof.
  intros Hr. apply list_lookup_insert_eq. apply lookup_lt_Some in Hr. exact Hr.
Qed.

Lemma heap_assign_other (h : Heap) r r' entry' :
  r <> r' -> (<[r := entry']> h) !! r' = h !! r'.
Proof. intros Hne. apply list_lookup_insert_ne. exact Hne. Qed.

(** A new object gets a reference no object had, and the objects there
    were are as they were. *)
Lemma alloc_new (h : Heap) entry :
  snd (alloc entry h) !! fst (alloc entry h) = Some entry.
Proof.
  unfold alloc. cbn [fst snd]. rewrite lookup_app_r by lia.
  rewrite Nat.sub_diag. reflexivity.
Qed.

Lemma alloc_old (h : Heap) entry r e :
  h !! r = Some e -> snd (alloc entry h) !! r = Some e /\ r <> fst (alloc entry h).
Proof.
  intros Hr. unfold alloc. cbn [fst snd]. pose proof (lookup_lt_Some _ _ _ Hr) as Hlt.
  split; [| lia]. rewrite lookup_app_l by exact Hlt. exact Hr.
Qed.

End CacheReads.

(** C5 (as the code has it, for a positive time to live).  [get] returns
    absent for a key with no stored entry.  The elapsed time
    [now - timestamp] and the threshold [0.75 * ttl] are computed in
    double arithmetic, the clock being read once for the expiry test and
    once more for the staleness test.  When the entry has [ttl > 0] and
    the elapsed time is above [ttl], [get] evicts the key and returns
    absent.  When the entry has [ttl > 0], is not expired and the elapsed
    time is above the threshold, [get] returns the entry object with its
    stale flag set by an assignment to the object, and the key is in the
    revalidation queue.  When the entry is not expired and the elapsed
    time is at most the threshold, or the time to live is [Infinity],
    [get] returns the entry object as it is stored, with the flag it has,
    and changes nothing.  The two computations are exact as long as
    [now - timestamp] and [3 * ttl] are below [2^53] in magnitude, and
    then, with a clock that does not go back, an elapsed time within the
    threshold is within [ttl] as well. *)
Theorem C5_get_cases :
  forall (key : string) (now now' : Z) (h : DataTypes.Heap) (st : MemoryCache.State),
    NoDup (JsMap.keys (MemoryCache.cache st)) ->
    (JsMap.get key (MemoryCache.cache st) = None ->
       MemoryCache.get key now now' h st = (None, h, st))
    /\ (forall r entry t,
          JsMap.get key (MemoryCache.cache st) = Some r -> h !! r = Some entry ->
          DataTypes.ttl entry = DataTypes.Finite t -> t > 0 ->
          Js.sub now (DataTypes.timestamp entry) > t ->
          MemoryCache.get key now now' h st = (None, h, MemoryCache.delete key st)
          /\ JsMap.get key (MemoryCache.cache (MemoryCache.delete key st)) = None)
    /\ (forall r entry t,
          JsMap.get key (MemoryCache.cache st) = Some r -> h !! r = Some entry ->
          DataTypes.ttl entry = DataTypes.Finite t -> t > 0 ->
          Js.sub now (DataTypes.timestamp entry) <= t ->
          (MemoryCache.staleTime t < inject_Z (Js.sub now' (DataTypes.timestamp entry)))%Q ->
          MemoryCache.get key now now' h st
          = (Some r, <[r := MemoryCache.markStale entry]> h,
             MemoryCache.queueRevalidation key st)
          /\ (<[r := MemoryCache.markStale entry]> h) !! r
             = Some (MemoryCache.markStale entry)
          /\ DataTypes.isStale (MemoryCache.markStale entry) = true
          /\ key ∈ MemoryCache.revalidationQueue (MemoryCache.queueRevalidation key st)
          /\ JsMap.get key (MemoryCache.cache (MemoryCache.queueRevalidation key st))
             = Some r)
    /\ (forall r entry,
          JsMap.get key (MemoryCache.cache st) = Some r -> h !! r = Some entry ->
          (DataTypes.ttl entry = DataTypes.Infinity
           \/ exists t, DataTypes.ttl entry = DataTypes.Finite t /\ t > 0
                        /\ Js.sub now (DataTypes.timestamp entry) <= t
                        /\ (inject_Z (Js.sub now' (DataTypes.timestamp entry))
                            <= MemoryCache.staleTime t)%Q) ->
          MemoryCache.get key now now' h st = (Some r, h, st))
    /\ (forall entry,
          Z.abs (now - DataTypes.timestamp entry) < 2 ^ 53 ->
          Js.sub now (DataTypes.timestamp entry) = now - DataTypes.timestamp entry)
    /\ (forall t,
          Z.abs (3 * t) < 2 ^ 53 ->
          (MemoryCache.staleTime t == inject_Z t * (3 # 4))%Q)
    /\ (forall entry t,
          now <= now' -> t > 0 ->
          (inject_Z (Js.sub now' (DataTypes.timestamp entry)) <= MemoryCache.staleTime t)%Q ->
          Js.sub now (DataTypes.timestamp entry) <= t).
Proof.
  intros key now now' h st Hnd.
  split; [| split; [| split; [| split; [| split; [| split]]]]].
  - apply get_absent.
  - intros r entry t Hs Hr Httl Hpos Hgt.
    split; [| cbn [MemoryCache.delete MemoryCache.cache];
              apply jsmap_get_delete_eq; exact Hnd].
    apply (get_expired key now now' h st r entry Hs Hr).
    apply isExpired_true_iff. exists t. repeat split; [exact Httl | lia | lia].
  - intros r entry t Hs Hr Httl Hpos Hle Hgt.
    apply staleTime_lt_iff in Hgt.
    split; [| split; [| split; [| split]]].
    + apply (get_stale key now now' h st r entry Hs Hr).
      * apply (not_expired_within_ttl now entry t Httl Hle).
      * apply isStale_true_iff. exists t. repeat split; [exact Httl | lia | lia].
    + apply (heap_assign_same h r entry). exact Hr.
    + reflexivity.
    + apply queueRevalidation_queued.
    + rewrite queueRevalidation_cache. exact Hs.
  - intros r entry Hs Hr Hcase.
    destruct Hcase as [Hinf | (t & Httl & Hpos & Hle & Hwithin)].
    + destruct (ttl_infinite_never_expired_nor_stale now entry Hinf) as [He _].
      destruct (ttl_infinite_never_expired_nor_stale now' entry Hinf) as [_ Hst].
      apply (get_fresh key now now' h st r entry Hs Hr He Hst).
    + apply staleTime_ge_iff in Hwithin.
      destruct (within_staleTime_fresh now' entry t Httl Hpos Hwithin) as [_ Hst].
      apply (get_fresh key now now' h st r entry Hs Hr
               (not_expired_within_ttl now entry t Httl Hle) Hst).
  - intros entry Hsmall. apply sub_exact. exact Hsmall.
  - intros t Hsmall. apply timesThreeQuarters_exact. exact Hsmall.
  - intros entry t Hclock Hpos Hwithin. apply staleTime_ge_iff in Hwithin.
    pose proof (toDouble_three_le_four t ltac:(lia)) as H34.
    assert (Hmono : Js.sub now (DataTypes.timestamp entry)
                    <= Js.sub now' (DataTypes.timestamp entry)).
    { unfold Js.sub. apply toDouble_mono. lia. }
    lia.
Qed.

(** C5, witness: one entry with a time to live of 1000ms, read when fresh,
    when stale, when expired, and a read of a key never set. *)
Lemma C5_get_cases_witness :
  let entry := DataTypes.mkEntry "d" 0 (DataTypes.Finite 1000) [] false in
  let h := [entry] in
  let st := MemoryCache.set "k" 0%nat MemoryCache.empty in
  MemoryCache.get "missing" 10 10 h st = (None, h, st)
  /\ MemoryCache.get "k" 1001 1001 h st = (None, h, MemoryCache.delete "k" st)
  /\ MemoryCache.get "k" 800 801 h st
     = (Some 0%nat, [MemoryCache.markStale entry], MemoryCache.queueRevalidation "k" st)
  /\ MemoryCache.get "k" 750 750 h st = (Some 0%nat, h, st).
Proof.
  intros entry h st.
  assert (Hnd : NoDup (JsMap.keys (MemoryCache.cache st))).
  { simpl. apply NoDup_singleton. }
  destruct (C5_get_cases "missing" 10 10 h st Hnd) as (Habsent & _).
  destruct (C5_get_cases "k" 1001 1001 h st Hnd) as (_ & Hexpired & _).
  destruct (C5_get_cases "k" 800 801 h st Hnd) as (_ & _ & Hstale & _).
  destruct (C5_get_cases "k" 750 750 h st Hnd) as (_ & _ & _ & Hfresh & _).
  split; [apply Habsent; reflexivity |].
  split; [apply (Hexpired 0%nat entry 1000); [reflexivity | reflexivity | reflexivity | lia
                                             | vm_compute; reflexivity] |].
  split; [apply (Hstale 0%nat entry 1000); [reflexivity | reflexivity | reflexivity | lia
                                           | vm_compute; discriminate
                                           | vm_compute; reflexivity] |].
  apply (Hfresh 0%nat entry); [reflexivity | reflexivity |].
  right. exists 1000. split; [reflexivity |]. split; [lia |].
  split; vm_compute; discriminate.
Defined.

(** C5, the claim as stated fails.  An entry stored with the stale flag
    set and read within three quarters of its time to live is in the
    "otherwise" case, yet it comes back stale: [get] sets the flag and
    never clears it.  And with a time to live of [4000000000000001] an
    entry read [3000000000000001]ms after its timestamp is above
    [0.75 * ttl] and not expired, yet it comes back unmarked and nothing
    is queued: the product [ttl * 0.75] is the double [3000000000000001]. *)
Lemma C5_flag_kept_and_threshold_rounded :
  let flagged := DataTypes.mkEntry "d" 0 (DataTypes.Finite 1000) [] true in
  let long := DataTypes.mkEntry "d" 0 (DataTypes.Finite 4000000000000001) [] false in
  let st := MemoryCache.set "k" 0%nat MemoryCache.empty in
  (10 - DataTypes.timestamp flagged <= 1000
   /\ 4 * (10 - DataTypes.timestamp flagged) <= 3 * 1000
   /\ MemoryCache.get "k" 10 10 [flagged] st = (Some 0%nat, [flagged], st)
   /\ DataTypes.isStale flagged = true)
  /\ (3000000000000001 - DataTypes.timestamp long <= 4000000000000001
      /\ 4 * (3000000000000001 - DataTypes.timestamp long) > 3 * 4000000000000001
      /\ MemoryCache.get "k" 3000000000000001 3000000000000001 [long] st
         = (Some 0%nat, [long], st)
      /\ DataTypes.isStale long = false
      /\ MemoryCache.revalidationQueue st = ∅).
Proof.
  cbv zeta. split.
  - split; [cbn; lia |]. split; [cbn; lia |]. split; reflexivity.
  - split; [cbn; lia |]. split; [cbn; lia |]. split; [vm_compute; reflexivity |].
    split; reflexivity.
Qed.

(** C6.  An entry stored with a time to live of 0 is never expired and
    never marked stale by a read: whatever the clock, [get] returns the
    entry object as stored and changes neither the object, the store nor
    the queue.  An entry with the [Infinity] time to live is never expired
    by time either, and is read the same way. *)
Theorem C6_ttl_zero_and_infinite :
  forall (key : string) (now now' : Z) (h : DataTypes.Heap) (st : MemoryCache.State)
         (r : DataTypes.Ref) (entry : DataTypes.CacheEntry),
    JsMap.get key (MemoryCache.cache st) = Some r -> h !! r = Some entry ->
    (DataTypes.ttl entry = DataTypes.Finite 0 ->
       MemoryCache.isExpired now entry = false
       /\ MemoryCache.isStale now' entry = false
       /\ MemoryCache.get key now now' h st = (Some r, h, st))
    /\ (DataTypes.ttl entry = DataTypes.Infinity ->
          MemoryCache.isExpired now entry = false
          /\ MemoryCache.get key now now' h st = (Some r, h, st)).
Proof.
  intros key now now' h st r entry Hs Hr. split; intros Httl.
  - destruct (ttl_zero_never_expired_nor_stale now entry Httl) as [He _].
    destruct (ttl_zero_never_expired_nor_stale now' entry Httl) as [_ Hst].
    split; [exact He |]. split; [exact Hst |].
    apply (get_fresh key now now' h st r entry); assumption.
  - destruct (ttl_infinite_never_expired_nor_stale now entry Httl) as [He _].
    destruct (ttl_infinite_never_expired_nor_stale now' entry Httl) as [_ Hst].
    split; [exact He | apply (get_fresh key now now' h st r entry); assumption].
Qed.

(** C6, witness: entries built by [createCacheEntry] for the ['no-cache']
    and ['force-cache'] strategies, read a day after. *)
Lemma C6_ttl_zero_and_infinite_witness :
  let '(noCache, h1) :=
    MemoryCache.createCacheEntry "d"
      (DataTypes.mkCacheConfig (DataTypes.Named "no-cache") None) 0 [] in
  let '(forceCache, h) :=
    MemoryCache.createCacheEntry "d"
      (DataTypes.mkCacheConfig (DataTypes.Named "force-cache") None) 0 h1 in
  let st := MemoryCache.set "f" forceCache (MemoryCache.set "n" noCache MemoryCache.empty) in
  MemoryCache.get "n" 86400000 86400000 h st = (Some noCache, h, st)
  /\ MemoryCache.get "f" 86400000 86400000 h st = (Some forceCache, h, st).
Proof.
  cbv beta iota zeta delta [MemoryCache.createCacheEntry DataTypes.alloc length].
  split.
  - destruct (C6_ttl_zero_and_infinite "n" 86400000 86400000
                ([] ++ [MemoryCache.newEntry "d"
                          (DataTypes.mkCacheConfig (DataTypes.Named "no-cache") None) 0]
                 ++ [MemoryCache.newEntry "d"
                       (DataTypes.mkCacheConfig (DataTypes.Named "force-cache") None) 0])%list
                (MemoryCache.set "f" 1%nat (MemoryCache.set "n" 0%nat MemoryCache.empty))
                0%nat _ eq_refl eq_refl) as [Hzero _].
    apply Hzero. reflexivity.
  - destruct (C6_ttl_zero_and_infinite "f" 86400000 86400000
                ([] ++ [MemoryCache.newEntry "d"
                          (DataTypes.mkCacheConfig (DataTypes.Named "no-cache") None) 0]
                 ++ [MemoryCache.newEntry "d"
                       (DataTypes.mkCacheConfig (DataTypes.Named "force-cache") None) 0])%list
                (MemoryCache.set "f" 1%nat (MemoryCache.set "n" 0%nat MemoryCache.empty))
                1%nat _ eq_refl eq_refl) as [_ Hinf].
    apply Hinf. reflexivity.
Defined.

(** C6, at the entry of the ['no-cache'] strategy: it has a time to live
    of 0, and a read one day later serves it from the cache, unstale,
    without queueing a revalidation and without evicting it. *)
Lemma C6_no_cache_entry_served_fresh :
  let '(r, h) :=
    MemoryCache.createCacheEntry "d"
      (DataTypes.mkCacheConfig (DataTypes.Named "no-cache") None) 0 [] in
  let st := MemoryCache.set "k" r MemoryCache.empty in
  exists entry,
    h !! r = Some entry
    /\ DataTypes.ttl entry = DataTypes.Finite 0
    /\ DataTypes.isStale entry = false
    /\ MemoryCache.get "k" 86400000 86400000 h st = (Some r, h, st)
    /\ MemoryCache.revalidationQueue st = ∅.
Proof. cbn. eexists. repeat split. Qed.

(* ===================================================================== *)
(** ** The cache: one revalidation pass at a time *)
(* ===================================================================== *)

Section Revalidation.
Import DataTypes MemoryCache.

Lemma filter_keys_NoDup {V} (f : string * V -> bool) (m : list (string * V)) :
  NoDup (JsMap.keys m) -> NoDup (JsMap.keys (List.filter f m)).
Proof.
  induction m as [| [k v] m IH]; simpl; intros Hnd; [exact Hnd |].
  apply NoDup_cons in Hnd. destruct Hnd as [Hk Hnd].
  destruct (f (k, v)); simpl; [| apply IH; exact Hnd].
  apply NoDup_cons. split; [| apply IH; exact Hnd].
  intros Hin. apply Hk. apply list_elem_of_In in Hin. apply list_elem_of_In.
  unfold JsMap.keys in *. apply in_map_iff in Hin. destruct Hin as ([k' v'] & Hfst & Hin).
  apply filter_In in Hin. destruct Hin as [Hin _].
  apply in_map_iff. exists (k', v'). split; assumption.
Qed.

Lemma toRevalidate_keys_NoDup ts h (m : list (string * Ref)) :
  NoDup (JsMap.keys m) -> NoDup (JsMap.keys (toRevalidate ts h m)).
Proof.
  destruct ts as [ts |]; simpl; [apply filter_keys_NoDup | tauto].
Qed.

(** A call that finds the flag set does nothing at all. *)
Lemma revalidate_in_flight ts h st :
  isRevalidating st = true -> revalidate ts h st = (st, [], false).
Proof. intros H. unfold revalidate. rewrite H. reflexivity. Qed.

(** A call that finds the flag clear sets it, leaves the entries alone
    and runs the callback once for each selected entry. *)
Lemma revalidate_starts ts h st :
  isRevalidating st = false ->
  exists st1,
    revalidate ts h st = (st1, JsMap.keys (toRevalidate ts h (cache st)), true)
    /\ isRevalidating st1 = true /\ cache st1 = cache st.
Proof.
  intros H. unfold revalidate. rewrite H. eexists. split; [reflexivity |].
  split; reflexivity.
Qed.

(** Reads, writes and removals leave the flag alone. *)
Lemma get_isRevalidating key now now' h st :
  isRevalidating (snd (get key now now' h st)) = isRevalidating st.
Proof.
  unfold get. destruct (JsMap.get key (cache st)) as [r |]; [| reflexivity].
  destruct (h !! r) as [entry |]; [| reflexivity].
  destruct (isExpired now entry); [reflexivity |].
  destruct (isStale now' entry); [| reflexivity].
  cbn [snd]. unfold queueRevalidation.
  destruct (decide (key ∈ revalidationQueue st)); reflexivity.
Qed.

Lemma started_flagCounts h h' st n ts :
  CacheSystem.flagCounts (CacheSystem.mkSystem h st n) ->
  CacheSystem.flagCounts (CacheSystem.started h' (revalidate ts h st) n).
Proof.
  intros [Hle Hiff]. cbn [CacheSystem.mem CacheSystem.inFlight] in *.
  unfold revalidate. destruct (isRevalidating st) eqn:E; cbn [CacheSystem.started].
  - split; [exact Hle | cbn [CacheSystem.mem CacheSystem.inFlight]; rewrite E; exact Hiff].
  - assert (n = 0%nat) as ->.
    { destruct n as [| n]; [reflexivity |]. assert (S n = 1%nat) as Hn by lia.
      apply Hiff in Hn. discriminate. }
    split; cbn [CacheSystem.mem CacheSystem.inFlight isRevalidating]; [lia | tauto].
Qed.

Lemma perform_flagCounts sys op :
  CacheSystem.flagCounts sys -> CacheSystem.flagCounts (CacheSystem.perform sys op).
Proof.
  destruct sys as [h st n]. intros Hinv.
  destruct op as [key now now' | entry | r entry | key r | key | | ts | |];
    cbn [CacheSystem.perform CacheSystem.heap CacheSystem.mem CacheSystem.inFlight].
  - pose proof (get_isRevalidating key now now' h st) as Hflag.
    destruct (get key now now' h st) as [[res h'] st']. cbn [snd] in Hflag.
    destruct Hinv as [Hle Hiff]. split; [exact Hle |].
    cbn [CacheSystem.mem CacheSystem.inFlight] in *. rewrite Hflag. exact Hiff.
  - exact Hinv.
  - exact Hinv.
  - exact Hinv.
  - exact Hinv.
  - exact Hinv.
  - apply started_flagCounts. exact Hinv.
  - destruct n as [| n]; [exact Hinv |].
    destruct Hinv as [Hle _]. cbn [CacheSystem.inFlight] in Hle.
    assert (n = 0%nat) as -> by lia.
    split; cbn [CacheSystem.mem CacheSystem.inFlight revalidateSettle isRevalidating];
      [lia | split; [discriminate | discriminate]].
  - unfold timerFires.
    destruct (decide (revalidationQueue st = ∅)).
    + cbn [CacheSystem.started]. exact Hinv.
    + apply (started_flagCounts h h
               (mkCache (cache st) (revalidationQueue st) (isRevalidating st)
                  (Nat.pred (timers st))) n None).
      exact Hinv.
Qed.

Lemma reachable_flagCounts sys :
  CacheSystem.reachable sys -> CacheSystem.flagCounts sys.
Proof.
  intros [ops ->]. induction ops as [| op ops IH] using rev_ind.
  - split; cbn; [lia | split; discriminate].
  - rewrite fold_left_app. cbn [fold_left]. apply perform_flagCounts. exact IH.
Qed.

End Revalidation.

(** C7.  In every state a cache reaches from empty, at most one call to
    [revalidate] is suspended, and the flag is set exactly then.  A call
    that finds the flag set returns at once: the state is unchanged, the
    per-entry callback runs for no key and nothing is left to await.  So
    when a second call arrives while the first is suspended, the callback
    has run, over both calls, exactly once for each selected key, these
    keys being distinct, and the stored entries are those from before the
    first call. *)
Theorem C7_revalidate_in_flight_is_noop :
  (forall sys : CacheSystem.System,
      CacheSystem.reachable sys ->
      (CacheSystem.inFlight sys <= 1)%nat
      /\ (MemoryCache.isRevalidating (CacheSystem.mem sys) = true
          <-> CacheSystem.inFlight sys = 1%nat))
  /\ (forall (h : DataTypes.Heap) (st : MemoryCache.State) (ts : option (list string)),
        MemoryCache.isRevalidating st = true ->
        MemoryCache.revalidate ts h st = (st, [], false))
  /\ (forall (h : DataTypes.Heap) (st : MemoryCache.State) (ts ts' : option (list string)),
        MemoryCache.isRevalidating st = false ->
        NoDup (JsMap.keys (MemoryCache.cache st)) ->
        let '(st1, ran1, _) := MemoryCache.revalidate ts h st in
        let '(st2, ran2, suspended2) := MemoryCache.revalidate ts' h st1 in
        MemoryCache.isRevalidating st1 = true
        /\ st2 = st1 /\ ran2 = [] /\ suspended2 = false
        /\ (ran1 ++ ran2)%list
           = JsMap.keys (MemoryCache.toRevalidate ts h (MemoryCache.cache st))
        /\ NoDup (ran1 ++ ran2)%list
        /\ MemoryCache.cache st2 = MemoryCache.cache st).
Proof.
  split; [| split].
  - intros sys Hreach. apply reachable_flagCounts. exact Hreach.
  - intros h st ts. apply revalidate_in_flight.
  - intros h st ts ts' Hidle Hnd.
    destruct (revalidate_starts ts h st Hidle) as (st1 & E1 & Hflag & Hcache).
    rewrite E1. rewrite (revalidate_in_flight ts' h st1 Hflag).
    rewrite app_nil_r.
    repeat split; try assumption.
    apply toRevalidate_keys_NoDup. exact Hnd.
Qed.

(** C7, witness: a cache of two entries, a pass started for the tag [t],
    then a second call before the first has settled. *)
Lemma C7_revalidate_in_flight_is_noop_witness :
  let a := DataTypes.mkEntry "1" 0 (DataTypes.Finite 1000) ["t"] false in
  let b := DataTypes.mkEntry "2" 0 (DataTypes.Finite 1000) [] false in
  let h := [a; b] in
  let st := MemoryCache.set "b" 1%nat (MemoryCache.set "a" 0%nat MemoryCache.empty) in
  let st1 := fst (fst (MemoryCache.revalidate (Some ["t"]) h st)) in
  let sys := fold_left CacheSystem.perform
               [CacheSystem.OpCreate a; CacheSystem.OpCreate b;
                CacheSystem.OpSet "a" 0%nat; CacheSystem.OpSet "b" 1%nat;
                CacheSystem.OpRevalidate (Some ["t"]); CacheSystem.OpRevalidate None]
               CacheSystem.initial in
  (CacheSystem.inFlight sys <= 1)%nat
  /\ MemoryCache.revalidate None h st1 = (st1, [], false)
  /\ (let '(st1, ran1, _) := MemoryCache.revalidate (Some ["t"]) h st in
      let '(st2, ran2, suspended2) := MemoryCache.revalidate None h st1 in
      MemoryCache.isRevalidating st1 = true
      /\ st2 = st1 /\ ran2 = [] /\ suspended2 = false
      /\ (ran1 ++ ran2)%list
         = JsMap.keys (MemoryCache.toRevalidate (Some ["t"]) h (MemoryCache.cache st))
      /\ NoDup (ran1 ++ ran2)%list
      /\ MemoryCache.cache st2 = MemoryCache.cache st).
Proof.
  intros a b h st st1 sys.
  destruct C7_revalidate_in_flight_is_noop as (Hone & Hnoop & Hpass).
  split; [| split].
  - apply (Hone sys). eexists. reflexivity.
  - apply Hnoop. reflexivity.
  - apply Hpass; [reflexivity |].
    simpl. apply NoDup_cons. split; [| apply NoDup_singleton].
    intros Hin. apply list_elem_of_singleton in Hin. discriminate.
Defined.

(* ===================================================================== *)
(** ** Registration and parse failures *)
(* ===================================================================== *)

Section Registration.
Import Router.

(** A call that throws leaves the tree as it found it. *)
Lemma addRoute_throw_unchanged cfg routeTree e :
  fst (addRoute cfg routeTree) = Throw e -> snd (addRoute cfg routeTree) = routeTree.
Proof.
  unfold addRoute. destruct (parseRoute (path cfg)); simpl; [discriminate | reflexivity].
Qed.

(** [addRoute] throws exactly when the parser does, with the parser's
    error. *)
Lemma addRoute_throw_iff cfg routeTree e :
  fst (addRoute cfg routeTree) = Throw e <-> parseRoute (path cfg) = Throw e.
Proof.
  unfold addRoute. destruct (parseRoute (path cfg)); simpl; split; congruence.
Qed.

(** The first failing element makes [mapM] fail. *)
Lemma mapM_throw {A B} (f : A -> Result B) (xs : list A) (x : A) (e : FullError) :
  In x xs -> f x = Throw e -> exists e', mapM f xs = Throw e'.
Proof.
  induction xs as [| y ys IH]; simpl; [tauto |].
  intros [-> | Hin] Hx.
  - rewrite Hx. simpl. eauto.
  - destruct (f y); simpl; [| eauto].
    destruct (IH Hin Hx) as [e' ->]. simpl. eauto.
Qed.

(** Unfolding equations of the matcher. *)
Lemma exec_plus (cl : Js.CharClass) (cap : bool) (re : list Js.Atom) (c : ascii) (s : string) :
  Js.exec (Js.mkAtom cl Js.Plus cap :: re) (String c s)
  = if Js.accepts cl c then
      match Js.exec (Js.mkAtom cl Js.Plus cap :: re) s with
      | Some r => Js.keep (Js.mkAtom cl Js.Plus cap) c (Some r)
      | None => Js.keep (Js.mkAtom cl Js.Plus cap) c (Js.exec re s)
      end
    else None.
Proof. reflexivity. Qed.

Lemma exec_plus_empty (cl : Js.CharClass) (cap : bool) (re : list Js.Atom) :
  Js.exec (Js.mkAtom cl Js.Plus cap :: re) EmptyString = None.
Proof. reflexivity. Qed.

Lemma exec_one (cl : Js.CharClass) (cap : bool) (re : list Js.Atom) (c : ascii) (s : string) :
  Js.exec (Js.mkAtom cl Js.One cap :: re) (String c s)
  = if Js.accepts cl c then Js.keep (Js.mkAtom cl Js.One cap) c (Js.exec re s) else None.
Proof. reflexivity. Qed.

(** [[^\]]+] followed by [\]] and the end: on a non-empty bracket-free
    name followed by one closing bracket, the name is captured. *)
Lemma exec_name_then_rbr (c : ascii) (name : string) :
  bracketFree (String c name) = true ->
  Js.exec [Js.mkAtom (Js.NotChr rbr) Js.Plus true; Js.mkAtom (Js.Chr rbr) Js.One false]
    (String c name ++ "]")
  = Some (String c name).
Proof.
  revert c. induction name as [| d name IH]; intros c Hfree.
  - simpl in Hfree. apply andb_prop in Hfree. destruct Hfree as [Hc _].
    change (String c "" ++ "]") with (String c "]").
    rewrite exec_plus. unfold Js.accepts at 1. rewrite Hc. reflexivity.
  - assert (Hfree' := Hfree). simpl in Hfree'.
    apply andb_prop in Hfree'. destruct Hfree' as [Hc Hrest].
    change (String c (String d name) ++ "]") with (String c (String d name ++ "]")).
    rewrite exec_plus. unfold Js.accepts at 1. rewrite Hc.
    rewrite IH by exact Hrest. reflexivity.
Qed.

(** A segment [[name]] with a non-empty bracket-free name is taken by the
    dynamic expression, whatever the other characters of the name. *)
Lemma exec_dynamic_brackets (c : ascii) (name : string) :
  bracketFree (String c name) = true ->
  Js.exec DYNAMIC_SEGMENT_REGEX (String lbr (String c name ++ "]")) = Some (String c name).
Proof.
  intros Hfree. unfold DYNAMIC_SEGMENT_REGEX. rewrite exec_one.
  change (Js.accepts (Js.Chr lbr) lbr) with true. cbv iota.
  unfold Js.keep at 1. cbv beta iota delta [Js.captured].
  apply exec_name_then_rbr. exact Hfree.
Qed.

(** Hence a name with a character outside [[A-Za-z0-9_]] makes the
    segment, and the registration of any path holding it, fail. *)
Lemma parseSegment_invalid_dynamic (c : ascii) (name : string) :
  bracketFree (String c name) = true ->
  Js.testNonWord (String c name) = true ->
  parseSegment (String lbr (String c name ++ "]")) = Throw (invalidName (String c name)).
Proof.
  intros Hfree Hbad. unfold parseSegment. rewrite exec_dynamic_brackets by exact Hfree.
  unfold createDynamicSegment, validateSegmentName.
  rewrite Hbad. rewrite orb_true_r. reflexivity.
Qed.

Lemma addRoute_invalid_dynamic cfg routeTree (c : ascii) (name : string) :
  In (String lbr (String c name ++ "]"))
     (Js.filterBoolean (Js.split "/"%char (path cfg))) ->
  bracketFree (String c name) = true ->
  Js.testNonWord (String c name) = true ->
  exists e, addRoute cfg routeTree = (Throw e, routeTree).
Proof.
  intros Hin Hfree Hbad.
  destruct (mapM_throw parseSegment _ _ _ Hin
              (parseSegment_invalid_dynamic c name Hfree Hbad)) as [e He].
  exists e. unfold addRoute, parseRoute. rewrite He. reflexivity.
Qed.

End Registration.

(* ===================================================================== *)
(** ** Optional segments *)
(* ===================================================================== *)

Section OptionalSegments.
Import Router Matcher.

Lemma walk_segment segs cfg node : segment (walk segs cfg node) = segment node.
Proof. destruct segs; reflexivity. Qed.

(** A route registered alone, with an optional segment in its pattern:
    below a node created for it, no path finds a match, because none of
    the three loops of [matchSegments] enters an optional child. *)
Lemma matchSegments_fresh_optional cfg :
  forall segs seg0 segments params score matches,
    (exists name pat, In (OptionalSegment name pat) segs) ->
    matchSegments (walk segs cfg (newChild seg0)) segments params score matches = matches.
Proof.
  induction segs as [| seg rest IH]; intros seg0 segments params score matches Hopt.
  - destruct Hopt as (name & pat & []).
  - assert (Hrest : (forall n p, seg <> OptionalSegment n p) ->
              exists name pat, In (OptionalSegment name pat) rest).
    { intros Hne. destruct Hopt as (name & pat & [Heq | Hin]); [| eauto].
      exfalso. exact (Hne name pat Heq). }
    destruct segments as [| s remaining]; [reflexivity |].
    cbn [walk newChild children JsMap.get JsMap.set matchSegments fold_left snd
         segment config node_middleware].
    rewrite walk_segment. cbn [segment newChild].
    destruct seg as [value | name pat | name | name pat]; cbn [fold_left].
    + destruct (String.eqb value s); [| reflexivity].
      apply IH. apply Hrest. discriminate.
    + apply IH. apply Hrest. discriminate.
    + apply IH. apply Hrest. discriminate.
    + reflexivity.
Qed.

Lemma optional_route_alone_never_matches cfg segs pathname :
  parseRoute (path cfg) = Ok segs ->
  (exists name pat, In (OptionalSegment name pat) segs) ->
  matchRoute pathname (snd (addRoute cfg emptyTree)) = None.
Proof.
  intros Hparse Hopt. unfold addRoute. rewrite Hparse. cbn [snd].
  unfold matchRoute.
  change emptyTree with (newChild (StaticSegment "")).
  rewrite matchSegments_fresh_optional by exact Hopt. reflexivity.
Qed.

End OptionalSegments.

(** C8, at the optional segment.  The pattern [/docs/[[lang]]] is parsed
    with a catch-all segment, not an optional one, so that [/docs] (the
    component absent) finds no match while [/docs/en/us] does; the only
    bracket form the parser turns into an optional segment is [[lang]]],
    and a route registered with it matches neither [/docs/en] nor [/docs]. *)
Theorem C8_optional_segment_not_matched :
  forall page mw grp,
    let doubled := mkConfig "/docs/[[lang]]" page mw grp in
    let lopsided := mkConfig "/docs/[lang]]" page mw grp in
    parseRoute (path doubled) = Ok [StaticSegment "docs"; CatchAllSegment "lang"]
    /\ Matcher.matchRoute "/docs" (snd (Router.addRoute doubled Router.emptyTree)) = None
    /\ Matcher.matchRoute "/docs/en/us" (snd (Router.addRoute doubled Router.emptyTree))
       = Some (mkMatch doubled {[ "lang" := "en/us" ]} 110)
    /\ parseRoute (path lopsided) = Ok [StaticSegment "docs"; OptionalSegment "lang" None]
    /\ Matcher.matchRoute "/docs/en" (snd (Router.addRoute lopsided Router.emptyTree)) = None
    /\ Matcher.matchRoute "/docs" (snd (Router.addRoute lopsided Router.emptyTree)) = None.
Proof. intros. repeat split; reflexivity. Qed.

(** C9, at the empty name.  The segment [[]] is matched by none of the
    three expressions, each of which wants a name of one character at
    least: it is parsed as a static segment, [addRoute] returns normally
    and the tree has a new node for it. *)
Theorem C9_empty_name_registers_static :
  forall page mw grp,
    let cfg := mkConfig "/[]" page mw grp in
    parseRoute (path cfg) = Ok [StaticSegment "[]"]
    /\ Router.addRoute cfg Router.emptyTree
       = (Ok tt,
          mkNode (StaticSegment "") None
            [("[]", mkNode (StaticSegment "[]") (Some cfg) []
                      (Router.routeMiddleware cfg))] [])
    /\ snd (Router.addRoute cfg Router.emptyTree) <> Router.emptyTree.
Proof. intros. repeat split; try reflexivity. discriminate. Qed.

(* ===================================================================== *)
(** ** Shape of the route tree *)
(* ===================================================================== *)

Section TreeShape.
Import Router.

Lemma jsmap_get_In {V} (m : list (string * V)) k v :
  JsMap.get k m = Some v -> In (k, v) m.
Proof.
  induction m as [| [k' v'] m IH]; simpl; [discriminate |].
  destruct (String.eqb k' k) eqn:E.
  - apply String.eqb_eq in E. intros H. inversion H; subst. left. reflexivity.
  - intros H. right. apply IH. exact H.
Qed.

Lemma jsmap_Forall_set {V} (P : string * V -> Prop) (m : list (string * V)) k v :
  Forall P m -> P (k, v) -> Forall P (JsMap.set k v m).
Proof.
  intros Hm Hkv. induction m as [| [k' v'] m IH]; simpl.
  - constructor; [exact Hkv | constructor].
  - inversion Hm as [| ? ? Hhd Htl]; subst.
    destruct (String.eqb k' k) eqn:E.
    + apply String.eqb_eq in E. subst k'. constructor; assumption.
    + constructor; [exact Hhd | apply IH; exact Htl].
Qed.

Lemma keyed_newChild seg : keyed (newChild seg).
Proof. constructor; [apply NoDup_nil_2 | constructor | constructor]. Qed.

Lemma keyed_emptyTree : keyed emptyTree.
Proof. constructor; [apply NoDup_nil_2 | constructor | constructor]. Qed.

Lemma keyed_walk segs cfg : forall t, keyed t -> keyed (walk segs cfg t).
Proof.
  induction segs as [| seg rest IH]; intros t Hk;
    inversion Hk as [s c ch mw Hnd Hkeys Hsub]; subst.
  - constructor; assumption.
  - cbn [walk segment config children node_middleware].
    assert (Hchild : exists child,
               match JsMap.get (key seg) ch with
               | Some child => child
               | None => newChild seg
               end = child
               /\ key (segment child) = key seg /\ keyed child).
    { destruct (JsMap.get (key seg) ch) as [child |] eqn:E.
      - exists child. split; [reflexivity |].
        apply jsmap_get_In in E.
        split.
        + apply (proj1 (List.Forall_forall _ _) Hkeys _ E).
        + apply (proj1 (List.Forall_forall _ _) Hsub _ E).
      - exists (newChild seg). split; [reflexivity |].
        split; [reflexivity | apply keyed_newChild]. }
    destruct Hchild as (child & -> & Hkey & Hkc).
    constructor.
    + apply jsmap_NoDup_set. exact Hnd.
    + apply jsmap_Forall_set; [exact Hkeys |]. simpl. rewrite walk_segment. exact Hkey.
    + apply jsmap_Forall_set; [exact Hsub |]. simpl. apply IH. exact Hkc.
Qed.

Lemma keyed_addRoute cfg t : keyed t -> keyed (snd (addRoute cfg t)).
Proof.
  intros Hk. unfold addRoute. destruct (parseRoute (path cfg)); simpl.
  - apply keyed_walk. exact Hk.
  - exact Hk.
Qed.

Lemma keyed_addRoutes cfgs : forall t, keyed t -> keyed (addRoutes cfgs t).
Proof.
  induction cfgs as [| cfg rest IH]; intros t Hk; simpl; [exact Hk |].
  apply IH. apply keyed_addRoute. exact Hk.
Qed.

Lemma keyed_inTree n t : inTree n t -> keyed t -> keyed n.
Proof.
  induction 1 as [| t k c Hin Hsub IH]; intros Hk; [exact Hk |].
  apply IH. inversion Hk as [s cf ch mw Hnd Hkeys Hch]; subst. simpl in Hin.
  apply (proj1 (List.Forall_forall _ _) Hch _ Hin).
Qed.

(** A segment whose type is one of the three tags is stored under it. *)
Lemma key_of_tagged seg ty :
  In ty typeTags -> type seg = ty -> key seg = ty.
Proof.
  intros Hty Htype. destruct seg; simpl in *; try exact Htype.
  subst ty. destruct Hty as [H | [H | [H | []]]]; discriminate.
Qed.

Lemma at_most_one_per_key (ty : string) (ch : list (string * RouteNode)) :
  In ty typeTags ->
  NoDup (JsMap.keys ch) ->
  Forall (fun kc => key (segment (snd kc)) = fst kc) ch ->
  (length (List.filter (fun kc => String.eqb (type (segment (snd kc))) ty) ch) <= 1)%nat.
Proof.
  intros Hty. induction ch as [| [k c] ch IH]; simpl; intros Hnd Hkeys; [lia |].
  apply NoDup_cons in Hnd. destruct Hnd as [Hk Hnd].
  inversion Hkeys as [| ? ? Hhd Htl]; subst. simpl in Hhd.
  destruct (String.eqb (type (segment c)) ty) eqn:E; [| apply IH; assumption].
  apply String.eqb_eq in E. pose proof (key_of_tagged _ _ Hty E) as Hkey.
  assert (Hnone : List.filter (fun kc => String.eqb (type (segment (snd kc))) ty) ch = []).
  { destruct (List.filter _ ch) as [| [k' c'] l] eqn:F; [reflexivity | exfalso].
    assert (Hin : In (k', c') (List.filter
               (fun kc => String.eqb (type (segment (snd kc))) ty) ch)).
    { rewrite F. left. reflexivity. }
    apply filter_In in Hin. destruct Hin as [Hin Hc']. simpl in Hc'.
    apply String.eqb_eq in Hc'.
    pose proof (proj1 (List.Forall_forall _ _) Htl _ Hin) as Hk'. simpl in Hk'.
    rewrite (key_of_tagged _ _ Hty Hc') in Hk'.
    apply Hk. apply list_elem_of_In. unfold JsMap.keys.
    apply in_map_iff. exists (k', c'). split; [simpl; congruence | exact Hin]. }
  rewrite Hnone. simpl. lia.
Qed.

Lemma keyed_at_most_one ty n :
  In ty typeTags -> keyed n -> (length (childrenOfType ty n) <= 1)%nat.
Proof.
  intros Hty Hk. inversion Hk as [s c ch mw Hnd Hkeys Hch]; subst.
  unfold childrenOfType. simpl. apply at_most_one_per_key; assumption.
Qed.

Lemma keyed_child_key n k c :
  keyed n -> In (k, c) (children n) -> k = key (segment c).
Proof.
  intros Hk Hin. inversion Hk as [s cf ch mw Hnd Hkeys Hch]; subst. simpl in Hin.
  symmetry. apply (proj1 (List.Forall_forall _ _) Hkeys _ Hin).
Qed.

End TreeShape.

(* ===================================================================== *)
(** ** Registering twice along the same keys *)
(* ===================================================================== *)

Section SecondRegistration.
Import Router.

Lemma nodeAt_walk segs cfg :
  forall t, nodeAt (List.map key segs) (walk segs cfg t)
            = Some (attach cfg (landing segs t)).
Proof.
  induction segs as [| seg rest IH]; intros t; [reflexivity |].
  cbn [List.map nodeAt walk children landing].
  rewrite jsmap_get_set_eq. apply IH.
Qed.

Lemma landing_existing segs :
  forall t n, nodeAt (List.map key segs) t = Some n -> landing segs t = n.
Proof.
  induction segs as [| seg rest IH]; intros t n; simpl.
  - congruence.
  - destruct (JsMap.get (key seg) (children t)) as [c |]; [apply IH | discriminate].
Qed.

Lemma landing_newChild segs :
  forall seg0 s, last (seg0 :: segs) = Some s -> landing segs (newChild seg0) = newChild s.
Proof.
  induction segs as [| seg rest IH]; intros seg0 s Hlast; simpl in *.
  - congruence.
  - apply IH. exact Hlast.
Qed.

Lemma landing_fresh segs :
  forall t s, last segs = Some s -> nodeAt (List.map key segs) t = None ->
              landing segs t = newChild s.
Proof.
  induction segs as [| seg rest IH]; intros t s Hlast Hnone; [discriminate |].
  cbn [List.map nodeAt landing] in *.
  destruct (JsMap.get (key seg) (children t)) as [c |].
  - destruct rest as [| seg' rest']; [discriminate |].
    apply IH; assumption.
  - apply landing_newChild. exact Hlast.
Qed.

(** Two registrations whose segments have the same keys end on the same
    node: the second finds the node the first ended on. *)
Lemma second_registration t cfg1 cfg2 segs1 segs2 :
  List.map key segs1 = List.map key segs2 ->
  nodeAt (List.map key segs2) (walk segs2 cfg2 (walk segs1 cfg1 t))
  = Some (attach cfg2 (attach cfg1 (landing segs1 t))).
Proof.
  intros Hkeys. rewrite nodeAt_walk. f_equal. f_equal.
  apply landing_existing. rewrite <- Hkeys. apply nodeAt_walk.
Qed.

(** The parameter name of later matches is the one registered first. *)
Lemma first_name_binds_later_matches page :
  let first := mkConfig "/users/[id]" page None None in
  let second := mkConfig "/users/[name]" page None None in
  Matcher.matchRoute "/users/42" (addRoutes [first; second] emptyTree)
  = Some (mkMatch second {[ "id" := "42" ]} 150).
Proof. reflexivity. Qed.

End SecondRegistration.

(** C10.  In every tree built by [addRoute] from the router's initial tree,
    every node has at most one child of each of the types dynamic, optional
    and catch-all, and such a child is stored under its type tag.  When two
    configurations are registered whose segments have the same keys, the
    second ends on the node of the first: that node then holds the second
    configuration, keeps its segment, and has the middleware of the second
    appended after that of the first; if the first registration created the
    node, its segment is the last segment of the first pattern. *)
Theorem C10_one_child_per_kind_last_config_wins :
  (forall (cfgs : list RouteConfig) (n : RouteNode),
      inTree n (Router.addRoutes cfgs Router.emptyTree) ->
      (forall ty, In ty typeTags -> (length (childrenOfType ty n) <= 1)%nat)
      /\ (forall k c, In (k, c) (children n) ->
                      In (type (segment c)) typeTags -> k = type (segment c)))
  /\ (forall (t : RouteNode) (cfg1 cfg2 : RouteConfig) (segs1 segs2 : list RouteSegment),
        parseRoute (path cfg1) = Ok segs1 ->
        parseRoute (path cfg2) = Ok segs2 ->
        List.map Router.key segs1 = List.map Router.key segs2 ->
        let t1 := snd (Router.addRoute cfg1 t) in
        let t2 := snd (Router.addRoute cfg2 t1) in
        exists n1 n2,
          nodeAt (List.map Router.key segs1) t1 = Some n1
          /\ nodeAt (List.map Router.key segs2) t2 = Some n2
          /\ config n1 = Some cfg1
          /\ config n2 = Some cfg2
          /\ segment n2 = segment n1
          /\ node_middleware n2
             = (node_middleware n1 ++ Router.routeMiddleware cfg2)%list
          /\ node_middleware n1
             = (node_middleware (landing segs1 t) ++ Router.routeMiddleware cfg1)%list
          /\ (forall s1, last segs1 = Some s1 ->
                nodeAt (List.map Router.key segs1) t = None ->
                segment n2 = s1
                /\ node_middleware n2
                   = (Router.routeMiddleware cfg1 ++ Router.routeMiddleware cfg2)%list)).
Proof.
  split.
  - intros cfgs n Hin.
    assert (Hk : keyed n).
    { apply (keyed_inTree n _ Hin). apply keyed_addRoutes. apply keyed_emptyTree. }
    split.
    + intros ty Hty. apply keyed_at_most_one; assumption.
    + intros k c Hc Hty. rewrite (keyed_child_key n k c Hk Hc).
      apply key_of_tagged with (ty := type (segment c)); [exact Hty | reflexivity].
  - intros t cfg1 cfg2 segs1 segs2 Hp1 Hp2 Hkeys t1 t2.
    subst t1 t2. unfold Router.addRoute. rewrite Hp1. cbn [snd]. rewrite Hp2. cbn [snd].
    exists (Router.attach cfg1 (landing segs1 t)),
           (Router.attach cfg2 (Router.attach cfg1 (landing segs1 t))).
    split; [apply nodeAt_walk |].
    split; [apply second_registration; exact Hkeys |].
    repeat split.
    + rewrite (landing_fresh segs1 t s1) by assumption. reflexivity.
    + rewrite (landing_fresh segs1 t s1) by assumption. reflexivity.
Qed.

(** C10, witness: [/users/[id]] then [/users/[name]] on the initial tree. *)
Lemma C10_one_child_per_kind_last_config_wins_witness :
  let first := mkConfig "/users/[id]" None
                 (Some [mkMiddleware "audit" passThrough None]) None in
  let second := mkConfig "/users/[name]" None
                  (Some [mkMiddleware "auth" passThrough None]) None in
  let t2 := Router.addRoutes [first; second] Router.emptyTree in
  (length (childrenOfType "dynamic" t2) <= 1)%nat
  /\ exists n1 n2,
       nodeAt ["users"; "dynamic"] (Router.addRoutes [first] Router.emptyTree) = Some n1
       /\ nodeAt ["users"; "dynamic"] t2 = Some n2
       /\ config n2 = Some second
       /\ segment n2 = DynamicSegment "id" None
       /\ List.map mw_name (node_middleware n2) = ["audit"; "auth"].
Proof.
  intros first second t2.
  destruct C10_one_child_per_kind_last_config_wins as [Hshape Hsecond].
  split.
  - apply (Hshape [first; second] t2); [apply inTree_here |]. simpl. tauto.
  - destruct (Hsecond Router.emptyTree first second
                [StaticSegment "users"; DynamicSegment "id" None]
                [StaticSegment "users"; DynamicSegment "name" None]
                eq_refl eq_refl eq_refl)
      as (n1 & n2 & H1 & H2 & _ & Hc2 & Hseg & _ & _ & Hnew).
    exists n1, n2.
    destruct (Hnew (DynamicSegment "id" None) eq_refl eq_refl) as [Hs Hmw].
    split; [exact H1 |]. split; [exact H2 |]. split; [exact Hc2 |].
    split; [exact Hs |]. rewrite Hmw. reflexivity.
Defined.

(* ===================================================================== *)
(** ** Static routes against dynamic routes *)
(* ===================================================================== *)

(** The example of the specification: with [/users/[id]] and [/users/me]
    registered, in either order, [/users/me] selects the static route with
    the score 200 and binds nothing. *)
Lemma static_me_beats_dynamic_id page :
  let dyn := mkConfig "/users/[id]" page None None in
  let me := mkConfig "/users/me" page None None in
  Matcher.matchRoute "/users/me" (Router.addRoutes [dyn; me] Router.emptyTree)
  = Some (mkMatch me ∅ 200)
  /\ Matcher.matchRoute "/users/me" (Router.addRoutes [me; dyn] Router.emptyTree)
     = Some (mkMatch me ∅ 200)
  /\ Matcher.matchSegments (Router.addRoutes [dyn; me] Router.emptyTree)
       ["users"; "me"] ∅ 0 []
     = [mkMatch me ∅ 200; mkMatch dyn {[ "id" := "me" ]} 150].
Proof. repeat split; reflexivity. Qed.

(** C4, at a static literal that is also a type tag.  A static segment
    [dynamic] has the key ["dynamic"], the key of every dynamic segment.
    With [/users/[id]] registered first, [/users/dynamic] is attached to the
    dynamic node: matching [/users/dynamic] then goes through the dynamic
    branch, binds [id] to ["dynamic"] and scores 150.  Registered the other
    way round, the dynamic route is attached to the static node and
    [/users/42] has no match. *)
Theorem C4_static_literal_equal_to_type_tag :
  forall page mw grp,
    let dyn := mkConfig "/users/[id]" page mw grp in
    let stat := mkConfig "/users/dynamic" page mw grp in
    parseRoute (path stat) = Ok [StaticSegment "users"; StaticSegment "dynamic"]
    /\ parseRoute (path dyn) = Ok [StaticSegment "users"; DynamicSegment "id" None]
    /\ Matcher.matchRoute "/users/dynamic"
         (Router.addRoutes [dyn; stat] Router.emptyTree)
       = Some (mkMatch stat {[ "id" := "dynamic" ]} 150)
    /\ Matcher.matchRoute "/users/dynamic"
         (Router.addRoutes [stat; dyn] Router.emptyTree)
       = Some (mkMatch dyn ∅ 200)
    /\ Matcher.matchRoute "/users/42"
         (Router.addRoutes [stat; dyn] Router.emptyTree) = None.
Proof. intros. repeat split; reflexivity. Qed.

(* ===================================================================== *)
(** ** The matcher and its candidates *)
(* ===================================================================== *)

Section Candidates.
Import Router Matcher.

(** Induction on route trees, with the hypothesis for every child. *)
Lemma RouteNode_children_ind (P : RouteNode -> Prop) :
  (forall s c ch mw, Forall (fun kc => P (snd kc)) ch -> P (mkNode s c ch mw)) ->
  forall n, P n.
Proof.
  intros Hnode. fix IH 1. intros [s c ch mw]. apply Hnode.
  induction ch as [| [k x] ch IHch]; constructor; [apply IH | exact IHch].
Qed.

Lemma fold_left_factor {A B} (g : list B -> A -> list B) (l : list A) :
  (forall x, In x l -> forall acc, g acc x = (acc ++ g [] x)%list) ->
  forall acc, fold_left g l acc = (acc ++ flat_map (g []) l)%list.
Proof.
  induction l as [| x l IH]; intros Hg acc; simpl.
  - rewrite app_nil_r. reflexivity.
  - rewrite IH by (intros y Hy; apply Hg; right; exact Hy).
    rewrite (Hg x (or_introl eq_refl) acc). rewrite <- app_assoc. reflexivity.
Qed.

(** The matches found are appended to the accumulator. *)
Lemma matchSegments_acc :
  forall node segments params score acc,
    matchSegments node segments params score acc
    = (acc ++ matchSegments node segments params score [])%list.
Proof.
  induction node as [s c ch mw IH] using RouteNode_children_ind.
  intros segments params score acc.
  destruct segments as [| seg rest].
  - simpl. destruct c; [reflexivity | rewrite app_nil_r; reflexivity].
  - cbn [matchSegments children].
    rewrite (fold_left_factor _ ch) with (acc := acc).
    2:{ intros [k x] Hx acc'. cbn [snd].
        pose proof (proj1 (List.Forall_forall _ _) IH _ Hx) as IHx. cbn [snd] in IHx.
        destruct (segment x); try (rewrite app_nil_r; reflexivity).
        destruct (String.eqb value seg); [apply IHx | rewrite app_nil_r; reflexivity]. }
    rewrite (fold_left_factor _ ch) with (acc := (acc ++ _)%list).
    2:{ intros [k x] Hx acc'. cbn [snd].
        pose proof (proj1 (List.Forall_forall _ _) IH _ Hx) as IHx. cbn [snd] in IHx.
        destruct (segment x); try (rewrite app_nil_r; reflexivity). apply IHx. }
    rewrite (fold_left_factor _ ch) with (acc := ((acc ++ _) ++ _)%list).
    2:{ intros [k x] Hx acc'. cbn [snd].
        pose proof (proj1 (List.Forall_forall _ _) IH _ Hx) as IHx. cbn [snd] in IHx.
        destruct (segment x); try (rewrite app_nil_r; reflexivity). apply IHx. }
    rewrite (fold_left_factor _ ch) with (acc := @nil RouteMatch).
    2:{ intros [k x] Hx acc'. cbn [snd].
        pose proof (proj1 (List.Forall_forall _ _) IH _ Hx) as IHx. cbn [snd] in IHx.
        destruct (segment x); try (rewrite app_nil_r; reflexivity).
        destruct (String.eqb value seg); [apply IHx | rewrite app_nil_r; reflexivity]. }
    rewrite (fold_left_factor _ ch) with (acc := ([] ++ _)%list).
    2:{ intros [k x] Hx acc'. cbn [snd].
        pose proof (proj1 (List.Forall_forall _ _) IH _ Hx) as IHx. cbn [snd] in IHx.
        destruct (segment x); try (rewrite app_nil_r; reflexivity). apply IHx. }
    rewrite (fold_left_factor _ ch) with (acc := (([] ++ _) ++ _)%list).
    2:{ intros [k x] Hx acc'. cbn [snd].
        pose proof (proj1 (List.Forall_forall _ _) IH _ Hx) as IHx. cbn [snd] in IHx.
        destruct (segment x); try (rewrite app_nil_r; reflexivity). apply IHx. }
    simpl. rewrite <- !app_assoc. reflexivity.
Qed.

(** The result for a non-empty path: the static candidates of all
    children, then the dynamic ones, then the catch-all ones. *)
Lemma matchSegments_cons node seg rest params score :
  matchSegments node (seg :: rest) params score []
  = (flat_map (staticStep seg rest params score) (children node)
     ++ flat_map (dynamicStep seg rest params score) (children node)
     ++ flat_map (catchAllStep (seg :: rest) params score) (children node))%list.
Proof.
  destruct node as [s c ch mw]. cbn [matchSegments children].
  rewrite (fold_left_factor _ ch) with (acc := @nil RouteMatch).
  2:{ intros [k x] Hx acc'. cbn [snd].
      destruct (segment x); try (rewrite app_nil_r; reflexivity).
      destruct (String.eqb value seg); [apply matchSegments_acc | rewrite app_nil_r; reflexivity]. }
  rewrite (fold_left_factor _ ch) with (acc := ([] ++ _)%list).
  2:{ intros [k x] Hx acc'. cbn [snd].
      destruct (segment x); try (rewrite app_nil_r; reflexivity). apply matchSegments_acc. }
  rewrite (fold_left_factor _ ch) with (acc := (([] ++ _) ++ _)%list).
  2:{ intros [k x] Hx acc'. cbn [snd].
      destruct (segment x); try (rewrite app_nil_r; reflexivity). apply matchSegments_acc. }
  simpl. rewrite <- app_assoc. reflexivity.
Qed.

(** [matchSegments] finds the candidates, and nothing else. *)
Lemma matchSegments_sound :
  forall node segments params score m,
    In m (matchSegments node segments params score []) ->
    candidate node segments params score m.
Proof.
  induction node as [s c ch mw IH] using RouteNode_children_ind.
  intros segments params score m Hin.
  destruct segments as [| seg rest].
  - simpl in Hin. destruct c as [cfg |]; [| destruct Hin].
    destruct Hin as [<- | []]. apply candidate_end. reflexivity.
  - rewrite matchSegments_cons in Hin. cbn [children] in Hin.
    apply in_app_or in Hin. destruct Hin as [Hin | Hin];
      [| apply in_app_or in Hin; destruct Hin as [Hin | Hin]];
      apply in_flat_map in Hin; destruct Hin as ([k x] & Hx & Hm);
      pose proof (proj1 (List.Forall_forall _ _) IH _ Hx) as IHx; cbn [snd] in IHx.
    + unfold staticStep in Hm. cbn [snd] in Hm.
      destruct (segment x) as [value | | |] eqn:Hseg; try destruct Hm.
      destruct (String.eqb value seg) eqn:E; [| destruct Hm].
      apply String.eqb_eq in E. subst value.
      eapply candidate_static; [exact Hx | exact Hseg | apply IHx; exact Hm].
    + unfold dynamicStep in Hm. cbn [snd] in Hm.
      destruct (segment x) as [| name pat | |] eqn:Hseg; try destruct Hm.
      eapply candidate_dynamic; [exact Hx | exact Hseg | apply IHx; exact Hm].
    + unfold catchAllStep in Hm. cbn [snd] in Hm.
      destruct (segment x) as [| | name |] eqn:Hseg; try destruct Hm.
      eapply candidate_catchAll; [exact Hx | exact Hseg | apply IHx; exact Hm].
Qed.

Lemma matchSegments_complete :
  forall node segments params score m,
    candidate node segments params score m ->
    In m (matchSegments node segments params score []).
Proof.
  intros node segments params score m Hc.
  induction Hc as [node params score cfg Hcfg
                  | node seg rest params score k child m Hin Hseg Hc IH
                  | node seg rest params score k child name pat m Hin Hseg Hc IH
                  | node seg rest params score k child name m Hin Hseg Hc IH].
  - destruct node as [s c ch mw]. simpl in *. subst c. left. reflexivity.
  - rewrite matchSegments_cons. apply in_or_app. left.
    apply in_flat_map. exists (k, child). split; [exact Hin |].
    unfold staticStep. cbn [snd]. rewrite Hseg, String.eqb_refl. exact IH.
  - rewrite matchSegments_cons. apply in_or_app. right. apply in_or_app. left.
    apply in_flat_map. exists (k, child). split; [exact Hin |].
    unfold dynamicStep. cbn [snd]. rewrite Hseg. exact IH.
  - rewrite matchSegments_cons. apply in_or_app. right. apply in_or_app. right.
    apply in_flat_map. exists (k, child). split; [exact Hin |].
    unfold catchAllStep. cbn [snd]. rewrite Hseg. exact IH.
Qed.

(** No candidate scores more than 100 per segment of the path. *)
Lemma candidate_score_le node segments params score m :
  candidate node segments params score m ->
  Types.score m <= score + 100 * Z.of_nat (length segments).
Proof.
  induction 1; cbn [length Types.score] in *; lia.
Qed.

Lemma jsmap_In_get {V} (m : list (string * V)) k v :
  NoDup (JsMap.keys m) -> In (k, v) m -> JsMap.get k m = Some v.
Proof.
  induction m as [| [k' v'] m IH]; simpl; intros Hnd Hin; [destruct Hin |].
  apply NoDup_cons in Hnd. destruct Hnd as [Hk Hnd].
  destruct Hin as [Heq | Hin].
  - inversion Heq; subst. rewrite String.eqb_refl. reflexivity.
  - destruct (String.eqb k' k) eqn:E; [| apply IH; assumption].
    apply String.eqb_eq in E. subst k'. exfalso. apply Hk.
    apply list_elem_of_In. unfold JsMap.keys. apply in_map_iff.
    exists (k, v). split; [reflexivity | exact Hin].
Qed.

(** In a tree of the shape [addRoute] maintains, a candidate that scores
    100 for every segment went through static children only: it binds
    nothing and its route is the one configured at the end of the static
    path. *)
Lemma candidate_full_score_static node segments params score m :
  candidate node segments params score m ->
  keyed node ->
  Types.score m = score + 100 * Z.of_nat (length segments) ->
  Types.params m = params
  /\ exists n, staticAt segments node = Some n /\ config n = Some (route m).
Proof.
  induction 1 as [node params score cfg Hcfg
                 | node seg rest params score k child m Hin Hseg Hc IH
                 | node seg rest params score k child name pat m Hin Hseg Hc IH
                 | node seg rest params score k child name m Hin Hseg Hc IH];
    intros Hk Hscore.
  - split; [reflexivity |]. exists node. split; [reflexivity | exact Hcfg].
  - inversion Hk as [s c ch mw Hnd Hkeys Hsub]; subst. cbn [children] in Hin.
    pose proof (proj1 (List.Forall_forall _ _) Hkeys _ Hin) as Hkey.
    pose proof (proj1 (List.Forall_forall _ _) Hsub _ Hin) as Hkc.
    cbn [fst snd] in Hkey, Hkc. rewrite Hseg in Hkey. cbn [key] in Hkey. subst k.
    destruct IH as (Hp & n & Hn & Hcfg); [exact Hkc | cbn [length] in Hscore; lia |].
    split; [exact Hp |]. exists n. split; [| exact Hcfg].
    cbn [staticAt children]. rewrite (jsmap_In_get _ _ _ Hnd Hin). rewrite Hseg. exact Hn.
  - apply candidate_score_le in Hc. cbn [length] in Hscore. lia.
  - apply candidate_score_le in Hc. cbn [length] in *. lia.
Qed.

(** Conversely the end of a static path, when configured, is a candidate
    with the full score and the parameters untouched. *)
Lemma staticAt_candidate :
  forall vs node n c params score,
    keyed node -> staticAt vs node = Some n -> config n = Some c ->
    candidate node vs params score
      (mkMatch c params (score + 100 * Z.of_nat (length vs))).
Proof.
  induction vs as [| v vs IH]; intros node n c params score Hk Hn Hc.
  - simpl in Hn. inversion Hn; subst.
    replace (score + 100 * Z.of_nat (length (@nil string))) with score by (simpl; lia).
    apply candidate_end. exact Hc.
  - cbn [staticAt] in Hn.
    destruct (JsMap.get v (children node)) as [child |] eqn:E; [| discriminate].
    destruct (segment child) as [value | | |] eqn:Hseg; try discriminate.
    inversion Hk as [s cf ch mw Hnd Hkeys Hsub]; subst. cbn [children] in E.
    apply jsmap_get_In in E.
    pose proof (proj1 (List.Forall_forall _ _) Hkeys _ E) as Hkey.
    pose proof (proj1 (List.Forall_forall _ _) Hsub _ E) as Hkc.
    cbn [fst snd] in Hkey, Hkc. rewrite Hseg in Hkey. cbn [key] in Hkey. subst value.
    eapply candidate_static; [exact E | exact Hseg |].
    replace (score + 100 * Z.of_nat (length (v :: vs)))
      with ((score + 100) + 100 * Z.of_nat (length vs)) by (cbn [length]; lia).
    eapply IH; eassumption.
Qed.

End Candidates.

(* ===================================================================== *)
(** ** The best match, and where configurations end up *)
(* ===================================================================== *)

Section BestMatch.
Import Router Matcher.

Lemma head_insertByScore m sorted :
  head (insertByScore m sorted)
  = Some (match head sorted with
          | None => m
          | Some x => if score x - score m <=? 0 then m else x
          end).
Proof.
  destruct sorted as [| x rest]; simpl; [reflexivity |].
  destruct (score x - score m <=? 0); reflexivity.
Qed.

(** The head of the sorted array is an element of greatest score. *)
Lemma head_sortByScore_max (l : list RouteMatch) :
  l <> [] ->
  exists h, head (sortByScore l) = Some h /\ In h l
            /\ forall m, In m l -> score m <= score h.
Proof.
  induction l as [| m l IH]; intros Hne; [congruence |].
  cbn [sortByScore fold_right]. fold (sortByScore l). rewrite head_insertByScore.
  destruct l as [| m' l'].
  - simpl. exists m. split; [reflexivity |]. split; [left; reflexivity |].
    intros x [<- | []]. lia.
  - destruct IH as (h & Hh & Hin & Hmax); [discriminate |].
    rewrite Hh. destruct (Z.leb_spec (score h - score m) 0) as [Hle | Hgt].
    + exists m. split; [reflexivity |]. split; [left; reflexivity |].
      intros x [<- | Hx]; [lia |]. specialize (Hmax x Hx). lia.
    + exists h. split; [reflexivity |]. split; [right; exact Hin |].
      intros x [<- | Hx]; [lia |]. apply Hmax. exact Hx.
Qed.

Lemma configAt_newChild ks seg : configAt ks (newChild seg) = None.
Proof. destruct ks; reflexivity. Qed.

(** After a walk, the configuration found along a path of keys is the new
    one on the keys of the walk and the old one everywhere else. *)
Lemma configAt_walk segs cfg :
  forall ks t,
    configAt ks (walk segs cfg t)
    = if decide (ks = List.map key segs) then Some cfg else configAt ks t.
Proof.
  induction segs as [| seg rest IH]; intros ks t.
  - destruct ks as [| k ks]; simpl; [reflexivity |].
    destruct t as [s c ch mw]. reflexivity.
  - destruct ks as [| k ks].
    + destruct t as [s c ch mw]. reflexivity.
    + unfold configAt in *. cbn [List.map nodeAt walk children].
      destruct (String.eqb (key seg) k) eqn:E.
      * apply String.eqb_eq in E. subst k. rewrite jsmap_get_set_eq.
        specialize (IH ks).
        destruct (JsMap.get (key seg) (children t)) as [child |] eqn:G.
        -- rewrite IH. destruct (decide (ks = List.map key rest)) as [-> | Hne].
           ++ rewrite decide_True by reflexivity. reflexivity.
           ++ rewrite decide_False by congruence. reflexivity.
        -- rewrite IH. fold (configAt ks (newChild seg)). rewrite configAt_newChild.
           destruct (decide (ks = List.map key rest)) as [-> | Hne].
           ++ rewrite decide_True by reflexivity. reflexivity.
           ++ rewrite decide_False by congruence. reflexivity.
      * apply String.eqb_neq in E. rewrite jsmap_get_set_ne by exact E.
        rewrite decide_False by congruence. reflexivity.
Qed.

Lemma configAt_addRoute cfg t ks :
  configAt ks (snd (addRoute cfg t))
  = match parseRoute (path cfg) with
    | Ok segs => if decide (ks = List.map key segs) then Some cfg else configAt ks t
    | Throw _ => configAt ks t
    end.
Proof.
  unfold addRoute. destruct (parseRoute (path cfg)); cbn [snd];
    [apply configAt_walk | reflexivity].
Qed.

(** Every configuration found in a tree built by [addRoutes] was
    registered, and sits at the keys of its own parsed pattern. *)
Lemma configAt_addRoutes_registered cfgs :
  forall t ks c,
    configAt ks (addRoutes cfgs t) = Some c ->
    configAt ks t = Some c
    \/ (In c cfgs /\ exists segs, parseRoute (path c) = Ok segs /\ List.map key segs = ks).
Proof.
  induction cfgs as [| cfg rest IH]; intros t ks c Hc; [left; exact Hc |].
  cbn [addRoutes fold_left] in Hc. fold (addRoutes rest (snd (addRoute cfg t))) in Hc.
  destruct (IH _ _ _ Hc) as [Hprev | (Hin & segs & Hp & Hk)].
  - rewrite configAt_addRoute in Hprev.
    destruct (parseRoute (path cfg)) as [segs |] eqn:Hp; [| left; exact Hprev].
    destruct (decide (ks = List.map key segs)) as [-> | Hne]; [| left; exact Hprev].
    inversion Hprev; subst. right. split; [left; reflexivity | eauto].
  - right. split; [right; exact Hin | eauto].
Qed.

(** A registered pattern keeps a configuration at its keys, whatever is
    registered afterwards. *)
Lemma configAt_addRoutes_kept cfgs :
  forall t ks, is_Some (configAt ks t) -> is_Some (configAt ks (addRoutes cfgs t)).
Proof.
  induction cfgs as [| cfg rest IH]; intros t ks Hs; [exact Hs |].
  cbn [addRoutes fold_left]. fold (addRoutes rest (snd (addRoute cfg t))).
  apply IH. rewrite configAt_addRoute.
  destruct (parseRoute (path cfg)) as [segs |]; [| exact Hs].
  destruct (decide (ks = List.map key segs)); [eauto | exact Hs].
Qed.

Lemma configAt_addRoutes_present cfgs :
  forall t cfg segs,
    In cfg cfgs -> parseRoute (path cfg) = Ok segs ->
    is_Some (configAt (List.map key segs) (addRoutes cfgs t)).
Proof.
  induction cfgs as [| cfg0 rest IH]; intros t cfg segs Hin Hp; [destruct Hin |].
  cbn [addRoutes fold_left]. fold (addRoutes rest (snd (addRoute cfg0 t))).
  destruct Hin as [-> | Hin]; [| eapply IH; eassumption].
  apply configAt_addRoutes_kept. rewrite configAt_addRoute, Hp.
  rewrite decide_True by reflexivity. eauto.
Qed.

(** A segment whose key is not a type tag is the static segment of that
    value. *)
Lemma key_not_tag_static seg :
  ~ In (key seg) typeTags -> seg = StaticSegment (key seg).
Proof.
  destruct seg; simpl; intros Hn; try reflexivity; exfalso; apply Hn; tauto.
Qed.

Lemma keys_not_tags_static segs vs :
  List.map key segs = vs -> (forall v, In v vs -> ~ In v typeTags) ->
  segs = List.map StaticSegment vs.
Proof.
  revert vs. induction segs as [| seg rest IH]; intros vs Hk Hfree; subst vs; [reflexivity |].
  cbn [List.map]. f_equal.
  - apply key_not_tag_static. apply Hfree. left. reflexivity.
  - apply IH; [reflexivity |]. intros v Hv. apply Hfree. right. exact Hv.
Qed.

(** Along keys that are not type tags, the nodes of a well-shaped tree are
    static nodes. *)
Lemma keyed_nodeAt_static vs :
  forall t n, keyed t -> (forall v, In v vs -> ~ In v typeTags) ->
              nodeAt vs t = Some n -> staticAt vs t = Some n.
Proof.
  induction vs as [| v vs IH]; intros t n Hk Hfree Hn; [exact Hn |].
  cbn [nodeAt staticAt] in *.
  destruct (JsMap.get v (children t)) as [c |] eqn:E; [| discriminate].
  inversion Hk as [s cf ch mw Hnd Hkeys Hsub]; subst. cbn [children] in E.
  apply jsmap_get_In in E.
  pose proof (proj1 (List.Forall_forall _ _) Hkeys _ E) as Hkey.
  pose proof (proj1 (List.Forall_forall _ _) Hsub _ E) as Hkc.
  cbn [fst snd] in Hkey, Hkc.
  rewrite (key_not_tag_static (segment c)).
  - apply IH; [exact Hkc | | exact Hn]. intros x Hx. apply Hfree. right. exact Hx.
  - rewrite Hkey. apply Hfree. left. reflexivity.
Qed.

(** A component parsed as static is the component itself. *)
Lemma parseSegment_static s v : parseSegment s = Ok (StaticSegment v) -> v = s.
Proof.
  unfold parseSegment, createDynamicSegment, createCatchAllSegment,
    createOptionalSegment, createStaticSegment.
  destruct (Js.exec DYNAMIC_SEGMENT_REGEX s) as [n |].
  { destruct (validateSegmentName n); simpl; [discriminate | discriminate]. }
  destruct (Js.exec CATCH_ALL_SEGMENT_REGEX s) as [n |].
  { destruct (validateSegmentName n); simpl; [discriminate | discriminate]. }
  destruct (Js.exec OPTIONAL_SEGMENT_REGEX s) as [n |].
  { destruct (validateSegmentName n); simpl; [discriminate | discriminate]. }
  intros H. inversion H. reflexivity.
Qed.

Lemma mapM_parseSegment_static :
  forall l vs, mapM parseSegment l = Ok (List.map StaticSegment vs) -> l = vs.
Proof.
  induction l as [| s l IH]; intros vs H.
  - destruct vs; [reflexivity | discriminate].
  - cbn [mapM] in H. destruct (parseSegment s) as [seg |] eqn:Hs; [| discriminate].
    cbn [bind] in H. destruct (mapM parseSegment l) as [segs |] eqn:Hl; [| discriminate].
    cbn [bind] in H. destruct vs as [| v vs]; [discriminate |].
    inversion H; subst. apply parseSegment_static in Hs. subst v.
    f_equal. apply IH. reflexivity.
Qed.

End BestMatch.

(** When no component of a registered static pattern is one of the type
    tags, matching the pattern's own path selects a static route registered
    for these components, with 100 points per component and no parameter
    bound, and every other candidate scores strictly less. *)
Lemma static_route_preferred :
  forall (cfgs : list RouteConfig) (cfg : RouteConfig) (vs : list string),
    In cfg cfgs ->
    parseRoute (path cfg) = Ok (List.map StaticSegment vs) ->
    (forall v, In v vs -> ~ In v typeTags) ->
    let t := Router.addRoutes cfgs Router.emptyTree in
    let full := 100 * Z.of_nat (length vs) in
    exists c,
      In c cfgs
      /\ parseRoute (path c) = Ok (List.map StaticSegment vs)
      /\ Matcher.matchRoute (path cfg) t = Some (mkMatch c ∅ full)
      /\ forall m, In m (Matcher.matchSegments t vs ∅ 0 []) ->
                   m <> mkMatch c ∅ full -> score m < full.
Proof.
  intros cfgs cfg vs Hin Hparse Hfree t full.
  assert (Hsplit : Js.filterBoolean (Js.split "/"%char (path cfg)) = vs).
  { apply mapM_parseSegment_static. exact Hparse. }
  assert (Hkeys : List.map Router.key (List.map StaticSegment vs) = vs).
  { rewrite List.map_map. apply List.map_id. }
  assert (Hk : keyed t) by (apply keyed_addRoutes, keyed_emptyTree).
  destruct (configAt_addRoutes_present cfgs Router.emptyTree cfg _ Hin Hparse) as [c Hc].
  rewrite Hkeys in Hc. fold t in Hc.
  destruct (configAt_addRoutes_registered cfgs _ _ _ Hc)
    as [Hroot | (Hcin & segs & Hp & Hsegs)].
  { change Router.emptyTree with (Router.newChild (StaticSegment "")) in Hroot.
    rewrite configAt_newChild in Hroot. discriminate. }
  apply keys_not_tags_static in Hsegs; [| exact Hfree]. subst segs.
  unfold configAt in Hc. destruct (nodeAt vs t) as [n |] eqn:Hn; [| discriminate].
  apply keyed_nodeAt_static in Hn; [| exact Hk | exact Hfree].
  assert (Hbest : In (mkMatch c ∅ full) (Matcher.matchSegments t vs ∅ 0 [])).
  { apply matchSegments_complete.
    apply (staticAt_candidate vs t n c ∅ 0 Hk Hn Hc). }
  assert (Hle : forall m, In m (Matcher.matchSegments t vs ∅ 0 []) -> score m <= full).
  { intros m Hm. apply matchSegments_sound, candidate_score_le in Hm. exact Hm. }
  assert (Huniq : forall m, In m (Matcher.matchSegments t vs ∅ 0 []) ->
                            score m = full -> m = mkMatch c ∅ full).
  { intros m Hm Hs. apply matchSegments_sound in Hm.
    destruct (candidate_full_score_static _ _ _ _ _ Hm Hk Hs) as (Hp' & n' & Hn' & Hc').
    rewrite Hn in Hn'. inversion Hn'; subst n'. rewrite Hc in Hc'. inversion Hc'.
    destruct m as [r p s]. simpl in *. subst. reflexivity. }
  exists c. split; [exact Hcin |]. split; [exact Hp |]. split.
  - unfold Matcher.matchRoute. rewrite Hsplit. fold t.
    destruct (Matcher.matchSegments t vs ∅ 0 []) as [| m0 ms] eqn:E; [destruct Hbest |].
    destruct (head_sortByScore_max (m0 :: ms)) as (h & Hh & Hhin & Hmax); [discriminate |].
    rewrite Hh. f_equal. apply Huniq; [exact Hhin |].
    specialize (Hmax _ Hbest). specialize (Hle _ Hhin). simpl in Hmax. lia.
  - intros m Hm Hne. specialize (Hle _ Hm).
    destruct (Z.eq_dec (score m) full) as [Heq | Hneq]; [| lia].
    exfalso. apply Hne. apply Huniq; assumption.
Qed.

(** An instance: three routes, matched on the static one. *)
Lemma static_route_preferred_example :
  let dyn := mkConfig "/users/[id]" None None None in
  let me := mkConfig "/users/me" None None None in
  let files := mkConfig "/files/[[rest]]" None None None in
  exists c,
    In c [dyn; me; files]
    /\ Matcher.matchRoute "/users/me" (Router.addRoutes [dyn; me; files] Router.emptyTree)
       = Some (mkMatch c ∅ 200).
Proof.
  intros dyn me files.
  destruct (static_route_preferred [dyn; me; files] me ["users"; "me"])
    as (c & Hin & _ & Hmatch & _).
  - right. left. reflexivity.
  - reflexivity.
  - intros v [<- | [<- | []]] [H | [H | [H | []]]]; discriminate.
  - exists c. split; [exact Hin | exact Hmatch].
Defined.


(* ===================================================================== *)
(** * Further properties of the modelled code *)
(* ===================================================================== *)

(* ===================================================================== *)
(** ** Paths and their components *)
(* ===================================================================== *)

Section PathComponents.

Lemma split_nonempty sep s : Js.split sep s <> [].
Proof.
  destruct s as [| c s]; simpl; [discriminate |].
  destruct (Ascii.eqb c sep); [discriminate |].
  destruct (Js.split sep s); discriminate.
Qed.

(** Splitting a string that has a separator in the middle. *)
Lemma split_app sep (p q : string) :
  Js.split sep (p ++ String sep q) = (Js.split sep p ++ Js.split sep q)%list.
Proof.
  induction p as [| c p IH]; simpl.
  - rewrite Ascii.eqb_refl. reflexivity.
  - destruct (Ascii.eqb c sep); [rewrite IH; reflexivity |].
    rewrite IH. pose proof (split_nonempty sep p) as Hne.
    destruct (Js.split sep p) as [| w ws]; [congruence | reflexivity].
Qed.

Lemma segments_app (p q : string) :
  segments (p ++ "/" ++ q) = (segments p ++ segments q)%list.
Proof.
  unfold segments, Js.filterBoolean.
  change (p ++ "/" ++ q) with (p ++ String "/"%char q).
  rewrite split_app. apply List.filter_app.
Qed.

Lemma segments_leading_slash p : segments ("/" ++ p) = segments p.
Proof. exact (segments_app "" p). Qed.

Lemma segments_trailing_slash p : segments (p ++ "/") = segments p.
Proof.
  change (p ++ "/") with (p ++ "/" ++ "").
  rewrite segments_app. apply app_nil_r.
Qed.

Lemma segments_double_slash p q : segments (p ++ "//" ++ q) = segments (p ++ "/" ++ q).
Proof.
  change (p ++ "//" ++ q) with (p ++ "/" ++ ("/" ++ q)).
  rewrite !segments_app, segments_leading_slash. reflexivity.
Qed.

Lemma segments_truthy p : Forall (fun s => s <> "") (segments p).
Proof.
  unfold segments, Js.filterBoolean. apply List.Forall_forall. intros s Hin.
  apply filter_In in Hin. destruct Hin as [_ Ht]. destruct s; [discriminate | discriminate].
Qed.

End PathComponents.

(** X1.  A pattern or a path is read through its non-empty components: the
    components of [p/q] are those of [p] followed by those of [q], none is
    empty, and so a leading slash, a trailing slash or a doubled slash
    changes neither what [parseRoute] returns nor what [matchRoute] finds. *)
Theorem X1_slashes_are_tolerated :
  forall (p q : string) (t : RouteNode),
    segments (p ++ "/" ++ q) = (segments p ++ segments q)%list
    /\ Forall (fun s => s <> "") (segments p)
    /\ parseRoute ("/" ++ p) = parseRoute p
    /\ parseRoute (p ++ "/") = parseRoute p
    /\ parseRoute (p ++ "//" ++ q) = parseRoute (p ++ "/" ++ q)
    /\ Matcher.matchRoute ("/" ++ p) t = Matcher.matchRoute p t
    /\ Matcher.matchRoute (p ++ "/") t = Matcher.matchRoute p t
    /\ Matcher.matchRoute (p ++ "//" ++ q) t = Matcher.matchRoute (p ++ "/" ++ q) t.
Proof.
  intros p q t.
  split; [apply segments_app |]. split; [apply segments_truthy |].
  unfold parseRoute, Matcher.matchRoute.
  fold (segments ("/" ++ p)) (segments (p ++ "/")) (segments (p ++ "//" ++ q))
       (segments (p ++ "/" ++ q)) (segments p).
  rewrite segments_leading_slash, segments_trailing_slash, segments_double_slash.
  repeat split; reflexivity.
Qed.

(* ===================================================================== *)
(** ** How bracketed components are classified *)
(* ===================================================================== *)

Section Classification.

Lemma append_empty_r (s : string) : s ++ "" = s.
Proof.
  induction s as [| c s IH]; [reflexivity |].
  change (String c (s ++ "") = String c s). f_equal. exact IH.
Qed.

Lemma exec_opt (cl : Js.CharClass) (cap : bool) (re : list Js.Atom) (c : ascii) (s : string) :
  Js.exec (Js.mkAtom cl Js.Opt cap :: re) (String c s)
  = if Js.accepts cl c then
      match Js.keep (Js.mkAtom cl Js.Opt cap) c (Js.exec re s) with
      | Some r => Some r
      | None => Js.exec re (String c s)
      end
    else Js.exec re (String c s).
Proof. reflexivity. Qed.

(** The name group, [[^\]]+], in front of a closing bracket: when what
    follows the group cannot start with anything but a closing bracket, the
    group takes the whole bracket-free run. *)
Lemma exec_name_group (re : list Js.Atom) (c : ascii) (w rest : string) :
  (forall d s, Ascii.eqb d rbr = false -> Js.exec re (String d s) = None) ->
  bracketFree (String c w) = true ->
  Js.exec (Js.mkAtom (Js.NotChr rbr) Js.Plus true :: re) (String c w ++ String rbr rest)
  = option_map (fun r => String c w ++ r) (Js.exec re (String rbr rest)).
Proof.
  intros Hre. revert c. induction w as [| d w IH]; intros c Hfree.
  - simpl in Hfree. apply andb_prop in Hfree. destruct Hfree as [Hc _].
    change (String c "" ++ String rbr rest) with (String c (String rbr rest)).
    rewrite exec_plus. unfold Js.accepts at 1. rewrite Hc.
    rewrite exec_plus. unfold Js.accepts at 1. rewrite Ascii.eqb_refl. cbn [negb].
    unfold Js.keep. cbn [Js.captured].
    destruct (Js.exec re (String rbr rest)); reflexivity.
  - assert (Hfree' := Hfree). simpl in Hfree'.
    apply andb_prop in Hfree'. destruct Hfree' as [Hc Hrest].
    change (String c (String d w) ++ String rbr rest)
      with (String c (String d w ++ String rbr rest)).
    rewrite exec_plus. unfold Js.accepts at 1. rewrite Hc.
    rewrite IH by exact Hrest.
    unfold Js.keep. cbn [Js.captured].
    destruct (Js.exec re (String rbr rest)) as [r |]; cbn [option_map]; [reflexivity |].
    change (String d w ++ String rbr rest) with (String d (w ++ String rbr rest)).
    rewrite Hre; [reflexivity |].
    apply andb_prop in Hrest. destruct Hrest as [Hd _].
    destruct (Ascii.eqb d rbr); [discriminate | reflexivity].
Qed.

(** What follows the name group in the three expressions. *)
Lemma after_name_dynamic d s :
  Ascii.eqb d rbr = false ->
  Js.exec [Js.mkAtom (Js.Chr rbr) Js.One false] (String d s) = None.
Proof. intros H. rewrite exec_one. unfold Js.accepts. rewrite H. reflexivity. Qed.

Lemma after_name_catchAll d s :
  Ascii.eqb d rbr = false ->
  Js.exec [Js.mkAtom (Js.Chr rbr) Js.One false; Js.mkAtom (Js.Chr rbr) Js.One false]
    (String d s) = None.
Proof. intros H. rewrite exec_one. unfold Js.accepts. rewrite H. reflexivity. Qed.

Lemma after_name_optional d s :
  Ascii.eqb d rbr = false ->
  Js.exec [Js.mkAtom (Js.Chr rbr) Js.Opt false; Js.mkAtom (Js.Chr rbr) Js.One false]
    (String d s) = None.
Proof.
  intros H. rewrite exec_opt. unfold Js.accepts at 1. rewrite H.
  rewrite exec_one. unfold Js.accepts. rewrite H. reflexivity.
Qed.

Lemma wordChar_not_bracket c :
  Js.isWordChar c = true -> Ascii.eqb c rbr = false /\ Ascii.eqb c lbr = false.
Proof.
  intros Hw. split.
  - destruct (Ascii.eqb c rbr) eqn:E; [| reflexivity].
    apply Ascii.eqb_eq in E. subst c. discriminate.
  - destruct (Ascii.eqb c lbr) eqn:E; [| reflexivity].
    apply Ascii.eqb_eq in E. subst c. discriminate.
Qed.

Lemma testNonWord_bracketFree w : Js.testNonWord w = false -> bracketFree w = true.
Proof.
  induction w as [| c w IH]; simpl; [reflexivity |].
  intros H. apply orb_false_elim in H. destruct H as [Hc Hw].
  apply negb_false_iff in Hc. destruct (wordChar_not_bracket c Hc) as [Hr _].
  rewrite Hr. simpl. apply IH. exact Hw.
Qed.

(** A valid name is a word character followed by word characters. *)
Lemma validName_inv name :
  validName name = true ->
  exists c w, name = String c w /\ Js.isWordChar c = true
              /\ bracketFree (String c w) = true
              /\ Js.testNonWord (String c w) = false.
Proof.
  unfold validName. intros H. apply andb_prop in H. destruct H as [Ht Hw].
  apply negb_true_iff in Hw. destruct name as [| c w]; [discriminate |].
  exists c, w. split; [reflexivity |].
  assert (Hc : Js.isWordChar c = true).
  { simpl in Hw. apply orb_false_elim in Hw. destruct Hw as [Hc _].
    apply negb_false_iff in Hc. exact Hc. }
  split; [exact Hc |]. split; [apply testNonWord_bracketFree; exact Hw | exact Hw].
Qed.

Lemma validateSegmentName_valid name :
  validName name = true -> validateSegmentName name = Ok tt.
Proof.
  unfold validName, validateSegmentName. intros H.
  apply andb_prop in H. destruct H as [Ht Hw]. apply negb_true_iff in Hw.
  rewrite Ht, Hw. reflexivity.
Qed.

Lemma validateSegmentName_Ok name :
  validateSegmentName name = Ok tt -> validName name = true.
Proof.
  unfold validName, validateSegmentName.
  destruct (Js.truthy name); destruct (Js.testNonWord name); simpl; congruence.
Qed.

(** [[name]] *)
Lemma parseSegment_single name :
  validName name = true ->
  parseSegment ("[" ++ name ++ "]") = Ok (DynamicSegment name None).
Proof.
  intros Hv. destruct (validName_inv name Hv) as (c & w & -> & Hc & Hfree & Hw).
  unfold parseSegment.
  change ("[" ++ String c w ++ "]") with (String lbr (String c w ++ "]")).
  rewrite exec_dynamic_brackets by exact Hfree.
  unfold createDynamicSegment. rewrite (validateSegmentName_valid _ Hv). reflexivity.
Qed.

(** [[[name]]] *)
Lemma parseSegment_double name :
  validName name = true ->
  parseSegment ("[[" ++ name ++ "]]") = Ok (CatchAllSegment name).
Proof.
  intros Hv. destruct (validName_inv name Hv) as (c & w & -> & Hc & Hfree & Hw).
  unfold parseSegment.
  assert (Hdyn : Js.exec DYNAMIC_SEGMENT_REGEX ("[[" ++ String c w ++ "]]") = None).
  { change ("[[" ++ String c w ++ "]]")
      with (String lbr (String lbr (String c w) ++ String rbr "]")).
    unfold DYNAMIC_SEGMENT_REGEX. rewrite exec_one.
    change (Js.accepts (Js.Chr lbr) lbr) with true. cbv iota.
    unfold Js.keep at 1. cbn [Js.captured].
    rewrite exec_name_group; [reflexivity | apply after_name_dynamic |].
    change (bracketFree (String lbr (String c w)))
      with (bracketFree (String c w)). exact Hfree. }
  rewrite Hdyn.
  assert (Hcatch : Js.exec CATCH_ALL_SEGMENT_REGEX ("[[" ++ String c w ++ "]]")
                   = Some (String c w)).
  { change ("[[" ++ String c w ++ "]]")
      with (String lbr (String lbr (String c w ++ String rbr "]"))).
    unfold CATCH_ALL_SEGMENT_REGEX. rewrite exec_one.
    change (Js.accepts (Js.Chr lbr) lbr) with true. cbv iota.
    unfold Js.keep at 1. cbn [Js.captured].
    rewrite exec_one.
    change (Js.accepts (Js.Chr lbr) lbr) with true. cbv iota.
    unfold Js.keep at 1. cbn [Js.captured].
    rewrite exec_name_group; [| apply after_name_catchAll | exact Hfree].
    cbn. rewrite append_empty_r. reflexivity. }
  rewrite Hcatch.
  unfold createCatchAllSegment. rewrite (validateSegmentName_valid _ Hv). reflexivity.
Qed.

(** [[name]]] *)
Lemma parseSegment_lopsided name :
  validName name = true ->
  parseSegment ("[" ++ name ++ "]]") = Ok (OptionalSegment name None).
Proof.
  intros Hv. destruct (validName_inv name Hv) as (c & w & -> & Hc & Hfree & Hw).
  destruct (wordChar_not_bracket c Hc) as [_ Hl].
  unfold parseSegment.
  assert (Hdyn : Js.exec DYNAMIC_SEGMENT_REGEX ("[" ++ String c w ++ "]]") = None).
  { change ("[" ++ String c w ++ "]]") with (String lbr (String c w ++ String rbr "]")).
    unfold DYNAMIC_SEGMENT_REGEX. rewrite exec_one.
    change (Js.accepts (Js.Chr lbr) lbr) with true. cbv iota.
    unfold Js.keep at 1. cbn [Js.captured].
    rewrite exec_name_group; [reflexivity | apply after_name_dynamic | exact Hfree]. }
  rewrite Hdyn.
  assert (Hcatch : Js.exec CATCH_ALL_SEGMENT_REGEX ("[" ++ String c w ++ "]]") = None).
  { change ("[" ++ String c w ++ "]]") with (String lbr (String c (w ++ "]]"))).
    unfold CATCH_ALL_SEGMENT_REGEX. rewrite exec_one.
    change (Js.accepts (Js.Chr lbr) lbr) with true. cbv iota.
    unfold Js.keep at 1. cbn [Js.captured].
    rewrite exec_one. unfold Js.accepts. rewrite Hl. reflexivity. }
  rewrite Hcatch.
  assert (Hopt : Js.exec OPTIONAL_SEGMENT_REGEX ("[" ++ String c w ++ "]]")
                 = Some (String c w)).
  { change ("[" ++ String c w ++ "]]") with (String lbr (String c (w ++ "]]"))).
    unfold OPTIONAL_SEGMENT_REGEX. rewrite exec_one.
    change (Js.accepts (Js.Chr lbr) lbr) with true. cbv iota.
    unfold Js.keep at 1. cbn [Js.captured].
    rewrite exec_opt. unfold Js.accepts at 1. rewrite Hl.
    change (String c (w ++ "]]")) with (String c w ++ String rbr "]").
    rewrite exec_name_group; [| apply after_name_optional | exact Hfree].
    cbn. rewrite append_empty_r. reflexivity. }
  rewrite Hopt.
  unfold createOptionalSegment. rewrite (validateSegmentName_valid _ Hv). reflexivity.
Qed.

(** Anything that does not open with a bracket is a literal. *)
Lemma parseSegment_literal s :
  notStartingWith lbr s = true -> parseSegment s = Ok (StaticSegment s).
Proof.
  intros Hs. unfold parseSegment.
  assert (H : forall re, Js.exec (Js.mkAtom (Js.Chr lbr) Js.One false :: re) s = None).
  { intros re. destruct s as [| d s]; [reflexivity |].
    rewrite exec_one. unfold Js.accepts. simpl in Hs.
    apply negb_true_iff in Hs. rewrite Hs. reflexivity. }
  unfold DYNAMIC_SEGMENT_REGEX, CATCH_ALL_SEGMENT_REGEX, OPTIONAL_SEGMENT_REGEX.
  rewrite !H. reflexivity.
Qed.

End Classification.

(** X2.  For a name made of letters, digits and underscores, [[name]] is a
    dynamic segment, [[[name]]] is a catch-all segment (the catch-all test
    comes before the optional one), and [[name]]] is an optional segment;
    a component that does not start with an opening bracket is a static
    segment holding the component itself. *)
Theorem X2_bracket_forms :
  forall name s : string,
    validName name = true ->
    notStartingWith lbr s = true ->
    parseSegment ("[" ++ name ++ "]") = Ok (DynamicSegment name None)
    /\ parseSegment ("[[" ++ name ++ "]]") = Ok (CatchAllSegment name)
    /\ parseSegment ("[" ++ name ++ "]]") = Ok (OptionalSegment name None)
    /\ parseSegment s = Ok (StaticSegment s).
Proof.
  intros name s Hv Hs.
  split; [apply parseSegment_single; exact Hv |].
  split; [apply parseSegment_double; exact Hv |].
  split; [apply parseSegment_lopsided; exact Hv |].
  apply parseSegment_literal. exact Hs.
Qed.

(** X2, witness. *)
Lemma X2_bracket_forms_witness :
  parseSegment "[user_id]" = Ok (DynamicSegment "user_id" None)
  /\ parseSegment "[[user_id]]" = Ok (CatchAllSegment "user_id")
  /\ parseSegment "[user_id]]" = Ok (OptionalSegment "user_id" None)
  /\ parseSegment "about" = Ok (StaticSegment "about").
Proof.
  exact (X2_bracket_forms "user_id" "about" eq_refl eq_refl).
Defined.

(* ===================================================================== *)
(** ** What the parser returns, and what it throws *)
(* ===================================================================== *)

Section ParserResults.

Lemma validateSegmentName_cases name :
  (validName name = true /\ validateSegmentName name = Ok tt)
  \/ (validName name = false /\ validateSegmentName name = Throw (invalidName name)).
Proof.
  unfold validName, validateSegmentName.
  destruct (Js.truthy name); destruct (Js.testNonWord name); simpl; tauto.
Qed.

Lemma parseSegment_result s :
  match parseSegment s with
  | Ok seg => parsedFrom s seg
  | Throw e => exists name, e = invalidName name /\ validName name = false
  end.
Proof.
  unfold parseSegment, createDynamicSegment, createCatchAllSegment,
    createOptionalSegment, createStaticSegment.
  destruct (Js.exec DYNAMIC_SEGMENT_REGEX s) as [n |].
  { destruct (validateSegmentName_cases n) as [[Hv ->] | [Hv ->]]; simpl; eauto. }
  destruct (Js.exec CATCH_ALL_SEGMENT_REGEX s) as [n |].
  { destruct (validateSegmentName_cases n) as [[Hv ->] | [Hv ->]]; simpl; eauto. }
  destruct (Js.exec OPTIONAL_SEGMENT_REGEX s) as [n |].
  { destruct (validateSegmentName_cases n) as [[Hv ->] | [Hv ->]]; simpl; eauto. }
  reflexivity.
Qed.

Lemma mapM_parseSegment_result components :
  match mapM parseSegment components with
  | Ok segs => Forall2 parsedFrom components segs
  | Throw e => exists name, e = invalidName name /\ validName name = false
  end.
Proof.
  induction components as [| s rest IH]; simpl; [constructor |].
  pose proof (parseSegment_result s) as Hs.
  destruct (parseSegment s) as [seg | e]; simpl; [| exact Hs].
  destruct (mapM parseSegment rest) as [segs | e]; simpl; [| exact IH].
  constructor; assumption.
Qed.

End ParserResults.

(** X3.  When [parseRoute] returns, there is one segment per non-empty
    component, in order; a static segment holds its component unchanged and
    every named segment has a non-empty name of letters, digits and
    underscores, with no custom pattern.  When it throws, the error is the
    invalid-name error for a captured name that is empty or has a
    character outside that class. *)
Theorem X3_parseRoute_results :
  forall path : string,
    match parseRoute path with
    | Ok segs => Forall2 parsedFrom (segments path) segs
    | Throw e => exists name, e = invalidName name /\ validName name = false
    end.
Proof.
  intros path. unfold parseRoute. fold (segments path).
  apply mapM_parseSegment_result.
Qed.

(** X4.  [addRoute] throws only the invalid-name error, and then the tree
    is the one it was given; it does throw as soon as some component of the
    pattern is [[name]] with a non-empty name that has no closing bracket
    in it and has a character outside letters, digits and underscore. *)
Theorem X4_addRoute_rejects_invalid_names :
  forall (cfg : RouteConfig) (routeTree : RouteNode),
    (forall e, fst (Router.addRoute cfg routeTree) = Throw e ->
       snd (Router.addRoute cfg routeTree) = routeTree
       /\ exists name, e = invalidName name /\ validName name = false)
    /\ (forall (c : ascii) (name : string),
          In (String lbr (String c name ++ "]")) (segments (path cfg)) ->
          bracketFree (String c name) = true ->
          Js.testNonWord (String c name) = true ->
          exists e, Router.addRoute cfg routeTree = (Throw e, routeTree)).
Proof.
  intros cfg routeTree. split.
  - intros e He. split; [eapply addRoute_throw_unchanged; exact He |].
    apply addRoute_throw_iff in He. unfold parseRoute in He.
    pose proof (mapM_parseSegment_result
                  (Js.filterBoolean (Js.split "/"%char (path cfg)))) as H.
    rewrite He in H. exact H.
  - intros c name Hin Hfree Hbad. eapply addRoute_invalid_dynamic; eassumption.
Qed.

(** X4, witness: a space in a name. *)
Lemma X4_addRoute_rejects_invalid_names_witness :
  exists e,
    Router.addRoute (mkConfig "/a/[na me]" None None None) Router.emptyTree
    = (Throw e, Router.emptyTree)
    /\ exists name, e = invalidName name /\ validName name = false.
Proof.
  destruct (X4_addRoute_rejects_invalid_names
              (mkConfig "/a/[na me]" None None None) Router.emptyTree) as [Hthrow H].
  destruct (H "n"%char "a me") as [e He];
    [right; left; reflexivity | reflexivity | reflexivity |].
  exists e. split; [exact He |].
  apply Hthrow. rewrite He. reflexivity.
Defined.

(* ===================================================================== *)
(** ** Registered routes and the matches returned *)
(* ===================================================================== *)

Section RegisteredRoutes.
Import Router Matcher.

(** The route of a candidate is the configuration of a node of the tree. *)
Lemma candidate_route_inTree node segs params score m :
  candidate node segs params score m ->
  exists n, inTree n node /\ config n = Some (route m).
Proof.
  induction 1 as [node params score cfg Hcfg
                 | node seg rest params score k child m Hin Hseg Hc IH
                 | node seg rest params score k child name pat m Hin Hseg Hc IH
                 | node seg rest params score k child name m Hin Hseg Hc IH].
  - exists node. split; [apply inTree_here | exact Hcfg].
  - destruct IH as (n & Hn & Hcfg). exists n. split; [| exact Hcfg].
    eapply inTree_child; eassumption.
  - destruct IH as (n & Hn & Hcfg). exists n. split; [| exact Hcfg].
    eapply inTree_child; eassumption.
  - destruct IH as (n & Hn & Hcfg). exists n. split; [| exact Hcfg].
    eapply inTree_child; eassumption.
Qed.

(** In a well-shaped tree every node is found along its keys. *)
Lemma inTree_nodeAt n t :
  inTree n t -> keyed t -> exists ks, nodeAt ks t = Some n.
Proof.
  induction 1 as [| t k c Hin Hsub IH]; intros Hk.
  - exists []. reflexivity.
  - inversion Hk as [s cf ch mw Hnd Hkeys Hch]; subst. cbn [children] in Hin.
    destruct IH as [ks Hks].
    { apply (proj1 (List.Forall_forall _ _) Hch _ Hin). }
    exists (k :: ks). cbn [nodeAt children].
    rewrite (jsmap_In_get _ _ _ Hnd Hin). exact Hks.
Qed.

Lemma head_sortByScore_In (l : list RouteMatch) h :
  head (sortByScore l) = Some h -> In h l.
Proof.
  destruct l as [| m l]; [discriminate |].
  intros Hh. destruct (head_sortByScore_max (m :: l)) as (h' & Hh' & Hin & _);
    [discriminate |].
  rewrite Hh in Hh'. inversion Hh'; subst. exact Hin.
Qed.

Lemma matchRoute_Some_In pathname t m :
  matchRoute pathname t = Some m ->
  In m (matchSegments t (segments pathname) ∅ 0 []).
Proof.
  unfold matchRoute. fold (segments pathname).
  destruct (matchSegments t (segments pathname) ∅ 0 []) as [| m0 ms] eqn:E;
    [discriminate |].
  intros H. apply head_sortByScore_In. exact H.
Qed.

(** The head of the sorted array is the first element of greatest score of
    the array before sorting. *)
Lemma head_sortByScore_first_max (l : list RouteMatch) h :
  head (sortByScore l) = Some h ->
  exists l1 l2, l = (l1 ++ h :: l2)%list
                /\ (forall m, In m l1 -> score m < score h)
                /\ (forall m, In m l2 -> score m <= score h).
Proof.
  revert h. induction l as [| m l IH]; intros h Hh; [discriminate |].
  cbn [sortByScore fold_right] in Hh. fold (sortByScore l) in Hh.
  rewrite head_insertByScore in Hh.
  destruct (head (sortByScore l)) as [h' |] eqn:Hh'.
  - destruct (IH h' eq_refl) as (l1 & l2 & -> & Hlt & Hle).
    destruct (Z.leb_spec (score h' - score m) 0) as [Hcmp | Hcmp];
      inversion Hh; subst.
    + exists [], (l1 ++ h' :: l2)%list. split; [reflexivity |].
      split; [intros x [] |].
      intros x Hx. apply in_app_or in Hx. destruct Hx as [Hx | [<- | Hx]].
      * specialize (Hlt x Hx). lia.
      * lia.
      * specialize (Hle x Hx). lia.
    + exists (m :: l1), l2. split; [reflexivity |]. split; [| exact Hle].
      intros x [<- | Hx]; [lia | apply Hlt; exact Hx].
  - inversion Hh; subst.
    destruct l as [| m' l'].
    + exists [], []. split; [reflexivity |]. split; intros x [].
    + exfalso. destruct (head_sortByScore_max (m' :: l')) as (x & Hx & _); [discriminate |].
      rewrite Hx in Hh'. discriminate.
Qed.

End RegisteredRoutes.

(** X5.  After [addRoute] returns, the configuration found along the keys
    of the parsed pattern is the one just registered, and the
    configuration found along any other path of keys is the one that was
    there before. *)
Theorem X5_addRoute_lookup_and_frame :
  forall (cfg : RouteConfig) (t : RouteNode) (segs : list RouteSegment) (ks : list string),
    parseRoute (path cfg) = Ok segs ->
    configAt (List.map Router.key segs) (snd (Router.addRoute cfg t)) = Some cfg
    /\ (ks <> List.map Router.key segs ->
        configAt ks (snd (Router.addRoute cfg t)) = configAt ks t).
Proof.
  intros cfg t segs ks Hp. rewrite !configAt_addRoute, Hp. split.
  - rewrite decide_True by reflexivity. reflexivity.
  - intros Hne. rewrite decide_False by exact Hne. reflexivity.
Qed.

(** X5, witness. *)
Lemma X5_addRoute_lookup_and_frame_witness :
  let home := mkConfig "/" None None None in
  let user := mkConfig "/users/[id]" None None None in
  let t := snd (Router.addRoute home Router.emptyTree) in
  configAt ["users"; "dynamic"] (snd (Router.addRoute user t)) = Some user
  /\ configAt [] (snd (Router.addRoute user t)) = Some home.
Proof.
  intros home user t.
  destruct (X5_addRoute_lookup_and_frame user t
              [StaticSegment "users"; DynamicSegment "id" None] [] eq_refl) as [H1 H2].
  split; [exact H1 |]. rewrite H2 by discriminate. reflexivity.
Defined.

(** X6.  A match returned for a tree built by [addRoute] from the initial
    tree carries a configuration that was registered, and whose pattern the
    parser accepts. *)
Theorem X6_matches_are_registered_routes :
  forall (cfgs : list RouteConfig) (pathname : string) (m : RouteMatch),
    Matcher.matchRoute pathname (Router.addRoutes cfgs Router.emptyTree) = Some m ->
    In (route m) cfgs /\ exists segs, parseRoute (path (route m)) = Ok segs.
Proof.
  intros cfgs pathname m Hm.
  apply matchRoute_Some_In, matchSegments_sound, candidate_route_inTree in Hm.
  destruct Hm as (n & Hn & Hcfg).
  assert (Hk : keyed (Router.addRoutes cfgs Router.emptyTree))
    by (apply keyed_addRoutes, keyed_emptyTree).
  destruct (inTree_nodeAt _ _ Hn Hk) as [ks Hks].
  assert (Hc : configAt ks (Router.addRoutes cfgs Router.emptyTree) = Some (route m)).
  { unfold configAt. rewrite Hks. exact Hcfg. }
  destruct (configAt_addRoutes_registered cfgs _ _ _ Hc)
    as [Hroot | (Hin & segs & Hp & _)].
  - change Router.emptyTree with (Router.newChild (StaticSegment "")) in Hroot.
    rewrite configAt_newChild in Hroot. discriminate.
  - split; [exact Hin | eauto].
Qed.

(** X6, witness. *)
Lemma X6_matches_are_registered_routes_witness :
  let user := mkConfig "/users/[id]" None None None in
  let files := mkConfig "/files/[[rest]]" None None None in
  In (route (mkMatch user {[ "id" := "7" ]} 150)) [user; files].
Proof.
  intros user files.
  apply (X6_matches_are_registered_routes [user; files] "/users/7"
           (mkMatch user {[ "id" := "7" ]} 150)).
  reflexivity.
Defined.

(** X7.  The array [matchSegments] returns holds what it was given plus
    exactly the candidates: the branches that consume the whole path by
    static steps (100), dynamic steps (50, binding the name) or one final
    catch-all step (10, binding the rest of the path joined by slashes) and
    end on a configured node. *)
Theorem X7_matchSegments_finds_the_candidates :
  forall (node : RouteNode) (pathSegments : list string) (params : RouteParams)
         (score : Z) (acc : list RouteMatch) (m : RouteMatch),
    In m (Matcher.matchSegments node pathSegments params score acc)
    <-> In m acc \/ candidate node pathSegments params score m.
Proof.
  intros node pathSegments params score acc m.
  rewrite matchSegments_acc. rewrite in_app_iff. split.
  - intros [H | H]; [left; exact H | right; apply matchSegments_sound; exact H].
  - intros [H | H]; [left; exact H | right; apply matchSegments_complete; exact H].
Qed.

(** X8.  [matchRoute] returns nothing exactly when the path has no
    candidate; otherwise it returns the first candidate of greatest score,
    in the order [matchSegments] found them, and no score exceeds 100 per
    component of the path. *)
Theorem X8_matchRoute_first_best_candidate :
  forall (pathname : string) (t : RouteNode),
    let found := Matcher.matchSegments t (segments pathname) ∅ 0 [] in
    (Matcher.matchRoute pathname t = None
     <-> forall m, ~ candidate t (segments pathname) ∅ 0 m)
    /\ (forall h, Matcher.matchRoute pathname t = Some h ->
          candidate t (segments pathname) ∅ 0 h
          /\ score h <= 100 * Z.of_nat (length (segments pathname))
          /\ exists l1 l2, found = (l1 ++ h :: l2)%list
               /\ (forall m, In m l1 -> score m < score h)
               /\ (forall m, In m l2 -> score m <= score h)).
Proof.
  intros pathname t found. split.
  - unfold Matcher.matchRoute. fold (segments pathname). fold found. split.
    + intros Hnone m Hc. apply matchSegments_complete in Hc. fold found in Hc.
      destruct found as [| m0 ms]; [destruct Hc |].
      destruct (head_sortByScore_max (m0 :: ms)) as (h & Hh & _); [discriminate |].
      rewrite Hh in Hnone. discriminate.
    + intros Hno. destruct found as [| m0 ms] eqn:E; [reflexivity | exfalso].
      apply (Hno m0). apply matchSegments_sound. fold found. rewrite E. left. reflexivity.
  - intros h Hh.
    assert (Hin : In h found) by (apply matchRoute_Some_In; exact Hh).
    assert (Hc : candidate t (segments pathname) ∅ 0 h)
      by (apply matchSegments_sound; exact Hin).
    split; [exact Hc |]. split.
    + apply candidate_score_le in Hc. lia.
    + unfold Matcher.matchRoute in Hh. fold (segments pathname) in Hh. fold found in Hh.
      destruct found as [| m0 ms] eqn:E; [destruct Hin |].
      apply head_sortByScore_first_max. exact Hh.
Qed.

(** X8, witness: two candidates, the static one first and best. *)
Lemma X8_matchRoute_first_best_candidate_witness :
  let dyn := mkConfig "/users/[id]" None None None in
  let me := mkConfig "/users/me" None None None in
  let t := Router.addRoutes [dyn; me] Router.emptyTree in
  candidate t ["users"; "me"] ∅ 0 (mkMatch me ∅ 200)
  /\ Matcher.matchRoute "/nowhere" t = None.
Proof.
  intros dyn me t.
  destruct (X8_matchRoute_first_best_candidate "/users/me" t) as [_ Hbest].
  destruct (X8_matchRoute_first_best_candidate "/nowhere" t) as [Hnone _].
  split.
  - apply (Hbest (mkMatch me ∅ 200)). reflexivity.
  - apply Hnone. intros m Hc. apply matchSegments_complete in Hc. exact Hc.
Defined.

(* ===================================================================== *)
(** ** One route alone *)
(* ===================================================================== *)

Section LoneRoute.
Import Router Matcher.

(** Below a node created for it, a pattern matches the paths that conform
    to it segment by segment, and no other. *)
Lemma matchSegments_fresh_route cfg :
  forall segs seg0 pathSegments params score,
    matchSegments (walk segs cfg (newChild seg0)) pathSegments params score []
    = match bindRoute segs pathSegments params score with
      | Some (params', score') => [mkMatch cfg params' score']
      | None => []
      end.
Proof.
  induction segs as [| seg rest IH]; intros seg0 pathSegments params score.
  - destruct pathSegments as [| x remaining]; reflexivity.
  - destruct pathSegments as [| x remaining]; [reflexivity |].
    cbn [walk newChild children JsMap.get JsMap.set matchSegments fold_left snd
         segment config node_middleware].
    rewrite walk_segment. cbn [segment newChild].
    destruct seg as [value | name pat | name | name pat]; cbn [fold_left bindRoute].
    + destruct (String.eqb value x); [apply IH | reflexivity].
    + apply IH.
    + rewrite IH. destruct rest as [| seg' rest']; reflexivity.
    + reflexivity.
Qed.

End LoneRoute.

(** X9.  In a tree built by [addRoute] from the initial tree, take a
    registered pattern made of static components only, none of which is
    one of the words [dynamic], [optional], [catchAll].  Matching the
    pattern's own path returns a registered static route with the same
    components, 100 points per component and no parameter bound, and every
    other candidate for that path scores strictly less. *)
Theorem X9_static_route_preferred :
  forall (cfgs : list RouteConfig) (cfg : RouteConfig) (vs : list string),
    In cfg cfgs ->
    parseRoute (path cfg) = Ok (List.map StaticSegment vs) ->
    (forall v, In v vs -> ~ In v typeTags) ->
    exists c,
      In c cfgs
      /\ parseRoute (path c) = Ok (List.map StaticSegment vs)
      /\ Matcher.matchRoute (path cfg) (Router.addRoutes cfgs Router.emptyTree)
         = Some (mkMatch c ∅ (100 * Z.of_nat (length vs)))
      /\ forall m,
           In m (Matcher.matchSegments (Router.addRoutes cfgs Router.emptyTree) vs ∅ 0 []) ->
           m <> mkMatch c ∅ (100 * Z.of_nat (length vs)) ->
           score m < 100 * Z.of_nat (length vs).
Proof.
  intros cfgs cfg vs Hin Hp Hfree.
  exact (static_route_preferred cfgs cfg vs Hin Hp Hfree).
Qed.

(** X9, witness: [/users/me] beside [/users/[id]] and [/users/[[rest]]]. *)
Lemma X9_static_route_preferred_witness :
  let dyn := mkConfig "/users/[id]" None None None in
  let me := mkConfig "/users/me" None None None in
  let rest := mkConfig "/users/[[rest]]" None None None in
  exists c,
    In c [dyn; rest; me]
    /\ Matcher.matchRoute "/users/me" (Router.addRoutes [dyn; rest; me] Router.emptyTree)
       = Some (mkMatch c ∅ 200).
Proof.
  intros dyn me rest.
  destruct (X9_static_route_preferred [dyn; rest; me] me ["users"; "me"])
    as (c & Hin & _ & Hmatch & _).
  - right. right. left. reflexivity.
  - reflexivity.
  - intros v [<- | [<- | []]] [H | [H | [H | []]]]; discriminate.
  - exists c. split; [exact Hin | exact Hmatch].
Defined.

(** X10.  With a single route registered on the initial tree, a path
    matches exactly when it conforms to the pattern segment by segment: a
    static segment wants its own value, a dynamic segment takes any one
    component and binds its name to it, a catch-all segment must be the
    last of the pattern and binds its name to the one or more components
    left, joined by slashes; a pattern with an optional segment, or with
    anything after a catch-all, matches nothing.  The match then carries
    the route, these bindings and the sum of 100, 50 and 10 points. *)
Theorem X10_single_route_round_trip :
  forall (cfg : RouteConfig) (segs : list RouteSegment) (pathname : string),
    parseRoute (path cfg) = Ok segs ->
    Matcher.matchRoute pathname (snd (Router.addRoute cfg Router.emptyTree))
    = match bindRoute segs (segments pathname) ∅ 0 with
      | Some (params', score') => Some (mkMatch cfg params' score')
      | None => None
      end.
Proof.
  intros cfg segs pathname Hp. unfold Router.addRoute. rewrite Hp. cbn [snd].
  unfold Matcher.matchRoute. fold (segments pathname).
  change Router.emptyTree with (Router.newChild (StaticSegment "")).
  rewrite matchSegments_fresh_route.
  destruct (bindRoute segs (segments pathname) ∅ 0) as [[params' score'] |]; reflexivity.
Qed.

(** X10, witness: the dynamic segment of [/a/[name]/b] on [/a/42/b]. *)
Lemma X10_single_route_round_trip_witness :
  let cfg := mkConfig "/a/[name]/b" None None None in
  Matcher.matchRoute "/a/42/b" (snd (Router.addRoute cfg Router.emptyTree))
  = Some (mkMatch cfg {[ "name" := "42" ]} 250)
  /\ Matcher.matchRoute "/a/42" (snd (Router.addRoute cfg Router.emptyTree)) = None.
Proof.
  intros cfg. split.
  - rewrite (X10_single_route_round_trip cfg
               [StaticSegment "a"; DynamicSegment "name" None; StaticSegment "b"]
               "/a/42/b" eq_refl).
    reflexivity.
  - rewrite (X10_single_route_round_trip cfg
               [StaticSegment "a"; DynamicSegment "name" None; StaticSegment "b"]
               "/a/42" eq_refl).
    reflexivity.
Defined.

(* ===================================================================== *)
(** ** Runs of a chain: order, growth of the trace, rejections *)
(* ===================================================================== *)

Section ChainRuns.
Import MiddlewareChain.

Variable middlewares : list Middleware.

Lemma invoked_app (a b : list Event) : invoked (a ++ b) = (invoked a ++ invoked b)%list.
Proof. unfold invoked. apply flat_map_app. Qed.

Lemma firstn_S_nth_error {A} (l : list A) (n : nat) (x : A) :
  nth_error l n = Some x -> firstn (S n) l = (firstn n l ++ [x])%list.
Proof.
  revert n. induction l as [| y l IH]; intros n H; destruct n; simpl in *;
    try discriminate.
  - inversion H. reflexivity.
  - f_equal. apply IH. exact H.
Qed.

Lemma run_inOrder (base : list string) (nxt : ChainState -> Outcome * ChainState) :
  (forall st, inOrder middlewares base st -> inOrder middlewares base (snd (nxt st))) ->
  forall h st, inOrder middlewares base st ->
               inOrder middlewares base (snd (run h nxt st)).
Proof.
  intros Hn h.
  induction h as [| e | line k IH | k IH | c k IH | k IHk handle IHh |];
    intros st Hst; simpl.
  - exact Hst.
  - exact Hst.
  - apply IH. destruct Hst as [Hle Hinv]. split; [exact Hle |]. cbn [index trace].
    rewrite invoked_app. cbn. rewrite app_nil_r. exact Hinv.
  - apply IH. exact Hst.
  - apply IH. exact Hst.
  - specialize (Hn st Hst). destruct (nxt st) as [[| e | |] st']; cbn [snd] in *.
    + apply IHk. exact Hn.
    + apply IHh. exact Hn.
    + exact Hn.
    + exact Hn.
  - exact Hst.
Qed.

Lemma next_inOrder (base : list string) (fuel : nat) :
  forall st, inOrder middlewares base st ->
             inOrder middlewares base (snd (next fuel middlewares st)).
Proof.
  induction fuel as [| fuel IH]; intros st Hst; simpl.
  - destruct (nth_error middlewares (index st)); exact Hst.
  - destruct (nth_error middlewares (index st)) as [mw |] eqn:E; [| exact Hst].
    assert (Hst1 : inOrder middlewares base
                     (mkState (S (index st)) (ctx st)
                        (trace st ++ [Invoked (mw_name mw)]))).
    { destruct Hst as [Hle Hinv]. split; cbn [index trace].
      - apply nth_error_Some_lt in E. lia.
      - rewrite invoked_app, Hinv, (firstn_S_nth_error _ _ _ E), List.map_app.
        cbn. rewrite <- app_assoc. reflexivity. }
    pose proof (run_inOrder base _ (IH) (handler mw (ctx st)) _ Hst1) as Hr.
    destruct (run _ _ _) as [[| e | |] st2]; exact Hr.
Qed.

Lemma run_extends (nxt : ChainState -> Outcome * ChainState) :
  (forall st, extends st (snd (nxt st))) ->
  forall h st, extends st (snd (run h nxt st)).
Proof.
  intros Hn h.
  induction h as [| e | line k IH | k IH | c k IH | k IHk handle IHh |];
    intros st; simpl.
  - exists []. rewrite app_nil_r. reflexivity.
  - exists []. rewrite app_nil_r. reflexivity.
  - destruct (IH (mkState (index st) (ctx st) (trace st ++ [Logged line]))) as [more Hm].
    cbn [trace] in Hm. exists (Logged line :: more). rewrite Hm, <- app_assoc. reflexivity.
  - apply IH.
  - destruct (IH (mkState (index st) c (trace st))) as [more Hm].
    cbn [trace] in Hm. exists more. exact Hm.
  - destruct (Hn st) as [more Hm]. destruct (nxt st) as [[| e | |] st']; cbn [snd] in *.
    + destruct (IHk st') as [more' Hm']. exists (more ++ more')%list.
      rewrite Hm', Hm, <- app_assoc. reflexivity.
    + destruct (IHh e st') as [more' Hm']. exists (more ++ more')%list.
      rewrite Hm', Hm, <- app_assoc. reflexivity.
    + exists more. exact Hm.
    + exists more. exact Hm.
  - exists []. rewrite app_nil_r. reflexivity.
Qed.

Lemma next_extends (fuel : nat) :
  forall st, extends st (snd (next fuel middlewares st)).
Proof.
  induction fuel as [| fuel IH]; intros st; simpl.
  - destruct (nth_error middlewares (index st)); exists []; rewrite app_nil_r; reflexivity.
  - destruct (nth_error middlewares (index st)) as [mw |] eqn:E;
      [| exists []; rewrite app_nil_r; reflexivity].
    destruct (run_extends _ IH (handler mw (ctx st))
                (mkState (S (index st)) (ctx st)
                   (trace st ++ [Invoked (mw_name mw)]))) as [more Hm].
    cbn [trace] in Hm.
    destruct (run _ _ _) as [[| e | |] st2]; cbn [snd] in *;
      exists (Invoked (mw_name mw) :: more); rewrite Hm, <- app_assoc; reflexivity.
Qed.

(** Handlers that never assign to the context leave its fields alone. *)
Lemma run_readOnly (nxt : ChainState -> Outcome * ChainState) :
  (forall st, ctx (snd (nxt st)) = ctx st) ->
  forall h, readOnly h -> forall st, ctx (snd (run h nxt st)) = ctx st.
Proof.
  intros Hn h.
  induction h as [| e | line k IH | k IH | c k IH | k IHk handle IHh |];
    intros Hro st; simpl in *.
  - reflexivity.
  - reflexivity.
  - rewrite (IH Hro). reflexivity.
  - apply IH. apply Hro.
  - destruct Hro.
  - destruct Hro as [Hk Hh]. specialize (Hn st).
    destruct (nxt st) as [[| e | |] st']; cbn [snd] in *.
    + rewrite (IHk Hk). exact Hn.
    + rewrite (IHh e (Hh e)). exact Hn.
    + exact Hn.
    + exact Hn.
  - reflexivity.
Qed.

Lemma next_readOnly (fuel : nat) :
  (forall m context, In m middlewares -> readOnly (handler m context)) ->
  forall st, ctx (snd (next fuel middlewares st)) = ctx st.
Proof.
  intros Hall. induction fuel as [| fuel IH]; intros st; simpl.
  - destruct (nth_error middlewares (index st)); reflexivity.
  - destruct (nth_error middlewares (index st)) as [mw |] eqn:E; [| reflexivity].
    pose proof (run_readOnly _ IH (handler mw (ctx st))
                  (Hall mw (ctx st) (nth_error_In _ _ E))
                  (mkState (S (index st)) (ctx st)
                     (trace st ++ [Invoked (mw_name mw)]))) as Hr.
    destruct (run _ _ _) as [[| e | |] st2]; exact Hr.
Qed.

End ChainRuns.

Section ChainRunsTop.
Import MiddlewareChain.

Lemma executeChain_inOrder middlewares context tr :
  exists k, (k <= length middlewares)%nat
    /\ invoked (snd (executeChain middlewares context tr))
       = (invoked tr ++ List.map mw_name (firstn k middlewares))%list.
Proof.
  unfold executeChain.
  pose proof (next_inOrder middlewares (invoked tr) (length middlewares)
                (mkState 0 context tr)) as H.
  destruct (next _ _ _) as [out st]. cbn [snd] in *.
  destruct H as [Hle Hinv].
  - split; [cbn; lia | cbn; rewrite app_nil_r; reflexivity].
  - exists (index st). split; assumption.
Qed.

(** A chain with a first handler begins by invoking it. *)
Lemma executeChain_starts_with m rest context tr :
  exists more,
    snd (executeChain (m :: rest) context tr) = (tr ++ Invoked (mw_name m) :: more)%list.
Proof.
  unfold executeChain. cbn [length next nth_error index ctx trace].
  destruct (run_extends _ (next_extends (m :: rest) (length rest))
              (handler m context) (mkState 1 context (tr ++ [Invoked (mw_name m)])))
    as [more Hm].
  cbn [trace] in Hm.
  destruct (run _ _ _) as [[| e | |] st2]; cbn [snd] in *;
    exists more; rewrite Hm, <- app_assoc; reflexivity.
Qed.

Lemma executeChain_extends middlewares context tr :
  exists more, snd (executeChain middlewares context tr) = (tr ++ more)%list.
Proof.
  unfold executeChain.
  destruct (next_extends middlewares (length middlewares) (mkState 0 context tr))
    as [more Hm].
  destruct (next _ _ _) as [out st]. cbn [snd trace] in *. exists more. exact Hm.
Qed.

(** A rejection of [next] is always the error of its [catch] block, for
    the middleware at the index the call found. *)
Lemma next_rejection fuel middlewares st e st' :
  next fuel middlewares st = (Rejected e, st') ->
  exists m inner,
    nth_error middlewares (index st) = Some m /\ e = middlewareError (mw_name m) inner.
Proof.
  destruct fuel as [| fuel]; simpl.
  - destruct (nth_error middlewares (index st)); discriminate.
  - destruct (nth_error middlewares (index st)) as [m |]; [| discriminate].
    destruct (run _ _ _) as [[| inner | |] st2]; intros H; inversion H; subst.
    exists m, inner. split; reflexivity.
Qed.

(** A rejection of [executeChain] comes from the [catch] block around the
    first handler, and wraps what the body of that handler rejected
    with. *)
Lemma executeChain_rejection middlewares context tr e context' tr' :
  executeChain middlewares context tr = (Rejected e, context', tr') ->
  exists m rest inner st,
    middlewares = m :: rest
    /\ run (handler m context) (next (length rest) middlewares)
           (mkState 1 context (tr ++ [Invoked (mw_name m)])) = (Rejected inner, st)
    /\ e = middlewareError (mw_name m) inner.
Proof.
  unfold executeChain. destruct middlewares as [| m rest]; [discriminate |].
  cbn [length next nth_error index ctx trace].
  destruct (run _ _ _) as [[| inner | |] st2] eqn:E; intros H; inversion H; subst.
  exists m, rest, inner, st2. split; [reflexivity |]. split; [exact E | reflexivity].
Qed.

Lemma executeChain_readOnly middlewares context tr :
  (forall m c, In m middlewares -> readOnly (handler m c)) ->
  snd (fst (executeChain middlewares context tr)) = context.
Proof.
  intros Hall. unfold executeChain.
  pose proof (next_readOnly middlewares (length middlewares) Hall (mkState 0 context tr))
    as H.
  destruct (next _ _ _) as [out st]. exact H.
Qed.

End ChainRunsTop.

(** X11.  A run of [execute] completes.  Each call of [next] that reaches
    a handler has advanced the index first, so calls nest no deeper than
    the chain is long, whatever the handlers do with [next]: the bound on
    the nesting is never reached.  And when every handler of the chain
    settles once the calls it awaits have settled, so does [execute]: it
    resolves or it rejects. *)
Theorem X11_execute_completes :
  forall (middlewares : list Middleware) (context : RouteContext)
         (tr : list MiddlewareChain.Event),
    fst (fst (MiddlewareChain.executeChain middlewares context tr))
    <> MiddlewareChain.OutOfFuel
    /\ fst (fst (MiddlewareChain.execute middlewares context tr))
       <> MiddlewareChain.OutOfFuel
    /\ ((forall m c, In m middlewares -> settles (handler m c)) ->
        fst (fst (MiddlewareChain.executeChain middlewares context tr))
        <> MiddlewareChain.Pending
        /\ fst (fst (MiddlewareChain.execute middlewares context tr))
           <> MiddlewareChain.Pending).
Proof.
  intros. split; [apply executeChain_returns |]. split; [apply execute_returns |].
  intros Hall. split; [apply executeChain_settles | apply execute_settles]; exact Hall.
Qed.

(** X11, witness: the chain of a new router settles. *)
Lemma X11_execute_completes_witness :
  fst (fst (MiddlewareChain.execute (MiddlewareChain.routerChain "0.00") someContext []))
  <> MiddlewareChain.Pending.
Proof.
  destruct (X11_execute_completes (MiddlewareChain.routerChain "0.00") someContext [])
    as (_ & _ & H).
  apply H. intros m c Hin.
  destruct Hin as [<- | [<- | [<- | []]]]; cbn; repeat split; intros; exact I.
Defined.

(** X12.  Whatever the handlers do (call [next] once, several times, not
    at all, catch its errors), the middlewares one [executeChain] invokes
    are the first [k] of its list, each once and in list order: none is
    skipped, repeated or taken out of order. *)
Theorem X12_chain_invokes_a_prefix_in_order :
  forall (middlewares : list Middleware) (context : RouteContext)
         (tr : list MiddlewareChain.Event),
    exists k, (k <= length middlewares)%nat
      /\ MiddlewareChain.invoked (snd (MiddlewareChain.executeChain middlewares context tr))
         = (MiddlewareChain.invoked tr ++ List.map mw_name (firstn k middlewares))%list.
Proof. intros. apply executeChain_inOrder. Qed.

(** X13.  When [executeChain] rejects, the error is the one built by the
    [catch] block around the first handler of its list: whichever handler
    threw, the message names the first.  Its details are the message of
    what the body of the first handler rejected with, and its code is
    undefined ([MIDDLEWARE_ERROR] is not a member of [ErrorCodes]), so
    that [isFullError] does not recognise it.  When the first handler
    awaits [next] without catching and throws nothing itself, what it
    rejected with is the error built for the second handler: the details
    name the second handler and the original cause is not in the error. *)
Theorem X13_rejection_names_first_handler :
  forall (middlewares : list Middleware) (context context' : RouteContext)
         (tr tr' : list MiddlewareChain.Event) (e : Thrown),
    MiddlewareChain.executeChain middlewares context tr
    = (MiddlewareChain.Rejected e, context', tr') ->
    exists m rest inner st,
      middlewares = m :: rest
      /\ MiddlewareChain.run (handler m context)
           (MiddlewareChain.next (length rest) middlewares)
           (MiddlewareChain.mkState 1 context (tr ++ [MiddlewareChain.Invoked (mw_name m)]))
         = (MiddlewareChain.Rejected inner, st)
      /\ e = ErrorObject
               (mkError None
                  ("Middleware '" ++ mw_name m ++ "' failed")
                  (Some (errorDetails inner))
                  (Some "Check middleware implementation and error handling"))
      /\ isFullError e = false
      /\ (handler m context = AwaitNext Return Raise ->
          exists m2 rest2,
            rest = m2 :: rest2
            /\ errorDetails inner = "Middleware '" ++ mw_name m2 ++ "' failed").
Proof.
  intros middlewares context context' tr tr' e H.
  destruct (executeChain_rejection _ _ _ _ _ _ H) as (m & rest & inner & st & -> & Hrun & ->).
  exists m, rest, inner, st. split; [reflexivity |]. split; [exact Hrun |].
  split; [reflexivity |]. split; [reflexivity |].
  intros Hpass. rewrite Hpass in Hrun. cbn [MiddlewareChain.run] in Hrun.
  destruct (MiddlewareChain.next (length rest) (m :: rest) _) as [[| e2 | |] st'] eqn:E;
    cbn [MiddlewareChain.run] in Hrun; try discriminate.
  inversion Hrun; subst e2 st'.
  destruct (next_rejection _ _ _ _ _ E) as (m2 & inner2 & Hnth & ->).
  cbn [MiddlewareChain.index nth_error] in Hnth.
  destruct rest as [| m2' rest2]; [discriminate |].
  cbn in Hnth. inversion Hnth; subst m2'.
  exists m2, rest2. split; reflexivity.
Qed.

(** X13, witness: the third handler throws, the first is named and the
    details name the second. *)
Lemma X13_rejection_names_first_handler_witness :
  exists m rest inner,
    [ mkMiddleware "A" passThrough None; mkMiddleware "B" passThrough None;
      mkMiddleware "C" (throwing (plainError "boom")) None ] = m :: rest
    /\ MiddlewareChain.middlewareError "A"
         (MiddlewareChain.middlewareError "B"
            (MiddlewareChain.middlewareError "C" (plainError "boom")))
       = ErrorObject
           (mkError None
              ("Middleware '" ++ mw_name m ++ "' failed")
              (Some (errorDetails inner))
              (Some "Check middleware implementation and error handling"))
    /\ errorDetails inner = "Middleware 'B' failed".
Proof.
  destruct (X13_rejection_names_first_handler
              [ mkMiddleware "A" passThrough None; mkMiddleware "B" passThrough None;
                mkMiddleware "C" (throwing (plainError "boom")) None ]
              someContext someContext []
              [MiddlewareChain.Invoked "A"; MiddlewareChain.Invoked "B";
               MiddlewareChain.Invoked "C"]
              (MiddlewareChain.middlewareError "A"
                 (MiddlewareChain.middlewareError "B"
                    (MiddlewareChain.middlewareError "C" (plainError "boom"))))
              eq_refl)
    as (m & rest & inner & st & Hlist & _ & He & _ & Hdetails).
  exists m, rest, inner. split; [exact Hlist |]. split; [exact He |].
  inversion Hlist; subst m rest.
  destruct (Hdetails eq_refl) as (m2 & rest2 & Hrest & Hd).
  inversion Hrest; subst m2 rest2. exact Hd.
Defined.

(* ===================================================================== *)
(** ** The two phases, and the router's own chain *)
(* ===================================================================== *)

Section Phases.
Import MiddlewareChain.

Lemma execute_phases middlewares context tr :
  execute middlewares context tr
  = match executeChain (beforePhase middlewares) context tr with
    | (Resolved, context1, tr1) => executeChain (afterPhase middlewares) context1 tr1
    | (out, context1, tr1) => (out, context1, tr1)
    end.
Proof. reflexivity. Qed.

Lemma execute_invoked middlewares context tr :
  exists k1 k2,
    invoked (snd (execute middlewares context tr))
    = (invoked tr ++ List.map mw_name (firstn k1 (beforePhase middlewares))
         ++ List.map mw_name (firstn k2 (afterPhase middlewares)))%list
    /\ (fst (fst (executeChain (beforePhase middlewares) context tr)) <> Resolved ->
        k2 = 0%nat).
Proof.
  rewrite execute_phases.
  destruct (executeChain_inOrder (beforePhase middlewares) context tr) as (k1 & _ & H1).
  destruct (executeChain (beforePhase middlewares) context tr)
    as [[[| e | |] context1] tr1]; cbn [fst snd] in *.
  - destruct (executeChain_inOrder (afterPhase middlewares) context1 tr1) as (k2 & _ & H2).
    exists k1, k2. split; [| congruence].
    rewrite H2, H1, <- app_assoc. reflexivity.
  - exists k1, 0%nat. split; [| reflexivity]. rewrite H1. cbn. rewrite app_nil_r. reflexivity.
  - exists k1, 0%nat. split; [| reflexivity]. rewrite H1. cbn. rewrite app_nil_r. reflexivity.
  - exists k1, 0%nat. split; [| reflexivity]. rewrite H1. cbn. rewrite app_nil_r. reflexivity.
Qed.

Lemma execute_extends middlewares context tr :
  exists more, snd (execute middlewares context tr) = (tr ++ more)%list.
Proof.
  rewrite execute_phases.
  destruct (executeChain_extends (beforePhase middlewares) context tr) as [more1 H1].
  destruct (executeChain (beforePhase middlewares) context tr)
    as [[[| e | |] context1] tr1]; cbn [snd] in *; try (exists more1; exact H1).
  destruct (executeChain_extends (afterPhase middlewares) context1 tr1) as [more2 H2].
  exists (more1 ++ more2)%list. rewrite H2, H1, <- app_assoc. reflexivity.
Qed.

Lemma execute_starts_with_before m rest middlewares context tr :
  beforePhase middlewares = m :: rest ->
  exists more,
    snd (execute middlewares context tr) = (tr ++ Invoked (mw_name m) :: more)%list.
Proof.
  intros Hb. rewrite execute_phases, Hb.
  destruct (executeChain_starts_with m rest context tr) as [more1 H1].
  destruct (executeChain (m :: rest) context tr) as [[[| e | |] context1] tr1];
    cbn [snd] in *; try (exists more1; exact H1).
  destruct (executeChain_extends (afterPhase middlewares) context1 tr1) as [more2 H2].
  exists (more1 ++ more2)%list. rewrite H2, H1, <- app_assoc. reflexivity.
Qed.

Lemma execute_readOnly middlewares context tr :
  (forall m c, In m middlewares -> readOnly (handler m c)) ->
  snd (fst (execute middlewares context tr)) = context.
Proof.
  intros Hall. rewrite execute_phases.
  assert (Hsub : forall f m c, In m (List.filter f middlewares) -> readOnly (handler m c)).
  { intros f m c Hin. apply Hall. apply filter_In in Hin. tauto. }
  pose proof (executeChain_readOnly (beforePhase middlewares) context tr
                (Hsub (fun m => negb (isAfter m)))) as H1.
  destruct (executeChain (beforePhase middlewares) context tr)
    as [[[| e | |] context1] tr1]; cbn [fst snd] in *; try exact H1.
  subst context1. apply executeChain_readOnly. apply Hsub.
Qed.

(** The three built-in middlewares in front of a chain: what the chain does
    is what the rest of the chain does from the fourth position on. *)
Lemma routerChain_around duration others context tr :
  executeChain (routerChain duration ++ others) context tr
  = match next (length others) (routerChain duration ++ others)
            (mkState 3 context
               (tr ++ [Invoked "errorBoundary"; Invoked "timing";
                       Invoked "logger";
                       Logged ("[Route] " ++ ctx_pathname context)])) with
    | (Resolved, st) =>
        (Resolved, ctx st,
         (trace st ++ [Logged ("[Route] Complete: " ++ ctx_pathname (ctx st));
                       Logged ("[Route] Duration: " ++ duration ++ "ms")])%list)
    | (Rejected e, st) =>
        (Rejected (middlewareError "errorBoundary"
                     (middlewareError "timing" (middlewareError "logger" e))),
         ctx st,
         (trace st ++ [Logged "[Route] Error:"])%list)
    | (Pending, st) => (Pending, ctx st, trace st)
    | (OutOfFuel, st) => (OutOfFuel, ctx st, trace st)
    end.
Proof.
  unfold executeChain, routerChain, add. cbn [app length].
  cbn [next nth_error index ctx trace createErrorBoundaryMiddleware createTimingMiddleware
       createLoggerMiddleware handler mw_name run].
  rewrite <- !app_assoc. cbn [app].
  destruct (next (length others) _ _) as [[| e | |] st];
    cbn [index ctx trace run]; rewrite <- ?app_assoc; reflexivity.
Qed.

Lemma routerChain_readOnly duration m c :
  In m (routerChain duration) -> readOnly (handler m c) /\ settles (handler m c).
Proof.
  intros Hin. destruct Hin as [<- | [<- | [<- | []]]]; cbn; repeat split; intros; exact I.
Qed.

End Phases.

(** X14.  For handlers that await the calls they make to [next] (the
    handlers of this development; a call left unawaited lets later
    handlers of the phase run after [execute] has moved on).  [execute]
    invokes handlers of the phase that is not ['after'] first and handlers
    of the phase ['after'] second, each group being a prefix of that phase
    in registration order; unless the first phase resolves, no handler of
    the ['after'] phase is invoked; when the first phase rejects,
    [execute] rejects with the same error, and when it resolves the second
    phase starts on the context object as the first has left it. *)
Theorem X14_before_phase_then_after_phase :
  forall (middlewares : list Middleware) (context : RouteContext)
         (tr : list MiddlewareChain.Event),
    (exists k1 k2,
        MiddlewareChain.invoked (snd (MiddlewareChain.execute middlewares context tr))
        = (MiddlewareChain.invoked tr
             ++ List.map mw_name (firstn k1 (beforePhase middlewares))
             ++ List.map mw_name (firstn k2 (afterPhase middlewares)))%list
        /\ (fst (fst (MiddlewareChain.executeChain (beforePhase middlewares) context tr))
            <> MiddlewareChain.Resolved -> k2 = 0%nat))
    /\ (forall e context1 tr1,
          MiddlewareChain.executeChain (beforePhase middlewares) context tr
          = (MiddlewareChain.Rejected e, context1, tr1) ->
          MiddlewareChain.execute middlewares context tr
          = (MiddlewareChain.Rejected e, context1, tr1))
    /\ (forall context1 tr1,
          MiddlewareChain.executeChain (beforePhase middlewares) context tr
          = (MiddlewareChain.Resolved, context1, tr1) ->
          MiddlewareChain.execute middlewares context tr
          = MiddlewareChain.executeChain (afterPhase middlewares) context1 tr1).
Proof.
  intros middlewares context tr. split; [| split].
  - apply execute_invoked.
  - intros e context1 tr1 H. rewrite execute_phases, H. reflexivity.
  - intros context1 tr1 H. rewrite execute_phases, H. reflexivity.
Qed.

(** X14, witness: [B] (before) throws; [C] (after) is not invoked. *)
Lemma X14_before_phase_then_after_phase_witness :
  let chain := [ mkMiddleware "A" passThrough (Some before);
                 mkMiddleware "C" passThrough (Some after);
                 mkMiddleware "B" (throwing (plainError "boom")) None ] in
  MiddlewareChain.invoked (snd (MiddlewareChain.execute chain someContext [])) = ["A"; "B"].
Proof.
  intros chain.
  destruct (X14_before_phase_then_after_phase chain someContext []) as (_ & H & _).
  rewrite (H (MiddlewareChain.middlewareError "A"
                (MiddlewareChain.middlewareError "B" (plainError "boom")))
             someContext
             [MiddlewareChain.Invoked "A"; MiddlewareChain.Invoked "B"] eq_refl).
  reflexivity.
Defined.

(** X15.  [addBefore] puts the middleware in front of the list and forces
    its phase to ['before'], whatever phase it was given: the next
    [execute] invokes it before anything else. *)
Theorem X15_addBefore_runs_first :
  forall (m : Middleware) (middlewares : list Middleware) (context : RouteContext)
         (tr : list MiddlewareChain.Event),
    exists more,
      snd (MiddlewareChain.execute (MiddlewareChain.addBefore m middlewares) context tr)
      = (tr ++ MiddlewareChain.Invoked (mw_name m) :: more)%list.
Proof.
  intros m middlewares context tr.
  apply (execute_starts_with_before
           (mkMiddleware (mw_name m) (handler m) (Some before))
           (beforePhase middlewares)).
  reflexivity.
Qed.

(** X16.  The built-in middlewares observe and pass on.  For the chain of
    a new router followed by any other middlewares, the run resolves
    exactly when the run of the others resolves, and rejects exactly when
    theirs rejects, with their error wrapped by [logger], [timing] and
    [errorBoundary] in turn; the three are invoked in the order
    [errorBoundary], [timing], [logger], none of them halts the chain,
    swallows an error or assigns to the context, and the closing line of
    [logger] shows the path as the others have left it. *)
Theorem X16_builtins_are_transparent :
  forall (duration : string) (others : list Middleware) (context : RouteContext)
         (tr : list MiddlewareChain.Event),
    MiddlewareChain.executeChain (MiddlewareChain.routerChain duration ++ others) context tr
    = match MiddlewareChain.next (length others)
              (MiddlewareChain.routerChain duration ++ others)
              (MiddlewareChain.mkState 3 context
                 (tr ++ [MiddlewareChain.Invoked "errorBoundary";
                         MiddlewareChain.Invoked "timing";
                         MiddlewareChain.Invoked "logger";
                         MiddlewareChain.Logged ("[Route] " ++ ctx_pathname context)])) with
      | (MiddlewareChain.Resolved, st) =>
          (MiddlewareChain.Resolved, MiddlewareChain.ctx st,
           (MiddlewareChain.trace st
              ++ [MiddlewareChain.Logged
                    ("[Route] Complete: " ++ ctx_pathname (MiddlewareChain.ctx st));
                  MiddlewareChain.Logged ("[Route] Duration: " ++ duration ++ "ms")])%list)
      | (MiddlewareChain.Rejected e, st) =>
          (MiddlewareChain.Rejected
             (MiddlewareChain.middlewareError "errorBoundary"
                (MiddlewareChain.middlewareError "timing"
                   (MiddlewareChain.middlewareError "logger" e))),
           MiddlewareChain.ctx st,
           (MiddlewareChain.trace st ++ [MiddlewareChain.Logged "[Route] Error:"])%list)
      | (MiddlewareChain.Pending, st) =>
          (MiddlewareChain.Pending, MiddlewareChain.ctx st, MiddlewareChain.trace st)
      | (MiddlewareChain.OutOfFuel, st) =>
          (MiddlewareChain.OutOfFuel, MiddlewareChain.ctx st, MiddlewareChain.trace st)
      end.
Proof. intros. apply routerChain_around. Qed.

(* ===================================================================== *)
(** ** The router: [execute], [use], [group] *)
(* ===================================================================== *)

Section RouterObject.
Import MiddlewareChain.

Lemma In_firstn_In {A} (x : A) (k : nat) (l : list A) : In x (firstn k l) -> In x l.
Proof.
  revert l. induction k as [| k IH]; intros l H; [destruct H |].
  destruct l as [| y l]; [destruct H |]. destruct H as [H | H]; [left; exact H |].
  right. apply IH. exact H.
Qed.

Lemma invoked_from_chain middlewares context tr name :
  In name (invoked (snd (execute middlewares context tr))) ->
  In name (invoked tr) \/ In name (List.map mw_name middlewares).
Proof.
  intros Hin. destruct (execute_invoked middlewares context tr) as (k1 & k2 & H & _).
  rewrite H in Hin. apply in_app_or in Hin. destruct Hin as [Hin | Hin]; [left; exact Hin |].
  right. apply in_app_or in Hin.
  assert (Hsub : forall k f, In name (List.map mw_name (firstn k (List.filter f middlewares))) ->
                             In name (List.map mw_name middlewares)).
  { intros k f Hk. apply in_map_iff in Hk. destruct Hk as (m & Hname & Hm).
    apply in_map_iff. exists m. split; [exact Hname |].
    apply In_firstn_In, filter_In in Hm. tauto. }
  destruct Hin as [Hin | Hin]; eapply Hsub; exact Hin.
Qed.

(** [validateMatch] accepts exactly the matches whose route has a page,
    and its error is the only one with a code. *)
Lemma validateMatch_cases m :
  match page (route m) with
  | Some _ => Matcher.validateMatch m = Ok tt
  | None => exists e, Matcher.validateMatch m = Throw e /\ code e = Some INVALID_CONFIG
  end.
Proof.
  unfold Matcher.validateMatch. destruct (page (route m)); [reflexivity |].
  eexists. split; reflexivity.
Qed.

End RouterObject.

(** X17.  What [Router.execute] lets out.  Of the errors it throws, the
    only one [isFullError] recognises is the configuration error of a
    matched route without a page: the route-not-found error and the
    route-execution-failed error are created with codes that are not
    members of [ErrorCodes].  No middleware has run unless a route with a
    page matched and [window] is defined.  The context returned is the one
    object the chain worked on: when no middleware of the chain assigns to
    it, it holds the parameters of the match, the query string, the path
    and no data.  And when every middleware of the chain settles, the call
    ends. *)
Theorem X17_router_execute_outcomes :
  forall (pathname : string) (window : option string) (r : RouterRun.RouterState)
         (tr : list MiddlewareChain.Event),
    let done := RouterRun.execute pathname window r tr in
    (forall e, fst done = RouterRun.Threw e ->
       (isFullError (ErrorObject e) = true <->
          exists m, Matcher.matchRoute pathname (RouterRun.routeTree r) = Some m
                    /\ page (route m) = None)
       /\ (Matcher.matchRoute pathname (RouterRun.routeTree r) = None ->
           e = RouterRun.routeNotFound pathname))
    /\ (snd done <> tr ->
        exists m pg search,
          Matcher.matchRoute pathname (RouterRun.routeTree r) = Some m
          /\ page (route m) = Some pg /\ window = Some search)
    /\ (forall context,
          fst done = RouterRun.Returned context ->
          (forall mw c, In mw (RouterRun.middlewareChain r) -> readOnly (handler mw c)) ->
          exists m search,
            Matcher.matchRoute pathname (RouterRun.routeTree r) = Some m
            /\ window = Some search
            /\ context = mkContext (params m) search pathname None)
    /\ fst done <> RouterRun.Stuck
    /\ ((forall mw c, In mw (RouterRun.middlewareChain r) -> settles (handler mw c)) ->
        fst done <> RouterRun.NeverSettles).
Proof.
  intros pathname window r tr. cbv zeta. unfold RouterRun.execute.
  destruct (Matcher.matchRoute pathname (RouterRun.routeTree r)) as [m |].
  2:{ cbn [fst snd]. split; [| split; [| split; [| split]]].
      - intros e He. inversion He; subst e. split; [| reflexivity].
        split; [discriminate | intros (m & Hm & _); discriminate].
      - intros Hne. contradiction.
      - discriminate.
      - discriminate.
      - discriminate. }
  pose proof (validateMatch_cases m) as Hv.
  destruct (page (route m)) as [pg |] eqn:Hpage.
  2:{ destruct Hv as (e0 & -> & Hcode). cbn [fst snd].
      split; [| split; [| split; [| split]]].
      - intros e He. inversion He; subst e. split; [| discriminate].
        unfold isFullError. rewrite Hcode. split; [| reflexivity].
        intros _. exists m. split; [reflexivity | exact Hpage].
      - intros Hne. contradiction.
      - discriminate.
      - discriminate.
      - discriminate. }
  rewrite Hv. destruct window as [search |].
  2:{ cbn [fst snd]. split; [| split; [| split; [| split]]].
      - discriminate.
      - intros Hne. contradiction.
      - discriminate.
      - discriminate.
      - discriminate. }
  pose proof (execute_returns (RouterRun.middlewareChain r)
                (mkContext (params m) search pathname None) tr) as Hret.
  pose proof (execute_settles (RouterRun.middlewareChain r)
                (mkContext (params m) search pathname None) tr) as Hset.
  pose proof (execute_readOnly (RouterRun.middlewareChain r)
                (mkContext (params m) search pathname None) tr) as Hro.
  destruct (MiddlewareChain.execute _ _ tr) as [[[| error | |] context'] tr'];
    cbn [fst snd] in *.
  - split; [discriminate |]. split; [intros _; exists m, pg, search; auto |].
    split; [| split; [discriminate | discriminate]].
    intros context Hc Hall. inversion Hc; subst context.
    exists m, search. split; [reflexivity |]. split; [reflexivity |]. apply Hro. exact Hall.
  - split; [| split; [intros _; exists m, pg, search; auto |
                      split; [discriminate | split; discriminate]]].
    intros e He. inversion He; subst e. split; [| discriminate].
    split; [discriminate |]. intros (m' & Hm' & Hpage'). inversion Hm'; subst m'.
    congruence.
  - split; [discriminate |]. split; [intros _; exists m, pg, search; auto |].
    split; [discriminate |]. split; [discriminate |].
    intros Hall. specialize (Hset Hall). congruence.
  - congruence.
Qed.

(** X17, witness: a new router with one route, executed on its path. *)
Lemma X17_router_execute_outcomes_witness :
  let cfg := mkConfig "/users/[id]" (Some (Page "user")) None None in
  let r := snd (RouterRun.addRoute cfg (RouterRun.new "0.00")) in
  fst (RouterRun.execute "/users/7" (Some "?tab=1") r [])
  = RouterRun.Returned (mkContext {[ "id" := "7" ]} "?tab=1" "/users/7" None)
  /\ isFullError (ErrorObject (RouterRun.routeNotFound "/nowhere")) = false.
Proof.
  intros cfg r.
  destruct (X17_router_execute_outcomes "/users/7" (Some "?tab=1") r [])
    as (_ & _ & Hctx & _ & _).
  destruct (X17_router_execute_outcomes "/nowhere" None r []) as (Herr & _).
  split.
  - destruct (Hctx (mkContext {[ "id" := "7" ]} "?tab=1" "/users/7" None) eq_refl)
      as (m & search & Hm & Hw & Hc).
    + intros mw c Hin. apply (routerChain_readOnly "0.00" mw c). exact Hin.
    + reflexivity.
  - destruct (Herr (RouterRun.routeNotFound "/nowhere") eq_refl) as [Hfull _].
    destruct (isFullError (ErrorObject (RouterRun.routeNotFound "/nowhere"))) eqn:E;
      [| reflexivity].
    destruct (proj1 Hfull eq_refl) as (m & Hm & _). discriminate.
Defined.

(** X18.  [Router.execute] runs the global chain only: every middleware it
    invokes is one of the chain held by the router (the built-ins and
    those added by [use]).  The middleware that [addRoute] stores on route
    nodes is not consulted, and [addRoute] leaves the global chain as it
    is. *)
Theorem X18_route_middleware_is_never_run :
  forall (pathname : string) (window : option string) (r : RouterRun.RouterState)
         (cfg : RouteConfig) (tr : list MiddlewareChain.Event) (name : string),
    RouterRun.middlewareChain (snd (RouterRun.addRoute cfg r)) = RouterRun.middlewareChain r
    /\ (In name (MiddlewareChain.invoked (snd (RouterRun.execute pathname window r tr))) ->
        In name (MiddlewareChain.invoked tr)
        \/ In name (List.map mw_name (RouterRun.middlewareChain r))).
Proof.
  intros pathname window r cfg tr name. split.
  - unfold RouterRun.addRoute. destruct (Router.addRoute cfg (RouterRun.routeTree r)).
    reflexivity.
  - unfold RouterRun.execute.
    destruct (Matcher.matchRoute pathname (RouterRun.routeTree r)) as [m |];
      [| cbn [snd]; tauto].
    destruct (Matcher.validateMatch m); [| cbn [snd]; tauto].
    destruct window as [search |]; [| cbn [snd]; tauto].
    intros Hin. apply (invoked_from_chain (RouterRun.middlewareChain r)
                         (mkContext (params m) search pathname None) tr name).
    destruct (MiddlewareChain.execute _ _ tr) as [[[| error | |] context'] tr']; exact Hin.
Qed.

(** X18, witness: a route registered with its own middleware [guard] on a
    new router; executing the route invokes the three built-ins only. *)
Lemma X18_route_middleware_is_never_run_witness :
  let cfg := mkConfig "/admin" (Some (Page "admin"))
               (Some [mkMiddleware "guard" halting None]) None in
  let r := snd (RouterRun.addRoute cfg (RouterRun.new "0.00")) in
  MiddlewareChain.invoked (snd (RouterRun.execute "/admin" (Some "") r []))
  = ["errorBoundary"; "timing"; "logger"]
  /\ forall name,
       In name (MiddlewareChain.invoked (snd (RouterRun.execute "/admin" (Some "") r []))) ->
       In name (MiddlewareChain.invoked [])
       \/ In name (List.map mw_name (RouterRun.middlewareChain r)).
Proof.
  intros cfg r. split; [reflexivity |].
  intros name. apply (X18_route_middleware_is_never_run "/admin" (Some "") r cfg [] name).
Defined.

(** X19.  [group] keeps the routes, their order and their paths, gives each
    the group options and puts the group middleware in front of the
    route's own.  When such a route is registered, [addRoute] pushes the
    route's middleware list and then the group's again: the node ends up
    with the group middleware, the route middleware, and the group
    middleware a second time, after whatever the node held. *)
Theorem X19_group_middleware_is_attached_twice :
  forall (options : RouteGroup) (gm : list Middleware) (routes : list RouteConfig),
    group_middleware options = Some gm ->
    List.map path (RouterRun.group (Some options) routes) = List.map path routes
    /\ forall (route : RouteConfig) (segs : list RouteSegment) (t : RouteNode),
         parseRoute (path route) = Ok segs ->
         forall grouped, RouterRun.group (Some options) [route] = [grouped] ->
           exists n,
             nodeAt (List.map Router.key segs) (snd (Router.addRoute grouped t)) = Some n
             /\ config n = Some grouped
             /\ node_middleware n
                = (node_middleware (landing segs t)
                     ++ gm
                     ++ (match middleware route with Some ms => ms | None => [] end)
                     ++ gm)%list.
Proof.
  intros options gm routes Hgm. split.
  - unfold RouterRun.group. rewrite List.map_map. reflexivity.
  - intros route segs t Hp grouped Hg.
    unfold RouterRun.group in Hg. cbn [List.map] in Hg. inversion Hg; subst grouped.
    rewrite Hgm. unfold Router.addRoute. cbn [path]. rewrite Hp. cbn [snd].
    rewrite nodeAt_walk. eexists. split; [reflexivity |].
    split; [reflexivity |].
    unfold Router.attach, Router.routeMiddleware.
    cbn [node_middleware middleware group]. rewrite Hgm.
    rewrite <- !app_assoc. reflexivity.
Qed.

(** X19, witness. *)
Lemma X19_group_middleware_is_attached_twice_witness :
  let auth := mkMiddleware "auth" passThrough None in
  let audit := mkMiddleware "audit" passThrough None in
  let options := mkGroup (Some [auth]) in
  let route := mkConfig "/admin" None (Some [audit]) None in
  let grouped := mkConfig "/admin" None (Some [auth; audit]) (Some options) in
  RouterRun.group (Some options) [route] = [grouped]
  /\ exists n,
       nodeAt ["admin"] (snd (Router.addRoute grouped Router.emptyTree)) = Some n
       /\ List.map mw_name (node_middleware n) = ["auth"; "audit"; "auth"].
Proof.
  intros auth audit options route grouped. split; [reflexivity |].
  destruct (X19_group_middleware_is_attached_twice options [auth] [route] eq_refl) as [_ H].
  destruct (H route [StaticSegment "admin"] Router.emptyTree eq_refl grouped eq_refl)
    as (n & Hn & _ & Hmw).
  exists n. split; [exact Hn |]. rewrite Hmw. reflexivity.
Defined.

(* ===================================================================== *)
(** ** The cache: writes, reads and removals together *)
(* ===================================================================== *)

Section CacheComposition.
Import DataTypes MemoryCache.

(** A read leaves the bindings of the other keys alone. *)
Lemma get_other_key_stored key key' now now' h st :
  key <> key' ->
  JsMap.get key' (cache (snd (get key now now' h st))) = JsMap.get key' (cache st).
Proof.
  intros Hne. unfold get. destruct (JsMap.get key (cache st)) as [r |]; [| reflexivity].
  destruct (h !! r) as [entry |]; [| reflexivity].
  destruct (isExpired now entry).
  - cbn [snd delete cache]. apply jsmap_get_delete_ne. exact Hne.
  - destruct (isStale now' entry); [| reflexivity].
    cbn [snd]. rewrite queueRevalidation_cache. reflexivity.
Qed.

(** What a read returns depends on the reference stored under the key, on
    the heap and on the clock only. *)
Lemma get_result_by_stored key now now' h st st' :
  JsMap.get key (cache st) = JsMap.get key (cache st') ->
  fst (get key now now' h st) = fst (get key now now' h st').
Proof.
  intros H. unfold get. rewrite H.
  destruct (JsMap.get key (cache st')) as [r |]; [| reflexivity].
  destruct (h !! r) as [entry |]; [| reflexivity].
  destruct (isExpired now entry); [reflexivity |].
  destruct (isStale now' entry); reflexivity.
Qed.

(** The only object a read can assign to is the one stored under the key
    read, and no object is created. *)
Lemma get_heap key now now' h st :
  let h' := snd (fst (get key now now' h st)) in
  length h' = length h
  /\ forall r, JsMap.get key (cache st) <> Some r -> h' !! r = h !! r.
Proof.
  unfold get. destruct (JsMap.get key (cache st)) as [r0 |];
    [| split; [reflexivity | intros; reflexivity]].
  destruct (h !! r0) as [entry |]; [| split; [reflexivity | intros; reflexivity]].
  destruct (isExpired now entry); [split; [reflexivity | intros; reflexivity] |].
  destruct (isStale now' entry); [| split; [reflexivity | intros; reflexivity]].
  cbn [fst snd]. split; [apply length_insert |].
  intros r Hne. apply heap_assign_other. congruence.
Qed.

End CacheComposition.

(** X20.  [set] overwrites unconditionally and keeps the reference it is
    given: a read of the same key at a time when the entry is neither
    expired nor stale returns that very object and changes nothing, and
    reads of any other key return what they returned before the write. *)
Theorem X20_set_then_get :
  forall (key key' : string) (r : DataTypes.Ref) (entry : DataTypes.CacheEntry) (now now' : Z)
         (h : DataTypes.Heap) (st : MemoryCache.State),
    (h !! r = Some entry ->
     MemoryCache.isExpired now entry = false ->
     MemoryCache.isStale now' entry = false ->
     MemoryCache.get key now now' h (MemoryCache.set key r st)
     = (Some r, h, MemoryCache.set key r st))
    /\ (key <> key' ->
        fst (MemoryCache.get key' now now' h (MemoryCache.set key r st))
        = fst (MemoryCache.get key' now now' h st)).
Proof.
  intros key key' r entry now now' h st. split.
  - intros Hr He Hs. apply (get_fresh key now now' h _ r entry); [| exact Hr | exact He | exact Hs].
    cbn [MemoryCache.set MemoryCache.cache]. apply jsmap_get_set_eq.
  - intros Hne. apply get_result_by_stored.
    cbn [MemoryCache.set MemoryCache.cache]. apply jsmap_get_set_ne. exact Hne.
Qed.

(** X20, witness. *)
Lemma X20_set_then_get_witness :
  let a := DataTypes.mkEntry "1" 0 (DataTypes.Finite 1000) [] false in
  let b := DataTypes.mkEntry "2" 0 (DataTypes.Finite 1000) [] false in
  let h := [a; b] in
  let st := MemoryCache.set "a" 0%nat MemoryCache.empty in
  MemoryCache.get "b" 10 10 h (MemoryCache.set "b" 1%nat st)
  = (Some 1%nat, h, MemoryCache.set "b" 1%nat st)
  /\ fst (MemoryCache.get "a" 10 10 h (MemoryCache.set "b" 1%nat st))
     = fst (MemoryCache.get "a" 10 10 h st).
Proof.
  intros a b h st.
  destruct (X20_set_then_get "b" "a" 1%nat b 10 10 h st) as [Hsame Hother].
  split; [apply Hsame; reflexivity | apply Hother; discriminate].
Defined.

(** X21.  After [delete] or [clear] a read of the key returns absent,
    whatever was stored, and no object is touched; a [delete] of one key
    leaves the reads of every other key as they were.  A read of one key,
    even when it evicts or marks stale, changes the binding of no other
    key, creates no object and assigns to no object but the one stored
    under the key read.  Entries are shared by reference: when a second
    key holds that same object, the flag set by the read is seen under
    the second key as well. *)
Theorem X21_removals_and_frames :
  forall (key key' : string) (now now' : Z) (h : DataTypes.Heap) (st : MemoryCache.State),
    NoDup (JsMap.keys (MemoryCache.cache st)) ->
    MemoryCache.get key now now' h (MemoryCache.delete key st)
    = (None, h, MemoryCache.delete key st)
    /\ MemoryCache.get key now now' h (MemoryCache.clear st) = (None, h, MemoryCache.clear st)
    /\ (key <> key' ->
        fst (MemoryCache.get key' now now' h (MemoryCache.delete key st))
        = fst (MemoryCache.get key' now now' h st))
    /\ (key <> key' ->
        JsMap.get key' (MemoryCache.cache (snd (MemoryCache.get key now now' h st)))
        = JsMap.get key' (MemoryCache.cache st))
    /\ length (snd (fst (MemoryCache.get key now now' h st))) = length h
    /\ (forall r, JsMap.get key (MemoryCache.cache st) <> Some r ->
          snd (fst (MemoryCache.get key now now' h st)) !! r = h !! r)
    /\ (forall r entry,
          JsMap.get key (MemoryCache.cache st) = Some r ->
          JsMap.get key' (MemoryCache.cache st) = Some r ->
          h !! r = Some entry ->
          MemoryCache.isExpired now entry = false ->
          MemoryCache.isStale now' entry = true ->
          snd (fst (MemoryCache.get key now now' h st)) !! r
          = Some (MemoryCache.markStale entry)).
Proof.
  intros key key' now now' h st Hnd.
  split; [| split; [| split; [| split; [| split; [| split]]]]].
  - apply get_absent. cbn [MemoryCache.delete MemoryCache.cache].
    apply jsmap_get_delete_eq. exact Hnd.
  - reflexivity.
  - intros Hne. apply get_result_by_stored.
    cbn [MemoryCache.delete MemoryCache.cache]. apply jsmap_get_delete_ne. exact Hne.
  - intros Hne. apply get_other_key_stored. exact Hne.
  - apply (get_heap key now now' h st).
  - apply (get_heap key now now' h st).
  - intros r entry Hs _ Hr He Hst.
    rewrite (get_stale key now now' h st r entry Hs Hr He Hst). cbn [fst snd].
    apply (heap_assign_same h r entry). exact Hr.
Qed.

(** X21, witness: one object stored under [a] and under [b]; a read of
    [a] at a time when it is stale flags what is stored under [b]. *)
Lemma X21_removals_and_frames_witness :
  let shared := DataTypes.mkEntry "1" 0 (DataTypes.Finite 1000) [] false in
  let other := DataTypes.mkEntry "2" 0 (DataTypes.Finite 1000) [] false in
  let h := [shared; other] in
  let st := MemoryCache.set "c" 1%nat
              (MemoryCache.set "b" 0%nat (MemoryCache.set "a" 0%nat MemoryCache.empty)) in
  fst (fst (MemoryCache.get "a" 5 5 h (MemoryCache.delete "a" st))) = None
  /\ JsMap.get "b" (MemoryCache.cache (snd (MemoryCache.get "a" 800 800 h st))) = Some 0%nat
  /\ snd (fst (MemoryCache.get "a" 800 800 h st)) !! 0%nat = Some (MemoryCache.markStale shared)
  /\ snd (fst (MemoryCache.get "a" 800 800 h st)) !! 1%nat = Some other.
Proof.
  intros shared other h st.
  assert (Hnd : NoDup (JsMap.keys (MemoryCache.cache st))).
  { apply NoDup_ListNoDup. repeat constructor; cbn; intuition discriminate. }
  destruct (X21_removals_and_frames "a" "b" 5 5 h st Hnd) as (Hdel & _).
  destruct (X21_removals_and_frames "a" "b" 800 800 h st Hnd)
    as (_ & _ & _ & Hbind & _ & Hframe & Hshared).
  split; [rewrite Hdel; reflexivity |].
  split; [rewrite Hbind by discriminate; reflexivity |].
  split; [apply (Hshared 0%nat shared); reflexivity |].
  rewrite (Hframe 1%nat) by discriminate. reflexivity.
Defined.

(* ===================================================================== *)
(** ** The cache: queueing and revalidation passes *)
(* ===================================================================== *)

Section Queueing.
Import DataTypes MemoryCache.

Lemma get_queue_when_queued key now now' h st :
  key ∈ revalidationQueue st ->
  revalidationQueue (snd (get key now now' h st)) = revalidationQueue st
  /\ timers (snd (get key now now' h st)) = timers st.
Proof.
  intros Hq. unfold get. destruct (JsMap.get key (cache st)) as [r |];
    [| split; reflexivity].
  destruct (h !! r) as [entry |]; [| split; reflexivity].
  destruct (isExpired now entry); [split; reflexivity |].
  destruct (isStale now' entry); [| split; reflexivity].
  cbn [snd]. unfold queueRevalidation.
  rewrite decide_True by exact Hq. split; reflexivity.
Qed.

Lemma get_timers_bounds key now now' h st :
  (timers st <= timers (snd (get key now now' h st)) <= S (timers st))%nat
  /\ revalidationQueue st ⊆ revalidationQueue (snd (get key now now' h st)).
Proof.
  unfold get. destruct (JsMap.get key (cache st)) as [r |];
    [| split; [cbn; lia | set_solver]].
  destruct (h !! r) as [entry |]; [| split; [cbn; lia | set_solver]].
  destruct (isExpired now entry); [split; [cbn; lia | set_solver] |].
  destruct (isStale now' entry); [| split; [cbn; lia | set_solver]].
  cbn [snd]. unfold queueRevalidation.
  destruct (decide (key ∈ revalidationQueue st)); cbn [timers revalidationQueue].
  - split; [lia | set_solver].
  - split; [lia | set_solver].
Qed.

Lemma fold_revalidateEntry (selected : list (string * Ref)) :
  forall q : gset string,
    fold_left revalidateEntry selected q = q ∖ list_to_set (JsMap.keys selected).
Proof.
  induction selected as [| [k e] rest IH]; intros q; cbn [fold_left].
  - cbn. set_solver.
  - rewrite IH. unfold revalidateEntry. cbn [fst JsMap.keys List.map list_to_set].
    fold (JsMap.keys rest). set_solver.
Qed.

Lemma toRevalidate_In ts h (entries : list (string * Ref)) key r :
  In (key, r) (toRevalidate ts h entries)
  <-> In (key, r) entries
      /\ match ts with
         | None => True
         | Some wanted =>
             exists entry tag, h !! r = Some entry /\ In tag wanted /\ In tag (tags entry)
         end.
Proof.
  destruct ts as [wanted |]; cbn [toRevalidate]; [| tauto].
  rewrite filter_In. cbn [snd]. unfold hasSomeTag.
  split; intros [Hin H]; (split; [exact Hin |]).
  - destruct (h !! r) as [entry |]; [| discriminate].
    apply existsb_exists in H. destruct H as (tag & Htag & H).
    apply existsb_exists in H. destruct H as (tag' & Htag' & Heq).
    apply String.eqb_eq in Heq. subst tag'. exists entry, tag. auto.
  - destruct H as (entry & tag & -> & Htag & Htag'). apply existsb_exists. exists tag.
    split; [exact Htag |]. apply existsb_exists. exists tag.
    split; [exact Htag' | apply String.eqb_refl].
Qed.

End Queueing.

(** X22.  Staleness signals for one key are coalesced: while a key is in
    the revalidation queue, reads of that key add nothing to the queue and
    arm no timer, however often they find the entry stale.  No read ever
    takes a key out of the queue or arms more than one timer, and a read
    that finds an unqueued entry stale and not expired arms exactly one. *)
Theorem X22_one_timer_per_queued_key :
  forall (key : string) (now now' : Z) (h : DataTypes.Heap) (st : MemoryCache.State),
    (key ∈ MemoryCache.revalidationQueue st ->
       MemoryCache.revalidationQueue (snd (MemoryCache.get key now now' h st))
       = MemoryCache.revalidationQueue st
       /\ MemoryCache.timers (snd (MemoryCache.get key now now' h st)) = MemoryCache.timers st)
    /\ (MemoryCache.timers st <= MemoryCache.timers (snd (MemoryCache.get key now now' h st))
        <= S (MemoryCache.timers st))%nat
    /\ MemoryCache.revalidationQueue st
       ⊆ MemoryCache.revalidationQueue (snd (MemoryCache.get key now now' h st))
    /\ (forall r entry,
          key ∉ MemoryCache.revalidationQueue st ->
          JsMap.get key (MemoryCache.cache st) = Some r ->
          h !! r = Some entry ->
          MemoryCache.isExpired now entry = false ->
          MemoryCache.isStale now' entry = true ->
          MemoryCache.timers (snd (MemoryCache.get key now now' h st)) = S (MemoryCache.timers st)
          /\ MemoryCache.revalidationQueue (snd (MemoryCache.get key now now' h st))
             = {[key]} ∪ MemoryCache.revalidationQueue st).
Proof.
  intros key now now' h st.
  split; [apply get_queue_when_queued |].
  split; [apply get_timers_bounds |].
  split; [apply get_timers_bounds |].
  intros r entry Hq Hs Hr He Hst.
  rewrite (get_stale key now now' h st r entry Hs Hr He Hst). cbn [snd].
  unfold MemoryCache.queueRevalidation.
  rewrite decide_False by exact Hq. split; reflexivity.
Qed.

(** X22, witness: three reads of a stale entry arm one timer. *)
Lemma X22_one_timer_per_queued_key_witness :
  let entry := DataTypes.mkEntry "d" 0 (DataTypes.Finite 1000) [] false in
  let h0 := [entry] in
  let st0 := MemoryCache.set "k" 0%nat MemoryCache.empty in
  let h1 := snd (fst (MemoryCache.get "k" 800 800 h0 st0)) in
  let st1 := snd (MemoryCache.get "k" 800 800 h0 st0) in
  let h2 := snd (fst (MemoryCache.get "k" 810 810 h1 st1)) in
  let st2 := snd (MemoryCache.get "k" 810 810 h1 st1) in
  let st3 := snd (MemoryCache.get "k" 820 820 h2 st2) in
  MemoryCache.timers st1 = 1%nat /\ MemoryCache.timers st3 = 1%nat.
Proof.
  intros entry h0 st0 h1 st1 h2 st2 st3.
  destruct (X22_one_timer_per_queued_key "k" 800 800 h0 st0) as (_ & _ & _ & Hfirst).
  destruct (Hfirst 0%nat entry) as [Ht1 Hq1];
    [set_solver | reflexivity | reflexivity | reflexivity | reflexivity |].
  fold st1 in Ht1, Hq1.
  assert (Hin1 : "k" ∈ MemoryCache.revalidationQueue st1) by (rewrite Hq1; set_solver).
  destruct (X22_one_timer_per_queued_key "k" 810 810 h1 st1) as (Hsame1 & _).
  destruct (Hsame1 Hin1) as [Hq2 Ht2]. fold st2 in Hq2, Ht2.
  assert (Hin2 : "k" ∈ MemoryCache.revalidationQueue st2) by (rewrite Hq2; exact Hin1).
  destruct (X22_one_timer_per_queued_key "k" 820 820 h2 st2) as (Hsame2 & _).
  destruct (Hsame2 Hin2) as [_ Ht3]. fold st3 in Ht3.
  split; [exact Ht1 | rewrite Ht3, Ht2, Ht1; reflexivity].
Defined.

(** X23.  A call to [revalidate] that finds no pass in flight sets the
    flag and is left suspended; it runs its callback for the key of every
    stored entry when no tags are given, and otherwise for the entries
    carrying at least one of the given tags; it removes exactly these keys
    from the revalidation queue; and it changes no stored entry: the map
    is what it was and no object is assigned to.  A queued key with no
    stored entry is therefore still queued afterwards. *)
Theorem X23_revalidate_pass :
  forall (ts : option (list string)) (h : DataTypes.Heap) (st : MemoryCache.State),
    MemoryCache.isRevalidating st = false ->
    exists st' ran,
      MemoryCache.revalidate ts h st = (st', ran, true)
      /\ MemoryCache.isRevalidating st' = true
      /\ MemoryCache.cache st' = MemoryCache.cache st
      /\ MemoryCache.timers st' = MemoryCache.timers st
      /\ MemoryCache.revalidationQueue st'
         = MemoryCache.revalidationQueue st ∖ list_to_set ran
      /\ (forall key, In key ran <->
            exists r, In (key, r) (MemoryCache.cache st)
              /\ match ts with
                 | None => True
                 | Some wanted =>
                     exists entry tag,
                       h !! r = Some entry
                       /\ In tag wanted /\ In tag (DataTypes.tags entry)
                 end)
      /\ (forall key, key ∈ MemoryCache.revalidationQueue st ->
            JsMap.get key (MemoryCache.cache st) = None ->
            key ∈ MemoryCache.revalidationQueue st').
Proof.
  intros ts h st Hidle. unfold MemoryCache.revalidate. rewrite Hidle.
  eexists. eexists. split; [reflexivity |].
  cbn [MemoryCache.isRevalidating MemoryCache.cache MemoryCache.timers
       MemoryCache.revalidationQueue].
  split; [reflexivity |]. split; [reflexivity |]. split; [reflexivity |].
  assert (Hran : forall key,
             In key (List.map fst (MemoryCache.toRevalidate ts h (MemoryCache.cache st))) <->
             exists r, In (key, r) (MemoryCache.cache st)
               /\ match ts with
                  | None => True
                  | Some wanted =>
                      exists entry tag,
                        h !! r = Some entry
                        /\ In tag wanted /\ In tag (DataTypes.tags entry)
                  end).
  { intros key. rewrite in_map_iff. split.
    - intros ([k r] & Hk & Hin). cbn [fst] in Hk. subst k.
      apply toRevalidate_In in Hin. exists r. exact Hin.
    - intros (r & Hin). exists (key, r). split; [reflexivity |].
      apply toRevalidate_In. exact Hin. }
  split; [apply fold_revalidateEntry |]. split; [exact Hran |].
  intros key Hq Hnone. rewrite fold_revalidateEntry.
  apply elem_of_difference. split; [exact Hq |].
  intros Hin. apply elem_of_list_to_set, list_elem_of_In in Hin.
  apply Hran in Hin. destruct Hin as (r & Hin & _).
  apply jsmap_get_None_not_key in Hnone. apply Hnone.
  unfold JsMap.keys. apply in_map_iff. exists (key, r). split; [reflexivity | exact Hin].
Qed.

(** X23, witness: a pass for the tag [t] over two entries. *)
Lemma X23_revalidate_pass_witness :
  let a := DataTypes.mkEntry "1" 0 (DataTypes.Finite 1000) ["t"] true in
  let b := DataTypes.mkEntry "2" 0 (DataTypes.Finite 1000) [] false in
  let h := [a; b] in
  let st := MemoryCache.set "b" 1%nat (MemoryCache.set "a" 0%nat MemoryCache.empty) in
  exists st' ran,
    MemoryCache.revalidate (Some ["t"]) h st = (st', ran, true)
    /\ MemoryCache.cache st' = MemoryCache.cache st
    /\ (In "a" ran <->
        exists r, In ("a", r) (MemoryCache.cache st)
          /\ exists entry tag,
               h !! r = Some entry /\ In tag ["t"] /\ In tag (DataTypes.tags entry)).
Proof.
  intros a b h st.
  destruct (X23_revalidate_pass (Some ["t"]) h st eq_refl)
    as (st' & ran & Hr & _ & Hc & _ & _ & Hran & _).
  exists st', ran. split; [exact Hr |]. split; [exact Hc | apply Hran].
Defined.

(* ===================================================================== *)
(** ** The cache: time *)
(* ===================================================================== *)

Section CacheTime.
Import DataTypes MemoryCache.

Lemma getTTLFromStrategy_cases s :
  getTTLFromStrategy s = Finite 0 \/ getTTLFromStrategy s = Infinity
  \/ getTTLFromStrategy s = Finite 60000 \/ getTTLFromStrategy s = Finite 300000.
Proof.
  unfold getTTLFromStrategy.
  destruct (String.eqb s "no-cache"); [tauto |].
  destruct (String.eqb s "force-cache"); [tauto |].
  destruct (String.eqb s "stale-while-revalidate"); [tauto |].
  destruct (String.eqb s "revalidate-on-mount"); tauto.
Qed.

(** The elapsed time, as the code computes it, grows with the clock. *)
Lemma elapsed_mono now later ts : now <= later -> Js.sub now ts <= Js.sub later ts.
Proof. intros H. unfold Js.sub. apply toDouble_mono. lia. Qed.

(** An exact bound on the elapsed time carries over to the computed
    elapsed time and the computed threshold. *)
Lemma within_three_quarters now later t :
  4 * (later - now) <= 3 * t -> 4 * Js.sub later now <= Js.toDouble (3 * t).
Proof.
  intros H. unfold Js.sub. rewrite <- toDouble_times4. apply toDouble_mono. exact H.
Qed.

End CacheTime.

(** X24.  Expiry and staleness only come with time: an entry expired at
    one clock reading is expired at every later one, and likewise for
    stale; and for a positive time to live an expired entry is past its
    stale threshold too. *)
Theorem X24_expiry_and_staleness_are_monotone :
  forall (entry : DataTypes.CacheEntry) (now later : Z),
    now <= later ->
    (MemoryCache.isExpired now entry = true -> MemoryCache.isExpired later entry = true)
    /\ (MemoryCache.isStale now entry = true -> MemoryCache.isStale later entry = true)
    /\ (forall t, DataTypes.ttl entry = DataTypes.Finite t -> 0 < t ->
          MemoryCache.isExpired now entry = true -> MemoryCache.isStale now entry = true).
Proof.
  intros entry now later Hle.
  pose proof (elapsed_mono now later (DataTypes.timestamp entry) Hle) as Hmono.
  split; [| split].
  - intros H. apply isExpired_true_iff in H. destruct H as (t & Ht & Hne & Hgt).
    apply isExpired_true_iff. exists t. repeat split; [exact Ht | exact Hne | lia].
  - intros H. apply isStale_true_iff in H. destruct H as (t & Ht & Hne & Hgt).
    apply isStale_true_iff. exists t. repeat split; [exact Ht | exact Hne | lia].
  - intros t Ht Hpos H. apply isExpired_true_iff in H. destruct H as (t' & Ht' & Hne & Hgt).
    rewrite Ht in Ht'. inversion Ht'; subst t'.
    pose proof (toDouble_three_le_four t Hpos).
    apply isStale_true_iff. exists t. repeat split; [exact Ht | exact Hne | lia].
Qed.

(** X24, witness. *)
Lemma X24_expiry_and_staleness_are_monotone_witness :
  let entry := DataTypes.mkEntry "d" 0 (DataTypes.Finite 1000) [] false in
  MemoryCache.isExpired 2000 entry = true /\ MemoryCache.isStale 2000 entry = true.
Proof.
  intros entry.
  destruct (X24_expiry_and_staleness_are_monotone entry 1001 2000 ltac:(lia))
    as (Hexp & Hstale & _).
  destruct (X24_expiry_and_staleness_are_monotone entry 1001 1001 ltac:(lia))
    as (_ & _ & Himp).
  split; [apply Hexp; reflexivity |].
  apply Hstale. apply (Himp 1000); [reflexivity | lia | reflexivity].
Defined.

(** X25.  The object built by [createCacheEntry] is a new one, stamped
    with the clock reading of its creation and not stale.  Written with
    [set] and read back, it is the object returned, unchanged, and the
    cache is left as the write made it, when the two clock readings of
    the read are later ones up to three quarters of its time to live, and
    at every later clock reading at all when the strategy gives a time to
    live of 0 or [Infinity]; a strategy given by name never yields a
    negative time to live. *)
Theorem X25_created_entry_round_trip :
  forall (d key : string) (config : DataTypes.CacheConfig) (now later later' : Z)
         (h : DataTypes.Heap) (st : MemoryCache.State),
    let entry := MemoryCache.newEntry d config now in
    let r := fst (MemoryCache.createCacheEntry d config now h) in
    let h' := snd (MemoryCache.createCacheEntry d config now h) in
    now <= later -> later <= later' ->
    (DataTypes.ttl entry = DataTypes.Finite 0
     \/ DataTypes.ttl entry = DataTypes.Infinity
     \/ exists t, DataTypes.ttl entry = DataTypes.Finite t /\ 0 < t
                  /\ 4 * (later' - now) <= 3 * t) ->
    h' !! r = Some entry
    /\ h !! r = None
    /\ (forall r0 e, h !! r0 = Some e -> h' !! r0 = Some e)
    /\ DataTypes.timestamp entry = now
    /\ DataTypes.isStale entry = false
    /\ MemoryCache.get key later later' h' (MemoryCache.set key r st)
       = (Some r, h', MemoryCache.set key r st)
    /\ (forall s, DataTypes.strategy config = DataTypes.Named s ->
          DataTypes.ttl entry = DataTypes.Finite 0
          \/ DataTypes.ttl entry = DataTypes.Infinity
          \/ DataTypes.ttl entry = DataTypes.Finite 60000
          \/ DataTypes.ttl entry = DataTypes.Finite 300000).
Proof.
  intros d key config now later later' h st entry r h' Hle Hle' Hcase.
  assert (Hnew : h' !! r = Some entry) by apply alloc_new.
  split; [exact Hnew |].
  split; [apply lookup_ge_None_2; cbn; lia |].
  split; [intros r0 e Hr0; apply (alloc_old h entry r0 e Hr0) |].
  split; [reflexivity |]. split; [reflexivity |]. split.
  - apply (get_fresh key later later' h' _ r entry); [| exact Hnew | |].
    + cbn [MemoryCache.set MemoryCache.cache]. apply jsmap_get_set_eq.
    + destruct Hcase as [H | [H | (t & H & Hpos & Hq)]].
      * apply ttl_zero_never_expired_nor_stale. exact H.
      * apply ttl_infinite_never_expired_nor_stale. exact H.
      * apply (within_staleTime_fresh later entry t H ltac:(lia)).
        apply within_three_quarters.
        change (4 * (later - now) <= 3 * t). lia.
    + destruct Hcase as [H | [H | (t & H & Hpos & Hq)]].
      * apply ttl_zero_never_expired_nor_stale. exact H.
      * apply ttl_infinite_never_expired_nor_stale. exact H.
      * apply (within_staleTime_fresh later' entry t H ltac:(lia)).
        apply within_three_quarters. exact Hq.
  - intros s Hs. subst entry. unfold MemoryCache.newEntry. rewrite Hs.
    cbn [DataTypes.ttl]. apply getTTLFromStrategy_cases.
Qed.

(** X25, witness: the one-minute strategy, read 45 seconds later. *)
Lemma X25_created_entry_round_trip_witness :
  let config := DataTypes.mkCacheConfig (DataTypes.Named "stale-while-revalidate") None in
  let r := fst (MemoryCache.createCacheEntry "d" config 5000 []) in
  let h := snd (MemoryCache.createCacheEntry "d" config 5000 []) in
  MemoryCache.get "k" 49999 50000 h (MemoryCache.set "k" r MemoryCache.empty)
  = (Some r, h, MemoryCache.set "k" r MemoryCache.empty).
Proof.
  intros config r h.
  destruct (X25_created_entry_round_trip "d" "k" config 5000 49999 50000 [] MemoryCache.empty)
    as (_ & _ & _ & _ & _ & H & _).
  - lia.
  - lia.
  - right. right. exists 60000. split; [reflexivity |]. split; lia.
  - exact H.
Defined.

(** X26.  When a debounce timer fires, one timer less is pending.  With an
    empty queue nothing else happens.  With a key in the queue and no pass
    in flight, a pass over all stored entries starts: afterwards no key of
    a stored entry is in the queue.  With a pass in flight the firing
    starts nothing and the queue stays as it is. *)
Theorem X26_timer_fires :
  forall (h : DataTypes.Heap) (st : MemoryCache.State),
    let '(st', ran, suspended) := MemoryCache.timerFires h st in
    MemoryCache.timers st' = Nat.pred (MemoryCache.timers st)
    /\ MemoryCache.cache st' = MemoryCache.cache st
    /\ (MemoryCache.revalidationQueue st = ∅ ->
        ran = [] /\ suspended = false
        /\ MemoryCache.revalidationQueue st' = ∅
        /\ MemoryCache.isRevalidating st' = MemoryCache.isRevalidating st)
    /\ (MemoryCache.revalidationQueue st <> ∅ ->
        MemoryCache.isRevalidating st = false ->
        ran = JsMap.keys (MemoryCache.cache st) /\ suspended = true
        /\ MemoryCache.isRevalidating st' = true
        /\ forall key, In key (JsMap.keys (MemoryCache.cache st)) ->
                       key ∉ MemoryCache.revalidationQueue st')
    /\ (MemoryCache.revalidationQueue st <> ∅ ->
        MemoryCache.isRevalidating st = true ->
        ran = [] /\ suspended = false
        /\ MemoryCache.revalidationQueue st' = MemoryCache.revalidationQueue st).
Proof.
  intros h st. unfold MemoryCache.timerFires.
  destruct (decide (MemoryCache.revalidationQueue st = ∅)) as [Hempty | Hne].
  - cbn [MemoryCache.timers MemoryCache.cache MemoryCache.revalidationQueue
         MemoryCache.isRevalidating].
    split; [reflexivity |]. split; [reflexivity |].
    split; [intros _; repeat split; exact Hempty |].
    split; intros Hq; contradiction.
  - unfold MemoryCache.revalidate. cbn [MemoryCache.isRevalidating].
    destruct (MemoryCache.isRevalidating st) eqn:Hflag.
    + cbn [MemoryCache.timers MemoryCache.cache MemoryCache.revalidationQueue
           MemoryCache.isRevalidating].
      split; [reflexivity |]. split; [reflexivity |].
      split; [intros Hq; contradiction |].
      split; [intros _ Hf; discriminate |].
      intros _ _. repeat split.
    + cbn [MemoryCache.timers MemoryCache.cache MemoryCache.revalidationQueue
           MemoryCache.isRevalidating MemoryCache.toRevalidate].
      split; [reflexivity |]. split; [reflexivity |].
      split; [intros Hq; contradiction |].
      split; [| intros _ Hf; discriminate].
      intros _ _. repeat split.
      intros key Hin. rewrite fold_revalidateEntry.
      intros Hq. apply elem_of_difference in Hq. destruct Hq as [_ Hq]. apply Hq.
      apply elem_of_list_to_set, list_elem_of_In. exact Hin.
Qed.

(** X26, witness: a stale read queues [k]; the timer then starts a pass. *)
Lemma X26_timer_fires_witness :
  let entry := DataTypes.mkEntry "d" 0 (DataTypes.Finite 1000) [] false in
  let read := MemoryCache.get "k" 800 800 [entry] (MemoryCache.set "k" 0%nat MemoryCache.empty) in
  let '(st', ran, suspended) := MemoryCache.timerFires (snd (fst read)) (snd read) in
  ran = ["k"] /\ suspended = true /\ MemoryCache.timers st' = 0%nat.
Proof.
  intros entry read.
  pose proof (X26_timer_fires (snd (fst read)) (snd read)) as H.
  destruct (MemoryCache.timerFires (snd (fst read)) (snd read)) as [[st' ran] suspended].
  destruct H as (Ht & _ & _ & Hstart & _).
  destruct Hstart as (Hran & Hs & _).
  - intros Hq. assert (Hin : "k" ∈ MemoryCache.revalidationQueue (snd read))
      by (vm_compute; set_solver).
    rewrite Hq in Hin. set_solver.
  - reflexivity.
  - split; [exact Hran |]. split; [exact Hs | exact Ht].
Defined.

(* ===================================================================== *)
(** ** The data manager on top of the cache *)
(* ===================================================================== *)

Section ManagerFacts.
Import DataTypes.

Lemma withCache_same dm : DataManager.withCache dm (DataManager.cache dm) = dm.
Proof. destruct dm. reflexivity. Qed.

(** A read never returns an entry with the flag clear when the stored
    entry has it set. *)
Lemma get_flagged_stays_flagged key now now' h st r entry :
  JsMap.get key (MemoryCache.cache st) = Some r -> h !! r = Some entry ->
  isStale entry = true ->
  DataManager.freshData (fst (fst (MemoryCache.get key now now' h st)))
    (snd (fst (MemoryCache.get key now now' h st))) = None.
Proof.
  intros Hs Hr Hf. unfold MemoryCache.get. rewrite Hs, Hr.
  destruct (MemoryCache.isExpired now entry); [reflexivity |].
  destruct (MemoryCache.isStale now' entry); cbn [fst snd DataManager.freshData].
  - rewrite (heap_assign_same h r entry _ Hr). reflexivity.
  - rewrite Hr, Hf. reflexivity.
Qed.

Lemma awaitRevalidate_cache key h c :
  MemoryCache.cache (DataManager.awaitRevalidate key h c) = MemoryCache.cache c.
Proof.
  unfold DataManager.awaitRevalidate, MemoryCache.revalidate.
  destruct (MemoryCache.isRevalidating c); reflexivity.
Qed.

(** Storing a new object under a key: the key holds the new object, the
    objects there were are untouched and none of them is the new one. *)
Lemma storeNew_stored key entry h c :
  let '(h', c') := DataManager.storeNew key entry h c in
  exists r,
    JsMap.get key (MemoryCache.cache c') = Some r
    /\ h' !! r = Some entry
    /\ h !! r = None
    /\ forall r0 e, h !! r0 = Some e -> h' !! r0 = Some e.
Proof.
  unfold DataManager.storeNew, alloc. exists (length h).
  split; [cbn [MemoryCache.set MemoryCache.cache]; apply jsmap_get_set_eq |].
  split; [apply (alloc_new h entry) |].
  split; [apply lookup_ge_None_2; lia |].
  intros r0 e Hr0. apply (alloc_old h entry r0 e Hr0).
Qed.

(** A stored entry that is servable is served. *)
Lemma fetch_served key options config now now' later env h dm fetcher r entry :
  JsMap.get key (DataManager.fetchers dm) = Some fetcher ->
  DataManager.opt_cache options = Some config ->
  JsMap.get key (MemoryCache.cache (DataManager.cache dm)) = Some r ->
  h !! r = Some entry ->
  isStale entry = false ->
  MemoryCache.isExpired now entry = false ->
  MemoryCache.isStale now' entry = false ->
  DataManager.fetch key options now now' later env h dm
  = (DataManager.Returned (data entry), h, dm, []).
Proof.
  intros Hf Hc Hs Hr Hflag He Hst.
  unfold DataManager.fetch. rewrite Hf, Hc.
  rewrite (get_fresh key now now' h _ r entry Hs Hr He Hst).
  unfold DataManager.freshData. rewrite Hr, Hflag.
  rewrite withCache_same. reflexivity.
Qed.

(** The codes of the errors of [fetch]: only the one of the [catch]
    block is a member of [ErrorCodes]. *)
Lemma fetch_error_codes key details :
  code (DataManager.fetcherNotFound key) = None
  /\ code (DataManager.validationFailed key) = None
  /\ code (DataManager.fetchFailed key details) = Some DATA_FETCH_FAILED.
Proof. repeat split. Qed.

End ManagerFacts.

(** X27.  With the [cache] option, [fetch] serves a stored entry without
    calling the fetcher, and without calling any collaborator, when the
    entry is not expired, not past its stale threshold and not flagged
    stale; the manager and the entry objects are left unchanged. *)
Theorem X27_fetch_served_from_cache :
  forall (key : string) (options : DataManager.DataOptions) (config : DataTypes.CacheConfig)
         (now now' later : Z) (env : DataManager.Collaborators) (h : DataTypes.Heap)
         (dm : DataManager.Manager) (fetcher : DataManager.DataFetcher)
         (r : DataTypes.Ref) (entry : DataTypes.CacheEntry),
    JsMap.get key (DataManager.fetchers dm) = Some fetcher ->
    DataManager.opt_cache options = Some config ->
    JsMap.get key (MemoryCache.cache (DataManager.cache dm)) = Some r ->
    h !! r = Some entry ->
    DataTypes.isStale entry = false ->
    MemoryCache.isExpired now entry = false ->
    MemoryCache.isStale now' entry = false ->
    DataManager.fetch key options now now' later env h dm
    = (DataManager.Returned (DataTypes.data entry), h, dm, []).
Proof.
  intros key options config now now' later env h dm fetcher r entry.
  apply fetch_served.
Qed.

(** X27, witness. *)
Lemma X27_fetch_served_from_cache_witness :
  let entry := DataTypes.mkEntry "v0" 0 (DataTypes.Finite 1000) [] false in
  let fetcher := DataManager.mkFetcher (DataManager.Fetched "v1") None in
  let dm := DataManager.mkManager (MemoryCache.set "user" 0%nat MemoryCache.empty)
              [("user", fetcher)] false in
  let config := DataTypes.mkCacheConfig (DataTypes.Millis (DataTypes.Finite 1000)) None in
  let options := DataManager.mkOptions (Some config) None false in
  let quiet := DataManager.mkCollaborators (fun _ => None) (fun _ _ => None) in
  DataManager.fetch "user" options 500 500 510 quiet [entry] dm
  = (DataManager.Returned "v0", [entry], dm, []).
Proof.
  intros entry fetcher dm config options quiet.
  apply (X27_fetch_served_from_cache "user" options config 500 500 510 quiet [entry] dm
           fetcher 0%nat entry); reflexivity.
Defined.

(** X28.  A first [fetch] with the [cache] option, for a key with a
    fetcher and nothing stored, calls the fetcher once and, when the data
    passes validation and no collaborator throws, returns the data and
    stores it in a new object, with the clock of the write, the stale flag
    clear, and a time to live that is the strategy when it is a number and
    five minutes for every strategy given by name; the objects there were
    are untouched.  A second [fetch] of the key, at a time when that entry
    is neither expired nor stale, returns the same data without calling
    the fetcher. *)
Theorem X28_fetch_stores_then_serves :
  forall (key d : string) (options : DataManager.DataOptions)
         (config : DataTypes.CacheConfig) (now now' later now2 now2' later2 : Z)
         (env env2 : DataManager.Collaborators) (h : DataTypes.Heap)
         (dm : DataManager.Manager) (fetcher : DataManager.DataFetcher),
    JsMap.get key (DataManager.fetchers dm) = Some fetcher ->
    DataManager.fetch_outcome fetcher = DataManager.Fetched d ->
    match DataManager.validate fetcher with Some check => check d | None => true end = true ->
    DataManager.opt_cache options = Some config ->
    JsMap.get key (MemoryCache.cache (DataManager.cache dm)) = None ->
    (forall channel, DataManager.subscribe_throws env channel = None) ->
    DataManager.stateSet_throws env key d = None ->
    exists h' dm' effects r,
      DataManager.fetch key options now now' later env h dm
      = (DataManager.Returned d, h', dm', effects)
      /\ In (DataManager.CalledFetcher key) effects
      /\ JsMap.get key (MemoryCache.cache (DataManager.cache dm')) = Some r
      /\ h' !! r = Some (DataManager.fetchedEntry d config later)
      /\ h !! r = None
      /\ (forall r0 e, h !! r0 = Some e -> h' !! r0 = Some e)
      /\ (forall s, DataTypes.strategy config = DataTypes.Named s ->
            DataTypes.ttl (DataManager.fetchedEntry d config later)
            = DataTypes.Finite 300000)
      /\ (MemoryCache.isExpired now2 (DataManager.fetchedEntry d config later) = false ->
          MemoryCache.isStale now2' (DataManager.fetchedEntry d config later) = false ->
          DataManager.fetch key options now2 now2' later2 env2 h' dm'
          = (DataManager.Returned d, h', dm', [])).
Proof.
  intros key d options config now now' later now2 now2' later2 env env2 h dm fetcher
         Hf Hout Hvalid Hc Hnone Hsub Hstate.
  pose proof (get_absent key now now' h (DataManager.cache dm) Hnone) as Hget.
  set (entry := DataManager.fetchedEntry d config later).
  set (h' := (h ++ [entry])%list).
  set (dm' := DataManager.withCache dm
                (MemoryCache.set key (length h) (DataManager.cache dm))).
  assert (Hfetch : exists effects,
             DataManager.fetch key options now now' later env h dm
             = (DataManager.Returned d, h', dm', effects)
             /\ In (DataManager.CalledFetcher key) effects).
  { unfold DataManager.fetch. rewrite Hf, Hc, Hget. cbn [DataManager.freshData].
    rewrite Hout, Hvalid. cbn [negb]. unfold DataTypes.alloc. fold entry. fold h'. fold dm'.
    destruct (DataManager.opt_realtime options) as [rt |].
    - destruct (DataManager.realtime dm && DataManager.rt_enabled rt).
      + rewrite Hsub. destruct (DataManager.opt_state options).
        * rewrite Hstate. eexists. split; [reflexivity | left; reflexivity].
        * eexists. split; [reflexivity | left; reflexivity].
      + destruct (DataManager.opt_state options).
        * rewrite Hstate. eexists. split; [reflexivity | left; reflexivity].
        * eexists. split; [reflexivity | left; reflexivity].
    - destruct (DataManager.opt_state options).
      + rewrite Hstate. eexists. split; [reflexivity | left; reflexivity].
      + eexists. split; [reflexivity | left; reflexivity]. }
  destruct Hfetch as (effects & Hfetch & Hin).
  assert (Hstored : JsMap.get key (MemoryCache.cache (DataManager.cache dm'))
                    = Some (length h)).
  { cbn [dm' DataManager.withCache DataManager.cache MemoryCache.set MemoryCache.cache].
    apply jsmap_get_set_eq. }
  assert (Hnew : h' !! length h = Some entry) by apply (alloc_new h entry).
  exists h', dm', effects, (length h).
  split; [exact Hfetch |]. split; [exact Hin |]. split; [exact Hstored |].
  split; [exact Hnew |].
  split; [apply lookup_ge_None_2; lia |].
  split; [intros r0 e Hr0; apply (alloc_old h entry r0 e Hr0) |].
  split.
  - intros s Hs. unfold entry, DataManager.fetchedEntry, DataManager.fetchTtl.
    rewrite Hs. reflexivity.
  - intros He Hst.
    apply (fetch_served key options config now2 now2' later2 env2 h' dm'
             fetcher (length h) entry); try assumption; reflexivity.
Qed.

(** X28, witness: the strategy ['no-cache'], a second fetch three minutes
    later. *)
Lemma X28_fetch_stores_then_serves_witness :
  let fetcher := DataManager.mkFetcher (DataManager.Fetched "v1") None in
  let dm := DataManager.registerFetcher "user" fetcher
              (DataManager.mkManager MemoryCache.empty [] false) in
  let options := DataManager.mkOptions
                   (Some (DataTypes.mkCacheConfig (DataTypes.Named "no-cache") None))
                   None false in
  let quiet := DataManager.mkCollaborators (fun _ => None) (fun _ _ => None) in
  exists h' dm' effects,
    DataManager.fetch "user" options 0 0 10 quiet [] dm
    = (DataManager.Returned "v1", h', dm', effects)
    /\ DataManager.fetch "user" options 180000 180000 180010 quiet h' dm'
       = (DataManager.Returned "v1", h', dm', []).
Proof.
  intros fetcher dm options quiet.
  destruct (X28_fetch_stores_then_serves "user" "v1" options
              (DataTypes.mkCacheConfig (DataTypes.Named "no-cache") None)
              0 0 10 180000 180000 180010 quiet quiet [] dm fetcher)
    as (h' & dm' & effects & r & H1 & _ & _ & _ & _ & _ & _ & H2); try reflexivity.
  exists h', dm', effects. split; [exact H1 |]. apply H2; reflexivity.
Defined.

(** X29.  Errors of [fetch].  For a key with no registered fetcher it
    throws the error made for that case, whose code is undefined
    ([FETCHER_NOT_FOUND] is not a member of [ErrorCodes]), so that
    [isFullError] does not recognise it; the cache is not read and
    nothing is called.  For a key with a fetcher every failure is thrown
    as the error of the [catch] block, with the code [DATA_FETCH_FAILED]
    and the key in its message; when the fetcher rejects, its details are
    the message of the rejection, when validation refuses the data they
    are the validation message, and in both cases, for a key with nothing
    stored, the manager and the entry objects are left exactly as they
    were: nothing is written to the cache. *)
Theorem X29_fetch_errors :
  forall (key : string) (options : DataManager.DataOptions) (now now' later : Z)
         (env : DataManager.Collaborators) (h : DataTypes.Heap) (dm : DataManager.Manager),
    (JsMap.get key (DataManager.fetchers dm) = None ->
       DataManager.fetch key options now now' later env h dm
       = (DataManager.ThrewError (DataManager.fetcherNotFound key), h, dm, [])
       /\ code (DataManager.fetcherNotFound key) = None
       /\ isFullError (ErrorObject (DataManager.fetcherNotFound key)) = false)
    /\ (forall fetcher,
          JsMap.get key (DataManager.fetchers dm) = Some fetcher ->
          match fst (fst (fst (DataManager.fetch key options now now' later env h dm))) with
          | DataManager.Returned _ => True
          | DataManager.ThrewError e =>
              code e = Some DATA_FETCH_FAILED
              /\ message e = "Failed to fetch data for key: " ++ key
          | DataManager.ThrewValue _ => False
          end)
    /\ (forall fetcher,
          JsMap.get key (DataManager.fetchers dm) = Some fetcher ->
          JsMap.get key (MemoryCache.cache (DataManager.cache dm)) = None ->
          (exists e, DataManager.fetch_outcome fetcher = DataManager.FetchFailed e)
          \/ (exists v check,
                DataManager.fetch_outcome fetcher = DataManager.Fetched v
                /\ DataManager.validate fetcher = Some check /\ check v = false) ->
          DataManager.fetch key options now now' later env h dm
          = (DataManager.ThrewError
               (createError (ErrorCodes "DATA_FETCH_FAILED")
                  ("Failed to fetch data for key: " ++ key)
                  (Some (match DataManager.fetch_outcome fetcher with
                         | DataManager.FetchFailed e => errorDetails e
                         | DataManager.Fetched _ => "Data validation failed for key: " ++ key
                         end))
                  (Some "Check network connectivity and server status")),
             h, dm, [DataManager.CalledFetcher key])).
Proof.
  intros key options now now' later env h dm. split; [| split].
  - intros Hnone. unfold DataManager.fetch. rewrite Hnone. repeat split.
  - intros fetcher Hf. unfold DataManager.fetch. rewrite Hf.
    destruct (DataManager.opt_cache options) as [config |].
    + destruct (MemoryCache.get key now now' h (DataManager.cache dm)) as [[cached h1] c1].
      destruct (DataManager.freshData cached h1) as [hit |]; [exact I |].
      destruct (DataManager.fetch_outcome fetcher) as [v | e]; [| split; reflexivity].
      destruct (negb _); [split; reflexivity |].
      destruct (DataTypes.alloc (DataManager.fetchedEntry v config later) h1) as [r h2].
      destruct (DataManager.opt_realtime options) as [rt |].
      * destruct (DataManager.realtime dm && DataManager.rt_enabled rt).
        -- destruct (DataManager.subscribe_throws env _); [split; reflexivity |].
           destruct (DataManager.opt_state options); [| exact I].
           destruct (DataManager.stateSet_throws env key v); [split; reflexivity | exact I].
        -- destruct (DataManager.opt_state options); [| exact I].
           destruct (DataManager.stateSet_throws env key v); [split; reflexivity | exact I].
      * destruct (DataManager.opt_state options); [| exact I].
        destruct (DataManager.stateSet_throws env key v); [split; reflexivity | exact I].
    + destruct (DataManager.fetch_outcome fetcher) as [v | e]; [| split; reflexivity].
      destruct (negb _); [split; reflexivity |].
      destruct (DataManager.opt_realtime options) as [rt |].
      * destruct (DataManager.realtime dm && DataManager.rt_enabled rt).
        -- destruct (DataManager.subscribe_throws env _); [split; reflexivity |].
           destruct (DataManager.opt_state options); [| exact I].
           destruct (DataManager.stateSet_throws env key v); [split; reflexivity | exact I].
        -- destruct (DataManager.opt_state options); [| exact I].
           destruct (DataManager.stateSet_throws env key v); [split; reflexivity | exact I].
      * destruct (DataManager.opt_state options); [| exact I].
        destruct (DataManager.stateSet_throws env key v); [split; reflexivity | exact I].
  - intros fetcher Hf Hnone Hfail. unfold DataManager.fetch. rewrite Hf.
    pose proof (get_absent key now now' h (DataManager.cache dm) Hnone) as Hget.
    destruct (DataManager.opt_cache options) as [config |].
    + rewrite Hget. cbn [DataManager.freshData]. rewrite withCache_same.
      destruct Hfail as [(e & ->) | (v & check & -> & -> & Hcheck)];
        [reflexivity | rewrite Hcheck; reflexivity].
    + rewrite withCache_same.
      destruct Hfail as [(e & ->) | (v & check & -> & -> & Hcheck)];
        [reflexivity | rewrite Hcheck; reflexivity].
Qed.

(** X29, witness: no fetcher for the key, then a fetcher that rejects. *)
Lemma X29_fetch_errors_witness :
  let empty := DataManager.mkManager MemoryCache.empty [] false in
  let failing := DataManager.mkFetcher (DataManager.FetchFailed (plainError "offline")) None in
  let dm := DataManager.registerFetcher "user" failing empty in
  let options := DataManager.mkOptions None None false in
  let quiet := DataManager.mkCollaborators (fun _ => None) (fun _ _ => None) in
  (DataManager.fetch "user" options 0 0 0 quiet [] empty
   = (DataManager.ThrewError
        (mkError None "No fetcher registered for key: user" None
           (Some "Register a fetcher before attempting to fetch data")), [], empty, [])
   /\ isFullError (ErrorObject (DataManager.fetcherNotFound "user")) = false)
  /\ DataManager.fetch "user" options 0 0 0 quiet [] dm
     = (DataManager.ThrewError
          (mkError (Some DATA_FETCH_FAILED) "Failed to fetch data for key: user"
             (Some "offline") (Some "Check network connectivity and server status")),
        [], dm, [DataManager.CalledFetcher "user"]).
Proof.
  intros empty failing dm options quiet.
  destruct (X29_fetch_errors "user" options 0 0 0 quiet [] empty) as [Hnone _].
  destruct (X29_fetch_errors "user" options 0 0 0 quiet [] dm) as (_ & _ & Hfail).
  split.
  - destruct (Hnone eq_refl) as (Hres & _ & Hfull). split; [exact Hres | exact Hfull].
  - apply (Hfail failing); [reflexivity | reflexivity |].
    left. eexists. reflexivity.
Defined.

Section MutateFacts.
Import DataTypes.

Lemma fetch_flagged_calls_fetcher key options now now' later env h dm fetcher r entry :
  JsMap.get key (DataManager.fetchers dm) = Some fetcher ->
  JsMap.get key (MemoryCache.cache (DataManager.cache dm)) = Some r ->
  h !! r = Some entry ->
  isStale entry = true ->
  In (DataManager.CalledFetcher key)
     (snd (DataManager.fetch key options now now' later env h dm)).
Proof.
  intros Hf Hs Hr Hflag. unfold DataManager.fetch. rewrite Hf.
  pose proof (get_flagged_stays_flagged key now now' h _ r entry Hs Hr Hflag) as Hmiss.
  destruct (DataManager.opt_cache options) as [config |].
  - destruct (MemoryCache.get key now now' h (DataManager.cache dm)) as [[cached h1] c1].
    cbn [fst snd] in Hmiss. rewrite Hmiss.
    destruct (DataManager.fetch_outcome fetcher) as [v | e]; [| left; reflexivity].
    destruct (negb _); [left; reflexivity |].
    destruct (alloc (DataManager.fetchedEntry v config later) h1) as [r2 h2].
    destruct (DataManager.opt_realtime options) as [rt |].
    + destruct (DataManager.realtime dm && DataManager.rt_enabled rt).
      * destruct (DataManager.subscribe_throws env _); [left; reflexivity |].
        destruct (DataManager.opt_state options); [| left; reflexivity].
        destruct (DataManager.stateSet_throws env key v); left; reflexivity.
      * destruct (DataManager.opt_state options); [| left; reflexivity].
        destruct (DataManager.stateSet_throws env key v); left; reflexivity.
    + destruct (DataManager.opt_state options); [| left; reflexivity].
      destruct (DataManager.stateSet_throws env key v); left; reflexivity.
  - destruct (DataManager.fetch_outcome fetcher) as [v | e]; [| left; reflexivity].
    destruct (negb _); [left; reflexivity |].
    destruct (DataManager.opt_realtime options) as [rt |].
    + destruct (DataManager.realtime dm && DataManager.rt_enabled rt).
      * destruct (DataManager.subscribe_throws env _); [left; reflexivity |].
        destruct (DataManager.opt_state options); [| left; reflexivity].
        destruct (DataManager.stateSet_throws env key v); left; reflexivity.
      * destruct (DataManager.opt_state options); [| left; reflexivity].
        destruct (DataManager.stateSet_throws env key v); left; reflexivity.
    + destruct (DataManager.opt_state options); [| left; reflexivity].
      destruct (DataManager.stateSet_throws env key v); left; reflexivity.
Qed.

End MutateFacts.

(** X30.  [mutate] on a key whose read returns an entry with truthy data.
    When the mutation fails and [rollbackOnError] is set, [mutate] throws
    (the error itself when there is no [onError]) and the key then holds a
    new object with the data that was read, but with a time to live of 0,
    no tags, the clock of the rollback and the stale flag set: the object
    that was read is no longer the one stored.  When the mutation succeeds
    after an optimistic update, with no [onSuccess], [mutate] returns the
    result and the key holds the optimistic object, flagged stale; the
    result is not written to the cache.  Any later [fetch] of a key whose
    stored entry is flagged stale calls the fetcher. *)
Theorem X30_mutate_leaves_provisional_entries :
  forall (key : string) (mutationFn : option string -> DataManager.MutationOutcome)
         (options : DataManager.MutationOptions) (now now' updateTime rollbackTime : Z)
         (h : DataTypes.Heap) (dm : DataManager.Manager)
         (r : DataTypes.Ref) (read : DataTypes.CacheEntry),
    fst (fst (MemoryCache.get key now now' h (DataManager.cache dm))) = Some r ->
    snd (fst (MemoryCache.get key now now' h (DataManager.cache dm))) !! r = Some read ->
    Js.truthy (DataTypes.data read) = true ->
    let done := DataManager.mutate key mutationFn options now now' updateTime rollbackTime h dm in
    let completion := fst (fst (fst done)) in
    let h' := snd (fst (fst done)) in
    let dm' := snd (fst done) in
    (forall err,
        mutationFn (Some (DataTypes.data read)) = DataManager.MutationFailed err ->
        DataManager.rollbackOnError options = true ->
        (exists thrown, completion = DataManager.ThrewValue thrown
                        /\ (DataManager.onError options = None -> thrown = err))
        /\ exists r',
             JsMap.get key (MemoryCache.cache (DataManager.cache dm')) = Some r'
             /\ h' !! r' = Some (DataManager.provisionalEntry (DataTypes.data read) rollbackTime)
             /\ r' <> r)
    /\ (forall update result,
          mutationFn (Some (DataTypes.data read)) = DataManager.Mutated result ->
          DataManager.optimisticUpdate options = Some update ->
          DataManager.onSuccess options = None ->
          completion = DataManager.Returned result
          /\ exists r',
               JsMap.get key (MemoryCache.cache (DataManager.cache dm')) = Some r'
               /\ h' !! r'
                  = Some (DataManager.provisionalEntry (update (DataTypes.data read)) updateTime)
               /\ r' <> r)
    /\ (forall fopts fnow fnow' flater env fetcher fh fdm fr entry,
          JsMap.get key (DataManager.fetchers fdm) = Some fetcher ->
          JsMap.get key (MemoryCache.cache (DataManager.cache fdm)) = Some fr ->
          fh !! fr = Some entry ->
          DataTypes.isStale entry = true ->
          In (DataManager.CalledFetcher key)
             (snd (DataManager.fetch key fopts fnow fnow' flater env fh fdm))).
Proof.
  intros key mutationFn options now now' updateTime rollbackTime h dm r read Hread Hobj Htruthy.
  cbv zeta. unfold DataManager.mutate.
  destruct (MemoryCache.get key now now' h (DataManager.cache dm)) as [[cached h0] c0].
  cbn [fst snd] in Hread, Hobj. subst cached.
  cbn [DataManager.dataOf]. rewrite Hobj. cbn [option_map].
  assert (Hstore : forall entry hh cc,
             hh !! r = Some read ->
             exists r',
               JsMap.get key (MemoryCache.cache (snd (DataManager.storeNew key entry hh cc)))
               = Some r'
               /\ fst (DataManager.storeNew key entry hh cc) !! r' = Some entry
               /\ r' <> r
               /\ fst (DataManager.storeNew key entry hh cc) !! r = Some read).
  { intros entry hh cc Hr. pose proof (storeNew_stored key entry hh cc) as H.
    destruct (DataManager.storeNew key entry hh cc) as [h2 c2]. cbn [fst snd].
    destruct H as (r' & H1 & H2 & H3 & H4). exists r'.
    split; [exact H1 |]. split; [exact H2 |].
    split; [intros ->; congruence | apply H4; exact Hr]. }
  split; [| split].
  - intros err Hfail Hroll. rewrite Hfail.
    assert (Hr1 : fst (match DataManager.optimisticUpdate options with
                       | Some update =>
                           if Js.truthy (DataTypes.data read)
                           then DataManager.storeNew key
                                  (DataManager.provisionalEntry (update (DataTypes.data read)) updateTime)
                                  h0 c0
                           else (h0, c0)
                       | None => (h0, c0)
                       end) !! r = Some read).
    { destruct (DataManager.optimisticUpdate options) as [update |]; [| exact Hobj].
      rewrite Htruthy.
      destruct (Hstore (DataManager.provisionalEntry (update (DataTypes.data read)) updateTime)
                  h0 c0 Hobj) as (_ & _ & _ & _ & H). exact H. }
    destruct (match DataManager.optimisticUpdate options with
              | Some update => _
              | None => _
              end) as [h1 c1]. cbn [fst] in Hr1.
    unfold DataManager.mutateCatch. rewrite Hroll, Htruthy. cbn [andb].
    destruct (Hstore (DataManager.provisionalEntry (DataTypes.data read) rollbackTime) h1 c1 Hr1)
      as (r' & H1 & H2 & H3 & _).
    destruct (DataManager.storeNew key _ h1 c1) as [h2 c2]. cbn [fst snd] in H1, H2.
    destruct (DataManager.onError options) as [callback |].
    + destruct (callback (errorDetails err)) as [thrown |]; cbn [fst snd].
      * split; [eexists; split; [reflexivity | discriminate] |].
        exists r'. cbn [DataManager.withCache DataManager.cache]. auto.
      * split; [eexists; split; [reflexivity | discriminate] |].
        exists r'. cbn [DataManager.withCache DataManager.cache]. auto.
    + cbn [fst snd]. split; [eexists; split; [reflexivity | reflexivity] |].
      exists r'. cbn [DataManager.withCache DataManager.cache]. auto.
  - intros update result Hok Hupd Hsucc. rewrite Hok, Hupd, Hsucc, Htruthy.
    destruct (Hstore (DataManager.provisionalEntry (update (DataTypes.data read)) updateTime)
                h0 c0 Hobj) as (r' & H1 & H2 & H3 & _).
    destruct (DataManager.storeNew key _ h0 c0) as [h1 c1]. cbn [fst snd] in H1, H2.
    cbn [fst snd]. split; [reflexivity |].
    exists r'. cbn [DataManager.withCache DataManager.cache].
    destruct (DataManager.revalidate options).
    + rewrite awaitRevalidate_cache. auto.
    + auto.
  - intros fopts fnow fnow' flater env fetcher fh fdm fr entry Hf Hs Hr Hflag.
    eapply fetch_flagged_calls_fetcher; eassumption.
Qed.

(** X30, witness: a failed mutation rolls back to a stale copy. *)
Lemma X30_mutate_leaves_provisional_entries_witness :
  let entry := DataTypes.mkEntry "v0" 0 (DataTypes.Finite 60000) ["users"] false in
  let dm := DataManager.mkManager (MemoryCache.set "user" 0%nat MemoryCache.empty) [] false in
  let options := DataManager.mkMutation (Some (fun d => d ++ "!")) true None None false in
  let failing := fun _ : option string => DataManager.MutationFailed (plainError "rejected") in
  let done := DataManager.mutate "user" failing options 100 100 110 120 [entry] dm in
  exists r',
    JsMap.get "user" (MemoryCache.cache (DataManager.cache (snd (fst done)))) = Some r'
    /\ snd (fst (fst done)) !! r'
       = Some (DataTypes.mkEntry "v0" 120 (DataTypes.Finite 0) [] true)
    /\ r' <> 0%nat.
Proof.
  intros entry dm options failing done.
  destruct (X30_mutate_leaves_provisional_entries "user" failing options 100 100 110 120
              [entry] dm 0%nat entry eq_refl eq_refl eq_refl) as [Hroll _].
  destruct (Hroll (plainError "rejected") eq_refl eq_refl) as [_ Hstored].
  exact Hstored.
Defined.
